(** * Privacy-metric engine of the V2X evaluation scripts

    A shallow embedding of [metrics/types.py], [metrics/utilities.py],
    [metrics/trace.py], [metrics/static_attacker.py],
    [metrics/degree_of_anonymity.py], [metrics/pseudonym_consumption.py] and
    [metrics/gps_visualizer.py].

    Conventions of the embedding.
    - Python [int] is [Z] (unbounded on both sides).
    - Python [float] is idealised as a real number [R]: every operation is
      exact.  Operations that raise in Python ([x / 0.0], [math.log] of a
      non-positive number, [min] of an empty sequence, ...) return [None].
      What is stated about float results is meant to survive rounding; where
      rounding decides (the upper bounds of the degree of anonymity), the
      functions are given a second time in IEEE 754 binary64, in
      [Module Binary64].
    - A [dict] is a [gmap], a [set] a [gset]; lists are lists.  Python
      iterates a [dict] in insertion order, a [gmap] in key order; the
      dictionaries of the program are only summed over, searched, counted
      or filtered, which does not depend on the order.
    - Objects mutated in place are threaded through explicitly: a function
      that updates a track returns the updated track. *)

From Stdlib Require Import ZArith Reals Lra Lia List Sorted.
From Stdlib Require PrimFloat SpecFloat FloatOps.
From stdpp Require Import base option gmap sets list strings.

(* ===================================================================== *)
(** * Part I: the program *)
(* ===================================================================== *)

(** ** Python primitives on floats *)

Definition Rlt_bool (a b : R) : bool := if Rlt_dec a b then true else false.

(** [a / b] on floats: raises [ZeroDivisionError] on a zero divisor. *)
Definition py_truediv (a b : R) : option R :=
  if Req_dec_T b 0 then None else Some (a / b)%R.

(** [a % b] on floats, for a positive [b]: [a - b * floor (a / b)]. *)
Definition py_mod (a b : R) : R := (a - b * IZR (Int_part (a / b)))%R.

(** [np.deg2rad]. *)
Definition deg2rad (x : R) : R := (x * (PI / 180))%R.

(** [math.log(x, 2)]: raises [ValueError] unless [0 < x]. *)
Definition math_log2 (x : R) : option R :=
  if Rlt_dec 0 x then Some (ln x / ln 2)%R else None.

(** [l[-1]] on a list of integers.  Every list stored in a track is created
    with one element and only ever appended to, so the default is never
    reached on a track built by the program (see [wf] below). *)
Definition py_last (l : list Z) : Z := List.last l 0%Z.

(** [len(set(l))]. *)
Definition distinct_count (l : list Z) : nat := size (list_to_set (C := gset Z) l).

(** [l[:n]] with [n] either [None] or an integer (negative counts from the
    end). *)
Definition py_slice_to {A} (n : option Z) (l : list A) : list A :=
  match n with
  | None => l
  | Some k =>
      if (0 <=? k)%Z then firstn (Z.to_nat k) l
      else firstn (Z.to_nat (Z.of_nat (List.length l) + k)) l
  end.

(** ** [metrics/utilities.py]: the CAM record *)

Module CAM.
Record t : Type := mk {
  timestamp : Z;
  static_id : Z;
  pseudo_id : Z;
  longitude : Z;
  latitude : Z;
  width : Z;
  length : Z;
  speed : Z;
  heading : Z
}.
End CAM.

(** ** [metrics/types.py] *)

Module Position.
Record t : Type := mk {
  longitude : Z;
  latitude : Z;
  timestamp : Z
}.

(** [Position.__eq__]: longitude and latitude only. *)
Definition eqb (self other : t) : bool :=
  (longitude self =? longitude other)%Z && (latitude self =? latitude other)%Z.

(** [!=] is the negation of [__eq__]. *)
Definition neqb (self other : t) : bool := negb (eqb self other).

Definition dummy : t := mk 0 0 0.
End Position.

Module OriginalTrace.
Record t : Type := mk {
  positions : list Position.t;
  duration : Z;
  static_id : Z
}.
End OriginalTrace.

Module ReconstructedTrace.
Record t : Type := mk {
  positions : list Position.t;
  duration : Z;
  static_id : Z;
  pseudo_ids : list Z
}.
End ReconstructedTrace.

Module VehicleTrace.
Record t : Type := mk {
  static_id : Z;
  original_trace : OriginalTrace.t;
  reconstructed_traces : list ReconstructedTrace.t
}.
End VehicleTrace.

(** [zip(longitude, latitude, timestamps)] turned into positions; [zip]
    stops at the shortest list. *)
Fixpoint zip_positions (longs lats tss : list Z) : list Position.t :=
  match longs, lats, tss with
  | lo :: longs', la :: lats', ts :: tss' =>
      Position.mk lo la ts :: zip_positions longs' lats' tss'
  | _, _, _ => []
  end.

(** ** [metrics/trace.py] *)

Definition EARTH_RADIUS : R := 6371.
Definition POS_ERR_TOLERANCE : R := 0.003.
Definition HEADING_TOLERANCE : R := PI * 3 / 5.

Module VehicleDynamicId.
Record t : Type := mk {
  pseudo_id : list Z;
  static_id : Z;
  width : Z;
  length : Z;
  longitude : list Z;
  latitude : list Z;
  speed : list Z;
  heading : list Z;
  timestamps : list Z;
  duration : Z
}.

(** [__init__]. *)
Definition init (cam : CAM.t) : t :=
  {| pseudo_id := [CAM.pseudo_id cam];
     static_id := CAM.static_id cam;
     width := CAM.width cam;
     length := CAM.length cam;
     longitude := [CAM.longitude cam];
     latitude := [CAM.latitude cam];
     speed := [CAM.speed cam];
     heading := [CAM.heading cam];
     timestamps := [CAM.timestamp cam];
     duration := 0 |}.

Definition compare_id (self : t) (new_id : Z) : bool :=
  (py_last (pseudo_id self) =? new_id)%Z.

Definition compare_parameters (self : t) (length_new width_new : Z) : bool :=
  (length_new =? length self)%Z && (width_new =? width self)%Z.

Definition compute_new_lat (latitude dy : R) : R :=
  (latitude + (dy / EARTH_RADIUS) * (180 / PI))%R.

(** The divisor is a numpy float: a zero divisor does not raise. *)
Definition compute_new_long (longitude latitude dx : R) : R :=
  (longitude + (dx / EARTH_RADIUS) * (180 / PI) / cos (latitude * PI / 180))%R.

Definition dy_dx_from_distance_and_heading (dist heading : R) : R * R :=
  let dist := (dist / 1000)%R in
  let dy := (sin (PI / 2 - heading) * dist)%R in
  let dx := (cos (PI / 2 - heading) * dist)%R in
  (dy, dx).

Definition geo_distance (latitude1 longitude1 latitude2 longitude2 : R) : R :=
  let latitude1 := deg2rad latitude1 in
  let latitude2 := deg2rad latitude2 in
  let longitude1 := deg2rad longitude1 in
  let longitude2 := deg2rad longitude2 in
  let d_lon := (longitude2 - longitude1)%R in
  let d_lat := (latitude2 - latitude1)%R in
  let a := ((sin (d_lat / 2))² + cos latitude1 * cos latitude2 * (sin (d_lon / 2))²)%R in
  let c := (2 * asin (sqrt a))%R in
  (c * EARTH_RADIUS)%R.

(** The first half of [compare_position]: the distance between the
    position the CAM reports and the position predicted from the last
    known state of the track. *)
Definition position_deviation (self : t) (cam : CAM.t) : R :=
  let delta_t := (CAM.timestamp cam - py_last (timestamps self))%Z in
  let new_lat := (IZR (CAM.latitude cam) * 10e-8)%R in
  let new_long := (IZR (CAM.longitude cam) * 10e-8)%R in
  let old_lat := (IZR (py_last (latitude self)) * 10e-8)%R in
  let old_long := (IZR (py_last (longitude self)) * 10e-8)%R in
  let velocity := (IZR (py_last (speed self)) / 100)%R in
  let velocity_2 := (IZR (CAM.speed cam) / 100)%R in
  let t := (IZR delta_t / 1000)%R in
  let heading := deg2rad (IZR (py_last (heading self)) / 10) in
  let heading_2 := deg2rad (IZR (CAM.heading cam) / 10) in
  let dist := (velocity * t / 2)%R in
  let dist_2 := (velocity_2 * t / 2)%R in
  let '(dy_1, dx_1) := dy_dx_from_distance_and_heading dist heading in
  let '(dy_2, dx_2) := dy_dx_from_distance_and_heading dist_2 heading_2 in
  let dx := (dx_1 + dx_2)%R in
  let dy := (dy_1 + dy_2)%R in
  let estimated_longitude := compute_new_long old_long old_lat dx in
  let estimated_latitude := compute_new_lat old_lat dy in
  geo_distance new_lat new_long estimated_latitude estimated_longitude.

(** The wrapped heading difference of [compare_position]. *)
Definition heading_diff (self : t) (cam : CAM.t) : R :=
  let heading := deg2rad (IZR (py_last (heading self)) / 10) in
  let heading_2 := deg2rad (IZR (CAM.heading cam) / 10) in
  (py_mod ((heading_2 - heading) + PI / 2) PI - PI / 2)%R.

Definition compare_position_with (self : t) (cam : CAM.t)
    (max_pos_err max_heading_diff : R) : bool :=
  let position_deviation := position_deviation self cam in
  let heading_in_constraint :=
    if Rlt_bool position_deviation max_pos_err then
      let diff := heading_diff self cam in
      Rlt_bool (- max_heading_diff) diff && Rlt_bool diff max_heading_diff
    else false in
  Rlt_bool position_deviation max_pos_err && heading_in_constraint.

(** [compare_position] with its default tolerances. *)
Definition compare_position (self : t) (cam : CAM.t) : bool :=
  compare_position_with self cam POS_ERR_TOLERANCE HEADING_TOLERANCE.

(** The body of the [for] loop of [get_trace_duration], over the
    remaining indices; [break] returns the duration accumulated so far. *)
Fixpoint trace_duration_loop (original_positions traced_positions : list Position.t)
    (indices : list nat) (duration : Z) : Z :=
  match indices with
  | [] => duration
  | i :: rest =>
      if Position.neqb (nth i traced_positions Position.dummy)
                       (nth i original_positions Position.dummy)
      then duration
      else
        let old_timestamp := Position.timestamp (nth (i - 1) original_positions Position.dummy) in
        let new_timestamp := Position.timestamp (nth i original_positions Position.dummy) in
        trace_duration_loop original_positions traced_positions rest
          (duration + (new_timestamp - old_timestamp))
  end.

(** [range(1, n)]. *)
Definition range1 (n : nat) : list nat := seq 1 (n - 1).

Definition get_trace_duration (original_positions traced_positions : list Position.t) : Z :=
  trace_duration_loop original_positions traced_positions
    (range1 (Nat.min (List.length traced_positions) (List.length original_positions))) 0.

Definition update_parameters (self : t) (cam : CAM.t) : t :=
  {| pseudo_id := pseudo_id self ++ [CAM.pseudo_id cam];
     static_id := static_id self;
     width := width self;
     length := length self;
     longitude := longitude self ++ [CAM.longitude cam];
     latitude := latitude self ++ [CAM.latitude cam];
     speed := speed self ++ [CAM.speed cam];
     heading := heading self ++ [CAM.heading cam];
     timestamps := timestamps self ++ [CAM.timestamp cam];
     duration := duration self + (CAM.timestamp cam - py_last (timestamps self)) |}.

Definition get_positions (self : t) : list Position.t :=
  zip_positions (longitude self) (latitude self) (timestamps self).

(** The lists of a track built by the program are never empty. *)
Definition wf (self : t) : Prop :=
  pseudo_id self <> [] /\ longitude self <> [] /\ latitude self <> [] /\
  speed self <> [] /\ heading self <> [] /\ timestamps self <> [].
End VehicleDynamicId.

Module VehicleConstantId.
Record t : Type := mk {
  static_id : Z;
  longitude : list Z;
  latitude : list Z;
  timestamps : list Z;
  duration : Z
}.

Definition init (static_id longitude latitude timestamp : Z) : t :=
  mk static_id [longitude] [latitude] [timestamp] 0.

(** Returns the flag and the (possibly updated) object. *)
Definition try_update_parameters (self : t) (id longitude' latitude' timestamp : Z)
    : bool * t :=
  if negb (id =? static_id self)%Z then (false, self)
  else
    (true,
     {| static_id := static_id self;
        longitude := longitude self ++ [longitude'];
        latitude := latitude self ++ [latitude'];
        timestamps := timestamps self ++ [timestamp];
        duration := duration self + (timestamp - py_last (timestamps self)) |}).

Definition get_positions (self : t) : list Position.t :=
  zip_positions (longitude self) (latitude self) (timestamps self).
End VehicleConstantId.

(** The [for ... break] loop of [match_static_vehicle]: the flag
    [is_known_veh] and the list with the matching vehicle updated. *)
Fixpoint match_static_loop (cam : CAM.t) (static_vehicles : list VehicleConstantId.t)
    : bool * list VehicleConstantId.t :=
  match static_vehicles with
  | [] => (false, [])
  | vehicle_constant :: rest =>
      let '(is_known_veh, vehicle_constant') :=
        VehicleConstantId.try_update_parameters vehicle_constant
          (CAM.static_id cam) (CAM.longitude cam) (CAM.latitude cam) (CAM.timestamp cam) in
      if is_known_veh then (true, vehicle_constant' :: rest)
      else
        let '(known, rest') := match_static_loop cam rest in
        (known, vehicle_constant' :: rest')
  end.

(** Returns the list after the in-place updates and the new vehicle, if
    any. *)
Definition match_static_vehicle (cam : CAM.t) (static_vehicles : list VehicleConstantId.t)
    : list VehicleConstantId.t * option VehicleConstantId.t :=
  let '(is_known_veh, static_vehicles') := match_static_loop cam static_vehicles in
  if is_known_veh then (static_vehicles', None)
  else (static_vehicles',
        Some (VehicleConstantId.init (CAM.static_id cam) (CAM.longitude cam)
                (CAM.latitude cam) (CAM.timestamp cam))).

(** The test one iteration of the loop of [match_dynamic_vehicle] applies
    to one track. *)
Definition dynamic_is_known (cam : CAM.t) (vehicle_dynamic : VehicleDynamicId.t) : bool :=
  let is_known_veh := VehicleDynamicId.compare_id vehicle_dynamic (CAM.pseudo_id cam) in
  if negb is_known_veh
     && VehicleDynamicId.compare_parameters vehicle_dynamic (CAM.length cam) (CAM.width cam)
  then VehicleDynamicId.compare_position vehicle_dynamic cam
  else is_known_veh.

Fixpoint match_dynamic_loop (cam : CAM.t) (dynamic_vehicles : list VehicleDynamicId.t)
    : bool * list VehicleDynamicId.t :=
  match dynamic_vehicles with
  | [] => (false, [])
  | vehicle_dynamic :: rest =>
      if dynamic_is_known cam vehicle_dynamic
      then (true, VehicleDynamicId.update_parameters vehicle_dynamic cam :: rest)
      else
        let '(known, rest') := match_dynamic_loop cam rest in
        (known, vehicle_dynamic :: rest')
  end.

Definition match_dynamic_vehicle (cam : CAM.t) (dynamic_vehicles : list VehicleDynamicId.t)
    : list VehicleDynamicId.t * option VehicleDynamicId.t :=
  let '(is_known_veh, dynamic_vehicles') := match_dynamic_loop cam dynamic_vehicles in
  if is_known_veh then (dynamic_vehicles', None)
  else (dynamic_vehicles', Some (VehicleDynamicId.init cam)).

(** [vehicles and cam.static_id not in vehicles]. *)
Definition excluded (vehicles : option (list Z)) (cam : CAM.t) : bool :=
  match vehicles with
  | None | Some [] => false
  | Some vs => negb (bool_decide (CAM.static_id cam ∈ vs))
  end.

Definition build_routes_step (vehicles : option (list Z))
    (st : list VehicleConstantId.t * list VehicleDynamicId.t) (cam : CAM.t)
    : list VehicleConstantId.t * list VehicleDynamicId.t :=
  let '(static_vehicles, dynamic_vehicles) := st in
  if excluded vehicles cam then st
  else
    let '(static_vehicles, new_static_veh) := match_static_vehicle cam static_vehicles in
    let static_vehicles :=
      match new_static_veh with
      | Some v => static_vehicles ++ [v]
      | None => static_vehicles
      end in
    let '(dynamic_vehicles, new_dynamic_veh) := match_dynamic_vehicle cam dynamic_vehicles in
    let dynamic_vehicles :=
      match new_dynamic_veh with
      | Some v => dynamic_vehicles ++ [v]
      | None => dynamic_vehicles
      end in
    (static_vehicles, dynamic_vehicles).

Definition build_routes (cams : list CAM.t) (vehicles : option (list Z))
    : list VehicleConstantId.t * list VehicleDynamicId.t :=
  foldl (build_routes_step vehicles) ([], []) cams.

(** The inner loop of [get_vehicle_traces]: the reconstructed trace parts of
    one original trace. *)
Fixpoint reconstructed_traces_of (original_trace : VehicleConstantId.t)
    (dynamic_vehicles : list VehicleDynamicId.t) : list ReconstructedTrace.t :=
  match dynamic_vehicles with
  | [] => []
  | target_trace :: rest =>
      if negb (VehicleDynamicId.static_id target_trace =? VehicleConstantId.static_id original_trace)%Z
         || (distinct_count (VehicleDynamicId.timestamps target_trace) <=? 1)%nat
      then reconstructed_traces_of original_trace rest
      else
        let tracking_positions := VehicleDynamicId.get_positions target_trace in
        let original_positions := VehicleConstantId.get_positions original_trace in
        let trace_duration :=
          VehicleDynamicId.get_trace_duration original_positions tracking_positions in
        let trace_part :=
          {| ReconstructedTrace.static_id := VehicleConstantId.static_id original_trace;
             ReconstructedTrace.pseudo_ids := VehicleDynamicId.pseudo_id target_trace;
             ReconstructedTrace.positions := tracking_positions;
             ReconstructedTrace.duration := trace_duration |} in
        trace_part :: reconstructed_traces_of original_trace rest
  end.

(** The outer loop of [get_vehicle_traces]. *)
Fixpoint matched_vehicles_of (static_vehicles : list VehicleConstantId.t)
    (dynamic_vehicles : list VehicleDynamicId.t) : list VehicleTrace.t :=
  match static_vehicles with
  | [] => []
  | original_trace :: rest =>
      if negb (1 <? distinct_count (VehicleConstantId.timestamps original_trace))%nat
      then matched_vehicles_of rest dynamic_vehicles
      else
        let reconstructed_traces := reconstructed_traces_of original_trace dynamic_vehicles in
        match reconstructed_traces with
        | [] => matched_vehicles_of rest dynamic_vehicles
        | _ =>
            let orig_trace :=
              {| OriginalTrace.static_id := VehicleConstantId.static_id original_trace;
                 OriginalTrace.positions := VehicleConstantId.get_positions original_trace;
                 OriginalTrace.duration := VehicleConstantId.duration original_trace |} in
            {| VehicleTrace.static_id := VehicleConstantId.static_id original_trace;
               VehicleTrace.original_trace := orig_trace;
               VehicleTrace.reconstructed_traces := reconstructed_traces |}
            :: matched_vehicles_of rest dynamic_vehicles
        end
  end.

Definition get_vehicle_traces (cams : list CAM.t) (vehicles : option (list Z))
    (max_vehicles : option Z) : list VehicleTrace.t :=
  let '(static_vehicles, dynamic_vehicles) := build_routes cams vehicles in
  matched_vehicles_of (py_slice_to max_vehicles static_vehicles) dynamic_vehicles.

(** ** [metrics/static_attacker.py] *)

(** What [write_success_rate] writes to [result_<id>.txt] (before the
    numbers are formatted) and what it returns. *)
Record success_report : Type := mk_success_report {
  written_original_duration : Z;
  written_max_tracking_duration : Z;
  written_tracking_success_percent : R;
  returned_tracking_success : R
}.

(** [None] stands for an exception: [IndexError] when there is no
    reconstructed trace, [ZeroDivisionError] when the original duration is
    0. *)
Definition write_success_rate (vehicle_trace : VehicleTrace.t) : option success_report :=
  match VehicleTrace.reconstructed_traces vehicle_trace with
  | [] => None
  | first :: _ =>
      let max_tracking_duration := ReconstructedTrace.duration first in
      let original_duration :=
        OriginalTrace.duration (VehicleTrace.original_trace vehicle_trace) in
      if (original_duration =? 0)%Z then None
      else
        let tracking_success := (IZR max_tracking_duration / IZR original_duration)%R in
        Some {| written_original_duration := original_duration;
                written_max_tracking_duration := max_tracking_duration;
                written_tracking_success_percent := (tracking_success * 100)%R;
                returned_tracking_success := tracking_success |}
  end.

(** ** [metrics/utilities.py]: [remove_duplicates_in_csv] *)

(** The file is the list of its lines; the result is the list of the lines
    written to the output file. *)
Fixpoint dedup_loop (in_file : list string) (seen : gset string) : list string :=
  match in_file with
  | [] => []
  | line :: rest =>
      if bool_decide (line ∈ seen) then dedup_loop rest seen
      else line :: dedup_loop rest (seen ∪ {[line]})
  end.

Definition remove_duplicates_in_csv (in_file : list string) : list string :=
  dedup_loop in_file ∅.

(** ** [metrics/degree_of_anonymity.py] *)

(** [lst_of_to_be_purged_keys]. *)
Definition lst_of_to_be_purged_keys (anonymity_set : gmap Z (Z * Z))
    (now cam_anonymity_set_purge_threshold : Z) : list Z :=
  omap (fun '(pseudo_id, (_, time_when_last_msg_received)) =>
          if (cam_anonymity_set_purge_threshold <? now - time_when_last_msg_received)%Z
          then Some pseudo_id else None)
       (map_to_list anonymity_set).

Fixpoint anonymity_loop (cams : list CAM.t) (cam_anonymity_set_purge_threshold end_timestamp : Z)
    (anonymity_set : gmap Z (Z * Z)) (last_purge_timestamp : Z) : gmap Z (Z * Z) :=
  match cams with
  | [] => anonymity_set
  | cam :: rest =>
      if negb (end_timestamp =? 0)%Z && (end_timestamp <=? CAM.timestamp cam)%Z
      then anonymity_set
      else
        let anonymity_set :=
          match anonymity_set !! CAM.pseudo_id cam with
          | Some (n, _) => <[CAM.pseudo_id cam := ((n + 1)%Z, CAM.timestamp cam)]> anonymity_set
          | None => <[CAM.pseudo_id cam := (1%Z, CAM.timestamp cam)]> anonymity_set
          end in
        if (last_purge_timestamp =? CAM.timestamp cam)%Z
        then anonymity_loop rest cam_anonymity_set_purge_threshold end_timestamp
               anonymity_set last_purge_timestamp
        else
          let keys := lst_of_to_be_purged_keys anonymity_set (CAM.timestamp cam)
                        cam_anonymity_set_purge_threshold in
          let anonymity_set := foldl (fun m pseudo_id => delete pseudo_id m) anonymity_set keys in
          anonymity_loop rest cam_anonymity_set_purge_threshold end_timestamp
            anonymity_set (CAM.timestamp cam)
  end.

Definition calculate_anonymity_set (cams : list CAM.t)
    (cam_anonymity_set_purge_threshold end_timestamp : Z) : gmap Z (Z * Z) :=
  anonymity_loop cams cam_anonymity_set_purge_threshold end_timestamp ∅ 0.

(** The third loop of [calculate_entropy_and_eass]. *)
Fixpoint entropy_loop (probs : list R) (entropy_tmp : R) : option R :=
  match probs with
  | [] => Some entropy_tmp
  | prob :: rest =>
      lg ← math_log2 prob;
      entropy_loop rest (entropy_tmp + prob * lg)%R
  end.

(** In exact arithmetic; [Binary64.calculate_entropy_and_eass] is the same
    function in binary64. *)
Definition calculate_entropy_and_eass (anonymity_set : gmap Z (Z * Z)) : option R :=
  let n_total_cams :=
    foldl (fun acc '(n_pseudo_cams, _) => (acc + IZR n_pseudo_cams)%R) 0%R
          (map_to_list anonymity_set).*2 in
  pseudo_prob_dict ←
    mapM (fun '(key, (n_pseudo_cams, _)) =>
            prob ← py_truediv (IZR n_pseudo_cams) n_total_cams; Some (key, prob))
         (map_to_list anonymity_set);
  entropy_tmp ← entropy_loop (pseudo_prob_dict : list (Z * R)).*2 0%R;
  Some (- entropy_tmp)%R.

(** In exact arithmetic; [Binary64.calculate_degree_of_anonymity] is the
    same function in binary64. *)
Definition calculate_degree_of_anonymity (anonymity_set : gmap Z (Z * Z)) (eass : R)
    : option R :=
  if (size anonymity_set <=? 1)%nat then Some (-1)%R
  else
    max_possible_entropy ← math_log2 (INR (size anonymity_set));
    py_truediv eass max_possible_entropy.

(** ** [metrics/pseudonym_consumption.py] *)

(** The first loop of [calculate_pseudonym_consumption]. *)
Definition pseudonyms_per_id (cams : list CAM.t) : gmap Z (gset Z) :=
  foldl (fun (m : gmap Z (gset Z)) cam =>
           let pseudonyms := default ∅ (m !! CAM.static_id cam) in
           <[CAM.static_id cam := pseudonyms ∪ {[CAM.pseudo_id cam]}]> m)
        ∅ cams.

(** Every entry divides by the same [sim_time], so the comprehension raises
    exactly when there is an entry and [sim_time] is zero. *)
Definition calculate_pseudonym_consumption (cams : list CAM.t) (sim_time : R)
    : option (gmap Z R) :=
  let per_id := pseudonyms_per_id cams in
  if Req_dec_T sim_time 0 then
    if decide (per_id = ∅) then Some ∅ else None
  else Some ((fun pseudonyms : gset Z => (INR (size pseudonyms) / sim_time)%R) <$> per_id).

(** [min], [max] and the functions of the [statistics] module. *)
Definition py_min (data : list R) : option R :=
  match data with
  | [] => None
  | x :: xs => Some (foldl Rmin x xs)
  end.

Definition py_max (data : list R) : option R :=
  match data with
  | [] => None
  | x :: xs => Some (foldl Rmax x xs)
  end.

Fixpoint R_insert (x : R) (l : list R) : list R :=
  match l with
  | [] => [x]
  | y :: l' => if Rle_dec x y then x :: l else y :: R_insert x l'
  end.

Definition R_sorted (data : list R) : list R := foldr R_insert [] data.

Definition R_sum (data : list R) : R := foldl Rplus 0%R data.

Definition median (data : list R) : option R :=
  let data := R_sorted data in
  let n := List.length data in
  if (n =? 0)%nat then None
  else if (n mod 2 =? 1)%nat then Some (nth (n / 2) data 0%R)
  else
    let i := (n / 2)%nat in
    Some ((nth (i - 1) data 0 + nth i data 0) / 2)%R.

Definition mean (data : list R) : option R :=
  if (List.length data <? 1)%nat then None
  else Some (R_sum data / INR (List.length data))%R.

Definition stdev (data : list R) : option R :=
  if (List.length data <? 2)%nat then None
  else
    let xbar := (R_sum data / INR (List.length data))%R in
    let ss := R_sum (map (fun x => (x - xbar)²%R) data) in
    Some (sqrt (ss / INR (List.length data - 1))).

(** The five numbers [write_stats] writes to the statistics file. *)
Record consumption_stats : Type := mk_consumption_stats {
  min_pseudo_cons : R;
  max_pseudo_cons : R;
  med_pseudo_cons : R;
  mean_pseudo_cons : R;
  std_pseudo_cons : R
}.

(** The first five lines of [write_stats]. *)
Definition calculate_characteristics (values : list R) : option consumption_stats :=
  min_pseudo_cons ← py_min values;
  max_pseudo_cons ← py_max values;
  med_pseudo_cons ← median values;
  mean_pseudo_cons ← mean values;
  std_pseudo_cons ← stdev values;
  Some (mk_consumption_stats min_pseudo_cons max_pseudo_cons med_pseudo_cons
          mean_pseudo_cons std_pseudo_cons).

(** The five [print] calls: each evaluates [1 / x] for its statistic. *)
Definition print_characteristics (s : consumption_stats) : option unit :=
  _ ← py_truediv 1 (min_pseudo_cons s);
  _ ← py_truediv 1 (max_pseudo_cons s);
  _ ← py_truediv 1 (med_pseudo_cons s);
  _ ← py_truediv 1 (mean_pseudo_cons s);
  _ ← py_truediv 1 (std_pseudo_cons s);
  Some tt.

(** [None] stands for an exception; [Some s] for the statistics written to
    the file. *)
Definition write_stats (pseudonym_consumption : gmap Z R) : option consumption_stats :=
  s ← calculate_characteristics (map_to_list pseudonym_consumption).*2;
  _ ← print_characteristics s;
  Some s.

(** ** [metrics/static_attacker.py]: the overall tracking success *)

(** The number [evaluate] computes at its line 63, from the values the
    calls of [evaluate_trace] return:
    [(sum(tracking_successes) / len(traces)) * 100], where
    [evaluate_trace] returns what [write_success_rate] returns.  The plots
    and maps [evaluate] and [evaluate_trace] draw in between are not
    modelled; the number is what the expression yields when the run gets to
    it.  [None] stands for an exception of [write_success_rate] or of the
    division. *)
Definition tracking_success_percent (traces : list VehicleTrace.t) : option R :=
  tracking_successes ←
    mapM (fun trace => returned_tracking_success <$> write_success_rate trace) traces;
  mean_success ← py_truediv (R_sum tracking_successes) (INR (List.length traces));
  Some (mean_success * 100)%R.

(** ** [metrics/types.py]: GPS coordinates *)

(** [Position.microdeg_to_dd]: [value / 1E7]. *)
Definition microdeg_to_dd (value : Z) : R := (IZR value / 10000000)%R.

(** [Trace.get_longitudes_as_gps] and [Trace.get_latitudes_as_gps], on the
    positions of a trace. *)
Definition get_longitudes_as_gps (positions : list Position.t) : list R :=
  map (fun position => microdeg_to_dd (Position.longitude position)) positions.

Definition get_latitudes_as_gps (positions : list Position.t) : list R :=
  map (fun position => microdeg_to_dd (Position.latitude position)) positions.

(** ** [metrics/utilities.py]: [get_pseudonym_changes] *)

(** [l.index(x)]: the first index of [x]; [None] stands for [ValueError]. *)
Fixpoint py_index (l : list Z) (x : Z) : option nat :=
  match l with
  | [] => None
  | y :: l' => if (y =? x)%Z then Some 0%nat else S <$> py_index l' x
  end.

(** [d.setdefault(key, value)], for its effect on [d]. *)
Definition setdefault {V} (d : gmap Z V) (key : Z) (value : V) : gmap Z V :=
  match d !! key with
  | Some _ => d
  | None => <[key := value]> d
  end.

(** One iteration of the inner loop; the two subscripts are evaluated (and
    may raise [IndexError]) before [setdefault] is called. *)
Definition pseudonym_changes_step (part : ReconstructedTrace.t)
    (state : option (gmap Z (R * R))) (pseudo_id : Z) : option (gmap Z (R * R)) :=
  pseudonym_changes ← state;
  idx ← py_index (ReconstructedTrace.pseudo_ids part) pseudo_id;
  long ← get_longitudes_as_gps (ReconstructedTrace.positions part) !! idx;
  lat ← get_latitudes_as_gps (ReconstructedTrace.positions part) !! idx;
  Some (setdefault pseudonym_changes pseudo_id (long, lat)).

(** Python does not fix the order in which [for pseudo_id in pseudo_ids]
    visits the elements of the set; [set_order] is that order. *)
Definition get_pseudonym_changes (set_order : gset Z → list Z)
    (vehicle_trace : VehicleTrace.t) : option (gmap Z (R * R)) :=
  foldl (fun state part =>
           foldl (pseudonym_changes_step part) state
             (set_order (list_to_set (ReconstructedTrace.pseudo_ids part))))
    (Some ∅) (VehicleTrace.reconstructed_traces vehicle_trace).

(** ** [metrics/gps_visualizer.py] *)

(** [int(x)] on a float: truncation towards zero. *)
Definition py_int (x : R) : Z :=
  if Rle_dec 0 x then Int_part x else (- Int_part (- x))%Z.

Module GPSVisualizer.
(** In exact arithmetic.  Rounding can move a coordinate at the upper edge
    of the map section by one pixel: the program puts the north-east corner
    of an image of 107 x 107 pixels at [(106, 0)]. *)
Definition scale_to_img (latitude longitude : R) (image_width image_height : Z) : Z * Z :=
  let y := ((latitude - 48.71143) * (IZR image_height - 0) / (48.78043 - 48.71143) + 0)%R in
  let x := ((longitude - 9.27843) * (IZR image_width - 0) / (9.43005 - 9.27843) + 0)%R in
  (py_int x, (image_height - py_int y)%Z).
End GPSVisualizer.

(** ** [metrics/degree_of_anonymity.py]: [plot_cams_over_time] *)

(** [l[i] = v]: a negative index counts from the end; [None] stands for
    [IndexError]. *)
Definition py_setitem {A} (l : list A) (i : Z) (v : A) : option (list A) :=
  let n := Z.of_nat (List.length l) in
  if (0 <=? i)%Z && (i <? n)%Z then Some (<[Z.to_nat i := v]> l)
  else if (i <? 0)%Z && (- n <=? i)%Z then Some (<[Z.to_nat (n + i) := v]> l)
  else None.

(** The loop over [enumerate(cams)]. *)
Fixpoint count_loop (cams : list CAM.t) (cam_msg_count : Z) (lst : list Z)
    : option (list Z) :=
  match cams with
  | [] => Some lst
  | cam :: rest =>
      lst' ← py_setitem lst (CAM.timestamp cam) (cam_msg_count + 1)%Z;
      count_loop rest (cam_msg_count + 1)%Z lst'
  end.

(** One iteration of the loop over [range(1, len(lst))]. *)
Definition fill_step (lst : list Z) (i : nat) : list Z :=
  match lst !! i, lst !! (i - 1)%nat with
  | Some 0%Z, Some previous => <[i := previous]> lst
  | _, _ => lst
  end.

(** The values [plot_cams_over_time] plots over [range(max_timestamp + 1)];
    [None] stands for the [IndexError] of [cams[-1]] on an empty list or of
    an assignment outside the list. *)
Definition plot_cams_over_time (cams : list CAM.t) : option (list Z) :=
  match cams with
  | [] => None
  | first :: others =>
      let max_timestamp := CAM.timestamp (List.last others first) in
      let lst := replicate (Z.to_nat (max_timestamp + 1)) 0%Z in
      lst ← count_loop cams 0 lst;
      Some (foldl fill_step lst (seq 1 (List.length lst - 1)))
  end.

(** ** [metrics/degree_of_anonymity.py] in binary64 *)

(** [calculate_entropy_and_eass] and [calculate_degree_of_anonymity] once
    more, with Python's [float] as IEEE 754 binary64 (the kernel's primitive
    floats, round to nearest even) instead of a real number.  Rounding makes
    the sums depend on the order of the dictionary, so the anonymity set is
    given by [anonymity_set.values()], its values in iteration order. *)
Module Binary64.
Import PrimFloat.

(** [float(n)] for an [int]: the nearest float; [None] stands for
    [OverflowError]. *)
Definition float_of_int (n : Z) : option float :=
  let f := FloatOps.SF2Prim
             (SpecFloat.binary_normalize FloatOps.prec FloatOps.emax n 0 false) in
  if is_infinity f then None else Some f.

(** [a / b]: raises [ZeroDivisionError] on a zero divisor. *)
Definition py_truediv (a b : float) : option float :=
  if (b =? 0)%float then None else Some (a / b)%float.

Section Libm.
(** [math.log] calls [log] of the C library, which is not part of the
    repository. *)
Variable log : float → float.

(** [math.log(x, 2)] is [log(x) / log(2)]; it raises [ValueError] unless
    [0 < x] or [x] is a NaN. *)
Definition math_log2 (x : float) : option float :=
  if (0 <? x)%float || is_nan x then py_truediv (log x) (log 2) else None.

(** The first loop: [n_total_cams += n_pseudo_cams], from [0.0]. *)
Fixpoint total_loop (values : list (Z * Z)) (n_total_cams : float) : option float :=
  match values with
  | [] => Some n_total_cams
  | (n_pseudo_cams, _) :: rest =>
      n ← float_of_int n_pseudo_cams;
      total_loop rest (n_total_cams + n)%float
  end.

(** The third loop: [entropy_tmp += prob * math.log(prob, 2)], from [0.0]. *)
Fixpoint entropy_loop (probs : list float) (entropy_tmp : float) : option float :=
  match probs with
  | [] => Some entropy_tmp
  | prob :: rest =>
      lg ← math_log2 prob;
      entropy_loop rest (entropy_tmp + prob * lg)%float
  end.

Definition calculate_entropy_and_eass (values : list (Z * Z)) : option float :=
  n_total_cams ← total_loop values 0%float;
  probs ← mapM (fun '(n_pseudo_cams, _) =>
                  n ← float_of_int n_pseudo_cams; py_truediv n n_total_cams) values;
  entropy_tmp ← entropy_loop probs 0%float;
  Some (- entropy_tmp)%float.

Definition calculate_degree_of_anonymity (values : list (Z * Z)) (eass : float)
    : option float :=
  if (List.length values <=? 1)%nat then Some (-1)%float
  else
    n ← float_of_int (Z.of_nat (List.length values));
    max_possible_entropy ← math_log2 n;
    py_truediv eass max_possible_entropy.
End Libm.
End Binary64.

(* ===================================================================== *)
(** * Part II: the specification's notions *)
(* ===================================================================== *)

(** The lines of [in_file] that do not occur earlier in [in_file], in the
    order of [in_file]. *)
Definition first_occurrences (in_file : list string) : list string :=
  omap (fun i => line ← in_file !! i;
                 if bool_decide (line ∈ take i in_file) then None else Some line)
       (seq 0 (List.length in_file)).

(** Walking two position sequences in step: the ground-truth deltas are
    accumulated as long as the positions at the current index agree;
    [previous] is the ground-truth timestamp of the index before. *)
Fixpoint walk_positions (previous : Z) (original traced : list Position.t) : Z :=
  match original, traced with
  | o :: original', t :: traced' =>
      if Position.eqb t o
      then (Position.timestamp o - previous) + walk_positions (Position.timestamp o) original' traced'
      else 0
  | _, _ => 0
  end.

(** The walk that starts at the first position of both sequences: the first
    index at which the positions differ, index 0 included, ends it. *)
Definition fragment_duration_from_start (original traced : list Position.t) : Z :=
  match original, traced with
  | o :: original', t :: traced' =>
      if Position.eqb t o then walk_positions (Position.timestamp o) original' traced' else 0
  | _, _ => 0
  end.

(** The walk that starts at index 1 and never looks at the positions of
    index 0. *)
Definition fragment_duration_after_first (original traced : list Position.t) : Z :=
  match original, traced with
  | o :: original', _ :: traced' => walk_positions (Position.timestamp o) original' traced'
  | _, _ => 0
  end.

(** The sum of the differences of consecutive timestamps. *)
Fixpoint sum_of_deltas (timestamps : list Z) : Z :=
  match timestamps with
  | previous :: (new :: _) as rest => (new - previous) + sum_of_deltas rest
  | _ => 0
  end.

(** Largest minus smallest timestamp. *)
Definition wall_clock_span (timestamps : list Z) : Z :=
  match timestamps with
  | [] => 0
  | t :: rest => foldl Z.max t rest - foldl Z.min t rest
  end.

(** One observation appended to a ground-truth track. *)
Definition append_original (v : VehicleConstantId.t) (obs : Z * Z * Z) : VehicleConstantId.t :=
  let '(longitude, latitude, timestamp) := obs in
  snd (VehicleConstantId.try_update_parameters v (VehicleConstantId.static_id v)
         longitude latitude timestamp).


(** The continuity test reduced to its position condition. *)
Definition position_only_test (self : VehicleDynamicId.t) (cam : CAM.t) : bool :=
  Rlt_bool (VehicleDynamicId.position_deviation self cam) 0.003.

(** [log2] of the size of the anonymity set. *)
Definition log2_size (anonymity_set : gmap Z (Z * Z)) : R :=
  (ln (INR (size anonymity_set)) / ln 2)%R.

(** The sum of a list of reals, and the Shannon entropy (base 2) of a list
    of probabilities. *)
Definition sum_list_R (l : list R) : R := foldr Rplus 0%R l.

Definition shannon_entropy (probs : list R) : R :=
  (- sum_list_R (map (fun p => p * (ln p / ln 2)) probs))%R.

(** The CAM counts of an anonymity set, in iteration order. *)
Definition cam_counts (anonymity_set : gmap Z (Z * Z)) : list R :=
  map (fun entry : Z * (Z * Z) => IZR entry.2.1) (map_to_list anonymity_set).

(** The CAMs [build_routes] looks at: those the allow-list does not
    exclude. *)
Definition processed_cams (vehicles : option (list Z)) (cams : list CAM.t) : list CAM.t :=
  filter (fun cam => excluded vehicles cam = false) cams.

(** The distinct elements of a list, each at the place of its first
    occurrence. *)
Definition in_order_of_first_appearance (ids : list Z) : list Z :=
  reverse (remove_dups (reverse ids)).

(** The CAMs of one vehicle, and the ground-truth track they make up. *)
Definition cams_of_vehicle (static_id : Z) (cams : list CAM.t) : list CAM.t :=
  filter (fun cam => CAM.static_id cam = static_id) cams.

Definition ground_truth_track (static_id : Z) (cams : list CAM.t) : VehicleConstantId.t :=
  let own := cams_of_vehicle static_id cams in
  {| VehicleConstantId.static_id := static_id;
     VehicleConstantId.longitude := map CAM.longitude own;
     VehicleConstantId.latitude := map CAM.latitude own;
     VehicleConstantId.timestamps := map CAM.timestamp own;
     VehicleConstantId.duration := sum_of_deltas (map CAM.timestamp own) |}.

(** The candidate track a non-empty group of CAMs makes up: created from
    the first, extended by the others in turn. *)
Definition candidate_track_of (first : CAM.t) (others : list CAM.t) : VehicleDynamicId.t :=
  foldl VehicleDynamicId.update_parameters (VehicleDynamicId.init first) others.

(** A candidate track [w] continues a candidate track [v]: same vehicle
    attributes, and every list of [v] is a prefix of the list of [w]. *)
Definition track_continues (v w : VehicleDynamicId.t) : Prop :=
  VehicleDynamicId.static_id w = VehicleDynamicId.static_id v
  ∧ VehicleDynamicId.width w = VehicleDynamicId.width v
  ∧ VehicleDynamicId.length w = VehicleDynamicId.length v
  ∧ VehicleDynamicId.pseudo_id v `prefix_of` VehicleDynamicId.pseudo_id w
  ∧ VehicleDynamicId.longitude v `prefix_of` VehicleDynamicId.longitude w
  ∧ VehicleDynamicId.latitude v `prefix_of` VehicleDynamicId.latitude w
  ∧ VehicleDynamicId.speed v `prefix_of` VehicleDynamicId.speed w
  ∧ VehicleDynamicId.heading v `prefix_of` VehicleDynamicId.heading w
  ∧ VehicleDynamicId.timestamps v `prefix_of` VehicleDynamicId.timestamps w.

(** The position a CAM reports. *)
Definition position_of_cam (cam : CAM.t) : Position.t :=
  Position.mk (CAM.longitude cam) (CAM.latitude cam) (CAM.timestamp cam).

(** The CAMs sent under one pseudonym. *)
Definition cams_with_pseudonym (pseudo_id : Z) (cams : list CAM.t) : list CAM.t :=
  filter (fun cam => CAM.pseudo_id cam = pseudo_id) cams.

(** Every entry of the anonymity set comes from the given CAMs: its count
    is at least 1 and at most the number of CAMs sent under its pseudonym,
    and its time is the timestamp of one of them. *)
Definition entries_from (anonymity_set : gmap Z (Z * Z)) (cams : list CAM.t) : Prop :=
  ∀ pseudo_id n t,
    anonymity_set !! pseudo_id = Some (n, t) →
    (1 <= n <= Z.of_nat (List.length (cams_with_pseudonym pseudo_id cams)))%Z
    ∧ ∃ cam, cam ∈ cams ∧ CAM.pseudo_id cam = pseudo_id ∧ CAM.timestamp cam = t.

(** The CAMs before the first one whose timestamp reaches [end_timestamp]. *)
Fixpoint cams_before (end_timestamp : Z) (cams : list CAM.t) : list CAM.t :=
  match cams with
  | [] => []
  | cam :: rest =>
      if (end_timestamp <=? CAM.timestamp cam)%Z then []
      else cam :: cams_before end_timestamp rest
  end.

(** The entry the CAMs sent under one pseudonym amount to when none is
    purged: how many they are and the timestamp of the last one. *)
Definition unpurged_entry (pseudo_id : Z) (cams : list CAM.t) : option (Z * Z) :=
  match cams_with_pseudonym pseudo_id cams with
  | [] => None
  | own => Some (Z.of_nat (List.length own), py_last (map CAM.timestamp own))
  end.

(** The number of CAMs received up to time [t]. *)
Definition received_until (t : Z) (cams : list CAM.t) : nat :=
  List.length (filter (fun cam => (CAM.timestamp cam <= t)%Z) cams).

(** The pseudonyms of the parts of a vehicle trace, each paired with the
    position recorded with it, part after part. *)
Definition pseudonym_uses (parts : list ReconstructedTrace.t) : list (Z * Position.t) :=
  concat (map (fun part => zip (ReconstructedTrace.pseudo_ids part)
                             (ReconstructedTrace.positions part)) parts).

(** The GPS coordinates (longitude, latitude) of where a pseudonym is used
    first. *)
Definition first_use (pseudo_id : Z) (uses : list (Z * Position.t)) : option (R * R) :=
  (fun use => (microdeg_to_dd (Position.longitude use.2.2),
               microdeg_to_dd (Position.latitude use.2.2)))
    <$> list_find (fun use => use.1 = pseudo_id) uses.

(** What the list of [plot_cams_over_time] holds at index [i] after the
    first loop has gone through [cams]. *)
Definition counted (cams : list CAM.t) (i : nat) : Z :=
  if decide (Z.of_nat i ∈ map CAM.timestamp cams)
  then Z.of_nat (received_until (Z.of_nat i) cams) else 0.

(* ===================================================================== *)
(** * Example inputs *)
(* ===================================================================== *)

Module Examples.
(** A ground-truth sequence and a candidate sequence that agree on their
    first two positions. *)
Definition original_agreeing : list Position.t :=
  [Position.mk 10 20 0; Position.mk 11 21 100; Position.mk 12 22 250].
Definition traced_agreeing : list Position.t :=
  [Position.mk 10 20 0; Position.mk 11 21 100; Position.mk 0 0 250].

(** A candidate sequence that starts somewhere else and then coincides
    with the ground truth. *)
Definition original_late : list Position.t :=
  [Position.mk 0 0 0; Position.mk 1 1 100].
Definition traced_late : list Position.t :=
  [Position.mk 5 5 0; Position.mk 1 1 100].

(** A CAM of vehicle 1 standing at the origin, with a given timestamp
    and pseudonym. *)
Definition standing_cam (timestamp pseudo_id : Z) : CAM.t :=
  CAM.mk timestamp 1 pseudo_id 0 0 180 450 0 0.

(** Timestamps 0, 100, 50, 50 (out of order, with a repetition) on a
    ground-truth track and on a candidate track. *)
Definition unordered_original : VehicleConstantId.t :=
  foldl append_original (VehicleConstantId.init 1 0 0 0)
    [(0, 0, 100); (0, 0, 50); (0, 0, 50)]%Z.
Definition unordered_candidate : VehicleDynamicId.t :=
  foldl VehicleDynamicId.update_parameters (VehicleDynamicId.init (standing_cam 0 7))
    [standing_cam 100 7; standing_cam 50 7; standing_cam 50 7].

(** Timestamps 0, 100, 100, 200 (in order, with a repetition). *)
Definition repeated_appends : list (Z * Z * Z) :=
  [(0, 0, 100); (0, 0, 100); (0, 0, 200)]%Z.
Definition repeated_cams : list CAM.t :=
  [standing_cam 100 7; standing_cam 100 7; standing_cam 200 7].

(** A standing vehicle (speed 0, heading 0, 1.80 m by 4.50 m) on the
    meridian 9.3201122 E, at a given latitude in units of 1e-7 degree. *)
Definition parked_cam (timestamp static_id pseudo_id latitude : Z) : CAM.t :=
  CAM.mk timestamp static_id pseudo_id 93201122 latitude 180 450 0 0.

(** Vehicle 1 stands at latitude 48.7433425 N under pseudonym 7.  Vehicle
    2, of the same shape, first reports under pseudonym 9 from about 11 m
    further north, then parks about 2.2 m north of vehicle 1. *)
Definition first_of_vehicle_1 : CAM.t := parked_cam 0 1 7 487433425.
Definition first_of_vehicle_2 : CAM.t := parked_cam 50 2 9 487434425.
Definition second_of_vehicle_2 : CAM.t := parked_cam 2050 2 9 487433625.
Definition track_of_vehicle_1 : VehicleDynamicId.t := VehicleDynamicId.init first_of_vehicle_1.
Definition track_of_vehicle_2 : VehicleDynamicId.t := VehicleDynamicId.init first_of_vehicle_2.

(** Vehicle 1 stands at latitude 48.7433425 N under pseudonym 7 all the
    time.  Vehicle 2, of the same shape, reports once from about 2.2 m
    north of it, then from about 13 m north of it. *)
Definition mixed_stream : list CAM.t :=
  [parked_cam 0 1 7 487433425;
   parked_cam 50 2 9 487433625;
   parked_cam 1050 2 9 487434625;
   parked_cam 1100 1 7 487433425;
   parked_cam 2100 1 7 487433425].


(** Scenario C: pseudonym 11 at 0 ms, pseudonym 12 at 2000 ms. *)
Definition scenario_c_first : CAM.t := CAM.mk 0 1 11 93201122 487433425 180 450 0 0.
Definition scenario_c_second : CAM.t := CAM.mk 2000 2 12 93201122 487434425 180 450 0 0.


(** Two vehicles that use one pseudonym each. *)
Definition one_pseudonym_each : list CAM.t :=
  [parked_cam 0 1 7 487433425; parked_cam 50 2 9 487434425;
   parked_cam 1000 1 7 487433425; parked_cam 1050 2 9 487434425].

(** One standing vehicle that keeps its pseudonym. *)
Definition lone_stream : list CAM.t :=
  [parked_cam 0 1 7 487433425; parked_cam 100 1 7 487433425; parked_cam 300 1 7 487433425].



(** [log] of the C library (glibc, x86-64) at the three arguments the
    program passes to it on [seven_pseudonyms]: 1/7 rounded to binary64, 2
    and 7. *)
Module libm.
Import PrimFloat.
Definition log (x : float) : float :=
  if (x =? 0x1.2492492492492p-3)%float then (- 0x1.f2272ae325a58p+0)%float
  else if (x =? 2)%float then 0x1.62e42fefa39efp-1%float
  else if (x =? 7)%float then 0x1.f2272ae325a57p+0%float
  else nan.
End libm.


(** Vehicle 1 uses one pseudonym, vehicle 2 uses two. *)
Definition unequal_consumption : list CAM.t :=
  [parked_cam 0 1 7 487433425; parked_cam 50 2 9 487434425;
   parked_cam 1000 1 7 487433425; parked_cam 1050 2 10 487434425].

End Examples.

(* ===================================================================== *)
(** * Part III: properties *)
(* ===================================================================== *)

(** ** Deduplication *)

Section Dedup.
Implicit Types (in_file : list string) (seen : gset string) (line : string).

Lemma elem_of_dedup_loop in_file seen line :
  line ∈ dedup_loop in_file seen ↔ line ∈ in_file ∧ line ∉ seen.
Proof.
  revert seen. induction in_file as [|l rest IH]; intros seen; simpl.
  - set_solver.
  - case_bool_decide as Hl.
    + rewrite IH. set_solver.
    + rewrite !elem_of_cons, IH, not_elem_of_union, not_elem_of_singleton.
      split.
      * intros [->|(?&?&?)]; auto.
      * intros [[->|?] ?]; [by left|].
        destruct (decide (line = l)) as [->|]; [by left|by right].
Qed.

Lemma NoDup_dedup_loop in_file seen : NoDup (dedup_loop in_file seen).
Proof.
  revert seen. induction in_file as [|l rest IH]; intros seen; simpl.
  - constructor.
  - case_bool_decide; [apply IH|].
    constructor; [|apply IH].
    rewrite elem_of_dedup_loop. set_solver.
Qed.

(** A file without repetitions, none of whose lines was seen, is copied. *)
Lemma dedup_loop_fixed in_file seen :
  NoDup in_file → (∀ line, line ∈ in_file → line ∉ seen) →
  dedup_loop in_file seen = in_file.
Proof.
  revert seen. induction in_file as [|l rest IH]; intros seen Hnd Hfresh; simpl; [done|].
  apply NoDup_cons in Hnd as [Hl Hnd].
  rewrite bool_decide_eq_false_2 by (apply Hfresh; left).
  f_equal. apply IH; [done|].
  intros line Hin. specialize (Hfresh line). set_solver.
Qed.

(** The loop, started after [done_lines] were read, selects the first
    occurrences among the remaining lines. *)
Lemma dedup_loop_first_occurrences done_lines in_file :
  dedup_loop in_file (list_to_set done_lines)
  = omap (fun i => line ← (done_lines ++ in_file) !! i;
                   if bool_decide (line ∈ take i (done_lines ++ in_file))
                   then None else Some line)
         (seq (List.length done_lines) (List.length in_file)).
Proof.
  revert done_lines. induction in_file as [|l rest IH]; intros done_lines; [done|].
  assert (list_to_set (C := gset string) done_lines ∪ {[l]}
          = list_to_set (done_lines ++ [l])) as Hseen.
  { rewrite list_to_set_app_L. simpl. set_solver. }
  cbn [dedup_loop List.length seq omap list_omap].
  rewrite list_lookup_middle by done. cbn [mbind option_bind].
  rewrite take_app_length.
  specialize (IH (done_lines ++ [l])).
  rewrite length_app, <- (assoc_L (++) done_lines [l] rest) in IH. simpl in IH.
  replace (List.length done_lines + 1)%nat with (S (List.length done_lines)) in IH by lia.
  rewrite <- IH.
  case_bool_decide as Hin; case_bool_decide as Hin'; try set_solver.
  - assert (list_to_set (C := gset string) (done_lines ++ [l]) = list_to_set done_lines) as ->
      by (rewrite list_to_set_app_L; simpl; set_solver).
    done.
  - rewrite Hseen. done.
Qed.

Example remove_duplicates_in_csv_sample :
  remove_duplicates_in_csv ["t,id"; "0,1"; "0,1"; "5,2"; "t,id"; "0,1"]%string
  = ["t,id"; "0,1"; "5,2"]%string.
Proof. vm_compute. reflexivity. Qed.

(** C5: deduplicating twice gives what deduplicating once gives, the
    output has no two equal lines, and it is the sequence of first
    occurrences of the input's lines, in input order. *)
Theorem remove_duplicates_in_csv_idempotent_nodup_first in_file :
  remove_duplicates_in_csv (remove_duplicates_in_csv in_file)
    = remove_duplicates_in_csv in_file
  ∧ NoDup (remove_duplicates_in_csv in_file)
  ∧ remove_duplicates_in_csv in_file = first_occurrences in_file.
Proof.
  unfold remove_duplicates_in_csv. split_and!.
  - apply dedup_loop_fixed; [apply NoDup_dedup_loop | set_solver].
  - apply NoDup_dedup_loop.
  - apply (dedup_loop_first_occurrences []).
Qed.
End Dedup.

(** ** The reconstructed-fragment duration *)

Section TraceDuration.
Implicit Types (original traced : list Position.t).

Lemma position_eqb_spec (p q : Position.t) :
  Position.eqb p q = true
  ↔ Position.longitude p = Position.longitude q ∧ Position.latitude p = Position.latitude q.
Proof. unfold Position.eqb. rewrite andb_true_iff, !Z.eqb_eq. done. Qed.

Lemma nth_drop_cons {A} (l : list A) (k : nat) (d : A) :
  (k < List.length l)%nat → drop k l = nth k l d :: drop (S k) l.
Proof.
  revert k. induction l as [|x l IH]; intros [|k] Hk; simpl in *; try lia; [done|].
  apply IH. lia.
Qed.

(** The loop from index [k] on is the walk over what is left of both
    sequences after [k] positions. *)
Lemma trace_duration_loop_walk original traced (n k : nat) (duration : Z) :
  (1 <= k)%nat →
  (k + n)%nat = Nat.min (List.length traced) (List.length original) →
  VehicleDynamicId.trace_duration_loop original traced (seq k n) duration
  = (duration
     + walk_positions (Position.timestamp (nth (k - 1) original Position.dummy))
         (drop k original) (drop k traced))%Z.
Proof.
  revert k duration. induction n as [|n IH]; intros k duration Hk Hmin; simpl.
  - assert (drop k original = [] ∨ drop k traced = []) as [-> | ->].
    { destruct (Nat.min_spec (List.length traced) (List.length original)) as [[_ E]|[_ E]].
      - right. apply drop_ge. lia.
      - left. apply drop_ge. lia. }
    + simpl. lia.
    + destruct (drop k original); simpl; lia.
  - rewrite (nth_drop_cons original k Position.dummy) by lia.
    rewrite (nth_drop_cons traced k Position.dummy) by lia.
    simpl. unfold Position.neqb.
    destruct (Position.eqb (nth k traced Position.dummy) (nth k original Position.dummy));
      simpl; [|lia].
    rewrite IH by lia.
    replace (S k - 1)%nat with k by lia. lia.
Qed.

Lemma get_trace_duration_after_first original traced :
  VehicleDynamicId.get_trace_duration original traced
  = fragment_duration_after_first original traced.
Proof.
  unfold VehicleDynamicId.get_trace_duration, VehicleDynamicId.range1.
  destruct original as [|o original], traced as [|t traced]; simpl; try done.
  rewrite Nat.sub_0_r.
  rewrite trace_duration_loop_walk by (simpl; lia).
  simpl. rewrite !drop_0. lia.
Qed.

(** C3 (amended): the duration is the sum of the ground-truth timestamp
    deltas accumulated while walking both sequences from index 1, up to the
    first index from 1 on at which the positions differ; positions are
    compared by longitude and latitude only; the positions at index 0 are
    never compared, and when they agree the walk from the start gives the
    same duration. *)
Theorem get_trace_duration_walk original traced :
  VehicleDynamicId.get_trace_duration original traced
    = fragment_duration_after_first original traced
  ∧ (∀ p q, Position.eqb p q = true
            ↔ Position.longitude p = Position.longitude q
              ∧ Position.latitude p = Position.latitude q)
  ∧ ((∀ o t, original !! 0%nat = Some o → traced !! 0%nat = Some t →
             Position.eqb t o = true) →
     VehicleDynamicId.get_trace_duration original traced
     = fragment_duration_from_start original traced).
Proof.
  split_and!.
  - apply get_trace_duration_after_first.
  - apply position_eqb_spec.
  - intros Hfirst. rewrite get_trace_duration_after_first.
    destruct original as [|o original], traced as [|t traced]; simpl; try done.
    rewrite (Hfirst o t) by done. done.
Qed.

Lemma get_trace_duration_walk_witness :
  VehicleDynamicId.get_trace_duration Examples.original_agreeing Examples.traced_agreeing
    = 100%Z
  ∧ VehicleDynamicId.get_trace_duration Examples.original_agreeing Examples.traced_agreeing
    = fragment_duration_from_start Examples.original_agreeing Examples.traced_agreeing.
Proof.
  split; [reflexivity|].
  apply (get_trace_duration_walk Examples.original_agreeing Examples.traced_agreeing).
  intros o t Ho Ht. simpl in Ho, Ht.
  injection Ho as <-. injection Ht as <-. reflexivity.
Defined.

(** C3, as stated, fails when the two sequences differ at index 0 and
    agree at index 1: the walk from the start stops at once, the program
    counts the first delta. *)
Lemma get_trace_duration_ignores_index_0 :
  VehicleDynamicId.get_trace_duration Examples.original_late Examples.traced_late = 100%Z
  ∧ fragment_duration_from_start Examples.original_late Examples.traced_late = 0%Z
  ∧ VehicleDynamicId.get_trace_duration Examples.original_late Examples.traced_late
    ≠ fragment_duration_from_start Examples.original_late Examples.traced_late.
Proof. split_and!; [reflexivity | reflexivity | discriminate]. Qed.
End TraceDuration.

(** ** The cumulative duration of a track *)

Section Duration.
Implicit Types (timestamps : list Z).

Lemma py_last_snoc timestamps (t : Z) : py_last (timestamps ++ [t]) = t.
Proof. unfold py_last. apply last_last. Qed.

Lemma sum_of_deltas_snoc timestamps (t : Z) :
  timestamps ≠ [] →
  sum_of_deltas (timestamps ++ [t]) = (sum_of_deltas timestamps + (t - py_last timestamps))%Z.
Proof.
  induction timestamps as [|a [|b rest] IH]; intros Hne; [done| |].
  - simpl. unfold py_last. simpl. lia.
  - change (sum_of_deltas ((a :: b :: rest) ++ [t]))
      with ((b - a) + sum_of_deltas ((b :: rest) ++ [t]))%Z.
    rewrite IH by done.
    change (sum_of_deltas (a :: b :: rest)) with ((b - a) + sum_of_deltas (b :: rest))%Z.
    unfold py_last. simpl. lia.
Qed.

(** The sum of consecutive deltas telescopes. *)
Lemma sum_of_deltas_telescopes (first : Z) timestamps :
  sum_of_deltas (first :: timestamps) = (py_last (first :: timestamps) - first)%Z.
Proof.
  revert first. induction timestamps as [|b rest IH]; intros first.
  - unfold py_last. simpl. lia.
  - change (sum_of_deltas (first :: b :: rest)) with ((b - first) + sum_of_deltas (b :: rest))%Z.
    rewrite IH. unfold py_last. simpl. lia.
Qed.

Lemma foldl_max_le (a : Z) timestamps : (a <= foldl Z.max a timestamps)%Z.
Proof.
  revert a. induction timestamps as [|b rest IH]; intros a; simpl; [lia|].
  specialize (IH (Z.max a b)). lia.
Qed.

(** On non-decreasing timestamps the largest is the last, the smallest the
    first. *)
Lemma wall_clock_span_sorted (first : Z) timestamps :
  Sorted Z.le (first :: timestamps) →
  wall_clock_span (first :: timestamps) = (py_last (first :: timestamps) - first)%Z.
Proof.
  intros Hs. apply Sorted_StronglySorted in Hs; [|intros x y z; lia].
  unfold wall_clock_span.
  assert (foldl Z.min first timestamps = first) as ->.
  { apply StronglySorted_inv in Hs as [_ Hall].
    clear -Hall. induction timestamps as [|b rest IH]; simpl; [done|].
    apply Forall_cons in Hall as [Hb Hall].
    rewrite Z.min_l by done. auto. }
  f_equal.
  revert first Hs. induction timestamps as [|b rest IH]; intros first Hs; simpl; [done|].
  apply StronglySorted_inv in Hs as [Hs Hall].
  apply Forall_cons in Hall as [Hb _].
  rewrite Z.max_r by done. rewrite IH by done. done.
Qed.

(** *** Ground-truth tracks *)

Lemma append_original_fields (v : VehicleConstantId.t) (obs : Z * Z * Z) :
  VehicleConstantId.timestamps (append_original v obs)
    = VehicleConstantId.timestamps v ++ [obs.2]
  ∧ VehicleConstantId.duration (append_original v obs)
    = (VehicleConstantId.duration v + (obs.2 - py_last (VehicleConstantId.timestamps v)))%Z
  ∧ VehicleConstantId.static_id (append_original v obs) = VehicleConstantId.static_id v.
Proof.
  destruct obs as [[lo la] ts]. unfold append_original, VehicleConstantId.try_update_parameters.
  rewrite Z.eqb_refl. simpl. done.
Qed.

Lemma original_track_invariant (static_id longitude latitude timestamp : Z)
    (appended : list (Z * Z * Z)) :
  let v := foldl append_original
             (VehicleConstantId.init static_id longitude latitude timestamp) appended in
  VehicleConstantId.timestamps v = timestamp :: appended.*2
  ∧ VehicleConstantId.duration v = sum_of_deltas (VehicleConstantId.timestamps v).
Proof.
  induction appended as [|obs appended IH] using rev_ind; simpl; [done|].
  rewrite foldl_app. simpl.
  destruct IH as [Hts Hdur].
  destruct (append_original_fields
              (foldl append_original
                 (VehicleConstantId.init static_id longitude latitude timestamp) appended)
              obs) as (-> & -> & _).
  rewrite Hts, fmap_app. split; [done|].
  rewrite (sum_of_deltas_snoc (timestamp :: appended.*2)) by done.
  rewrite Hdur, Hts. done.
Qed.

(** *** Candidate tracks *)

Lemma candidate_track_invariant (cam : CAM.t) (appended : list CAM.t) :
  let v := foldl VehicleDynamicId.update_parameters (VehicleDynamicId.init cam) appended in
  VehicleDynamicId.timestamps v = CAM.timestamp cam :: map CAM.timestamp appended
  ∧ VehicleDynamicId.duration v = sum_of_deltas (VehicleDynamicId.timestamps v).
Proof.
  induction appended as [|c appended IH] using rev_ind; simpl; [done|].
  rewrite foldl_app. simpl.
  destruct IH as [Hts Hdur].
  rewrite Hts, map_app. split; [done|].
  rewrite (sum_of_deltas_snoc (CAM.timestamp cam :: map CAM.timestamp appended)) by done.
  rewrite Hdur, Hts. done.
Qed.

(** C8 (amended): after any sequence of appends the duration of a
    ground-truth track, and of a candidate track, is the sum of the
    differences of consecutive appended timestamps; that sum always equals
    the last appended timestamp minus the first; it equals the
    largest-minus-smallest span whenever the timestamps are non-decreasing
    (repetitions included) and can differ from it when they are out of
    order. *)
Theorem duration_is_sum_of_deltas (static_id longitude latitude timestamp : Z)
    (appended : list (Z * Z * Z)) (cam : CAM.t) (cams : list CAM.t) :
  let v := foldl append_original
             (VehicleConstantId.init static_id longitude latitude timestamp) appended in
  let w := foldl VehicleDynamicId.update_parameters (VehicleDynamicId.init cam) cams in
  (VehicleConstantId.timestamps v = timestamp :: appended.*2
   ∧ VehicleConstantId.duration v = sum_of_deltas (VehicleConstantId.timestamps v)
   ∧ VehicleConstantId.duration v
     = (py_last (VehicleConstantId.timestamps v) - timestamp)%Z
   ∧ (Sorted Z.le (VehicleConstantId.timestamps v) →
      VehicleConstantId.duration v = wall_clock_span (VehicleConstantId.timestamps v)))
  ∧ (VehicleDynamicId.timestamps w = CAM.timestamp cam :: map CAM.timestamp cams
     ∧ VehicleDynamicId.duration w = sum_of_deltas (VehicleDynamicId.timestamps w)
     ∧ VehicleDynamicId.duration w
       = (py_last (VehicleDynamicId.timestamps w) - CAM.timestamp cam)%Z
     ∧ (Sorted Z.le (VehicleDynamicId.timestamps w) →
        VehicleDynamicId.duration w = wall_clock_span (VehicleDynamicId.timestamps w)))
  ∧ VehicleConstantId.duration Examples.unordered_original
    ≠ wall_clock_span (VehicleConstantId.timestamps Examples.unordered_original)
  ∧ VehicleDynamicId.duration Examples.unordered_candidate
    ≠ wall_clock_span (VehicleDynamicId.timestamps Examples.unordered_candidate).
Proof.
  intros v w.
  destruct (original_track_invariant static_id longitude latitude timestamp appended)
    as [Hts Hdur].
  destruct (candidate_track_invariant cam cams) as [Hts' Hdur'].
  fold v in Hts, Hdur. fold w in Hts', Hdur'.
  split_and!; try done.
  - rewrite Hdur, Hts. apply sum_of_deltas_telescopes.
  - intros Hs. rewrite Hdur. rewrite Hts in *.
    rewrite wall_clock_span_sorted by done. apply sum_of_deltas_telescopes.
  - rewrite Hdur', Hts'. apply sum_of_deltas_telescopes.
  - intros Hs. rewrite Hdur'. rewrite Hts' in *.
    rewrite wall_clock_span_sorted by done. apply sum_of_deltas_telescopes.
Qed.

Lemma duration_is_sum_of_deltas_witness :
  VehicleConstantId.duration
    (foldl append_original (VehicleConstantId.init 1 0 0 0) Examples.repeated_appends)
  = wall_clock_span [0; 100; 100; 200]%Z
  ∧ VehicleDynamicId.duration
      (foldl VehicleDynamicId.update_parameters
         (VehicleDynamicId.init (Examples.standing_cam 0 7)) Examples.repeated_cams)
    = wall_clock_span [0; 100; 100; 200]%Z.
Proof.
  pose proof (duration_is_sum_of_deltas 1 0 0 0 Examples.repeated_appends
                (Examples.standing_cam 0 7) Examples.repeated_cams) as H.
  simpl in H. destruct H as [(_ & _ & _ & Hv) [(_ & _ & _ & Hw) _]].
  split.
  - apply Hv. repeat constructor; lia.
  - apply Hw. repeat constructor; lia.
Defined.

(** C8, as stated, fails: on timestamps 0, 100, 50, 50 (out of order and
    repeated) the duration of both kinds of track is 50, which is the last
    timestamp minus the first, and this holds after every sequence of
    appends. *)
Lemma duration_is_last_minus_first :
  (VehicleConstantId.timestamps Examples.unordered_original = [0; 100; 50; 50]%Z
   ∧ VehicleConstantId.duration Examples.unordered_original = (50 - 0)%Z)
  ∧ (VehicleDynamicId.timestamps Examples.unordered_candidate = [0; 100; 50; 50]%Z
     ∧ VehicleDynamicId.duration Examples.unordered_candidate = (50 - 0)%Z)
  ∧ (∀ static_id longitude latitude timestamp appended,
       let v := foldl append_original
                  (VehicleConstantId.init static_id longitude latitude timestamp) appended in
       VehicleConstantId.duration v
       = (py_last (VehicleConstantId.timestamps v) - timestamp)%Z)
  ∧ (∀ cam cams,
       let w := foldl VehicleDynamicId.update_parameters (VehicleDynamicId.init cam) cams in
       VehicleDynamicId.duration w
       = (py_last (VehicleDynamicId.timestamps w) - CAM.timestamp cam)%Z).
Proof.
  split_and!; try reflexivity.
  - intros static_id longitude latitude timestamp appended v.
    destruct (original_track_invariant static_id longitude latitude timestamp appended)
      as [Hts Hdur].
    fold v in Hts, Hdur. rewrite Hdur, Hts. apply sum_of_deltas_telescopes.
  - intros cam cams w.
    destruct (candidate_track_invariant cam cams) as [Hts Hdur].
    fold w in Hts, Hdur. rewrite Hdur, Hts. apply sum_of_deltas_telescopes.
Qed.
End Duration.

(** ** The continuity test *)

Section Continuity.
Implicit Types (self : VehicleDynamicId.t) (cam : CAM.t).
Local Open Scope R_scope.

Lemma Rlt_bool_true (a b : R) : a < b → Rlt_bool a b = true.
Proof. intros H. unfold Rlt_bool. destruct (Rlt_dec a b); [done|contradiction]. Qed.

Lemma Rlt_bool_false (a b : R) : b <= a → Rlt_bool a b = false.
Proof. intros H. unfold Rlt_bool. destruct (Rlt_dec a b); [lra|done]. Qed.

(** Python's [%] with a positive modulus lands in [[0, b)]. *)
Lemma py_mod_range (a b : R) : 0 < b → 0 <= py_mod a b < b.
Proof.
  intros Hb. unfold py_mod.
  destruct (base_Int_part (a / b)) as [Hle Hgt].
  assert (a = b * (a / b)) as Ha by (field; lra).
  split.
  - assert (b * IZR (Int_part (a / b)) <= b * (a / b)) by (apply Rmult_le_compat_l; lra).
    lra.
  - assert (b * (a / b - 1) < b * IZR (Int_part (a / b))) by (apply Rmult_lt_compat_l; lra).
    lra.
Qed.

(** The heading difference is wrapped into [[-π/2, π/2)]. *)
Lemma heading_diff_range self cam :
  - (PI / 2) <= VehicleDynamicId.heading_diff self cam < PI / 2.
Proof.
  unfold VehicleDynamicId.heading_diff.
  pose proof PI_RGT_0.
  match goal with |- context [py_mod ?a PI] => pose proof (py_mod_range a PI) end.
  lra.
Qed.

Lemma heading_tolerance_contains_wrap :
  - HEADING_TOLERANCE < - (PI / 2) ∧ PI / 2 < HEADING_TOLERANCE.
Proof. unfold HEADING_TOLERANCE. pose proof PI_RGT_0. lra. Qed.

(** Only the position condition of [compare_position] can fail. *)
Lemma compare_position_position_only self cam :
  VehicleDynamicId.compare_position self cam = position_only_test self cam.
Proof.
  unfold VehicleDynamicId.compare_position, VehicleDynamicId.compare_position_with,
    position_only_test, POS_ERR_TOLERANCE.
  destruct (Rlt_bool (VehicleDynamicId.position_deviation self cam) 0.003); [|done].
  pose proof (heading_diff_range self cam).
  pose proof heading_tolerance_contains_wrap.
  rewrite !Rlt_bool_true by lra. done.
Qed.

(** C10: the result of the continuity test is the result of its position
    condition alone (predicted against reported position, below 0.003
    km): the heading difference is wrapped into [[-π/2, π/2)], which lies
    strictly inside the tolerance interval (-3π/5, 3π/5). *)
Theorem compare_position_is_position_test self cam :
  VehicleDynamicId.compare_position self cam = position_only_test self cam
  ∧ - (PI / 2) <= VehicleDynamicId.heading_diff self cam < PI / 2
  ∧ - HEADING_TOLERANCE < - (PI / 2) ∧ PI / 2 < HEADING_TOLERANCE
  ∧ HEADING_TOLERANCE = 3 * PI / 5.
Proof.
  split_and!.
  - apply compare_position_position_only.
  - apply heading_diff_range.
  - apply heading_diff_range.
  - apply heading_tolerance_contains_wrap.
  - apply heading_tolerance_contains_wrap.
  - unfold HEADING_TOLERANCE. lra.
Qed.

(** *** Zero motion *)

Lemma geo_distance_same_point (latitude longitude : R) :
  VehicleDynamicId.geo_distance latitude longitude latitude longitude = 0.
Proof.
  unfold VehicleDynamicId.geo_distance.
  replace (deg2rad latitude - deg2rad latitude) with 0 by lra.
  replace (deg2rad longitude - deg2rad longitude) with 0 by lra.
  replace (0 / 2) with 0 by lra.
  rewrite sin_0. unfold Rsqr. rewrite !Rmult_0_r, Rplus_0_r.
  rewrite sqrt_0, asin_0. lra.
Qed.

(** With both speeds zero the predicted position is the last known
    position of the track. *)
Lemma position_deviation_standing self cam :
  py_last (VehicleDynamicId.speed self) = 0%Z → CAM.speed cam = 0%Z →
  VehicleDynamicId.position_deviation self cam
  = VehicleDynamicId.geo_distance
      (IZR (CAM.latitude cam) * 10e-8) (IZR (CAM.longitude cam) * 10e-8)
      (IZR (py_last (VehicleDynamicId.latitude self)) * 10e-8)
      (IZR (py_last (VehicleDynamicId.longitude self)) * 10e-8).
Proof.
  intros Hv Hv2. unfold VehicleDynamicId.position_deviation.
  rewrite Hv, Hv2. unfold VehicleDynamicId.dy_dx_from_distance_and_heading.
  unfold VehicleDynamicId.compute_new_long, VehicleDynamicId.compute_new_lat.
  f_equal.
  - match goal with |- ?x + ?y = ?x => replace y with 0; [lra|] end.
    unfold Rdiv. ring.
  - match goal with |- ?x + ?y = ?x => replace y with 0; [lra|] end.
    unfold Rdiv. ring.
Qed.

(** C4: a CAM with the position of the track's last CAM, both with speed
    zero, passes the continuity test, whatever the non-negative time gap
    between them. *)
Theorem compare_position_zero_motion self cam :
  py_last (VehicleDynamicId.longitude self) = CAM.longitude cam →
  py_last (VehicleDynamicId.latitude self) = CAM.latitude cam →
  py_last (VehicleDynamicId.speed self) = 0%Z →
  CAM.speed cam = 0%Z →
  (0 <= CAM.timestamp cam - py_last (VehicleDynamicId.timestamps self))%Z →
  VehicleDynamicId.compare_position self cam = true.
Proof.
  intros Hlong Hlat Hv Hv2 _.
  (* the predicted position is the last position, which is the reported one *)
  assert (VehicleDynamicId.position_deviation self cam = 0) as Hdev.
  { rewrite position_deviation_standing by done.
    rewrite Hlong, Hlat. apply geo_distance_same_point. }
  unfold VehicleDynamicId.compare_position, VehicleDynamicId.compare_position_with.
  rewrite Hdev.
  assert (Rlt_bool 0 POS_ERR_TOLERANCE = true) as ->
    by (apply Rlt_bool_true; unfold POS_ERR_TOLERANCE; lra).
  (* the wrapped heading difference is within the tolerance *)
  pose proof (heading_diff_range self cam).
  pose proof heading_tolerance_contains_wrap.
  rewrite !Rlt_bool_true by lra. done.
Qed.

Lemma compare_position_zero_motion_witness :
  VehicleDynamicId.compare_position Examples.track_of_vehicle_1
    (Examples.parked_cam 5000 1 9 487433425) = true.
Proof.
  apply compare_position_zero_motion; [reflexivity | reflexivity | reflexivity | reflexivity |].
  vm_compute. discriminate.
Defined.

(** *** Standing vehicles on one meridian

    With equal longitudes the Haversine formula gives the length of the
    meridian arc between the two latitudes. *)

Lemma geo_distance_meridian (latitude1 latitude2 longitude : R) :
  Rabs (deg2rad latitude2 - deg2rad latitude1) <= PI →
  VehicleDynamicId.geo_distance latitude1 longitude latitude2 longitude
  = Rabs (deg2rad latitude2 - deg2rad latitude1) * EARTH_RADIUS.
Proof.
  intros Hd. unfold VehicleDynamicId.geo_distance.
  set (d := deg2rad latitude2 - deg2rad latitude1) in *.
  replace (deg2rad longitude - deg2rad longitude) with 0 by lra.
  replace (0 / 2) with 0 by lra.
  rewrite sin_0. unfold Rsqr at 2. rewrite !Rmult_0_r, Rplus_0_r.
  rewrite sqrt_Rsqr_abs.
  pose proof PI_RGT_0 as Hpi.
  destruct (Rle_lt_dec 0 d) as [Hpos|Hneg].
  - rewrite (Rabs_right d) in * by lra.
    rewrite Rabs_right by (apply Rle_ge, sin_ge_0; lra).
    rewrite asin_sin by lra. lra.
  - rewrite (Rabs_left d) in * by lra.
    rewrite Rabs_left1 by (rewrite <- (Ropp_involutive (d / 2)), sin_neg;
                           assert (0 <= sin (- (d / 2))) by (apply sin_ge_0; lra); lra).
    rewrite <- sin_neg, asin_sin by lra. lra.
Qed.

Lemma position_deviation_standing_meridian self cam :
  py_last (VehicleDynamicId.speed self) = 0%Z → CAM.speed cam = 0%Z →
  py_last (VehicleDynamicId.longitude self) = CAM.longitude cam →
  (Z.abs (py_last (VehicleDynamicId.latitude self) - CAM.latitude cam) <= 10 ^ 9)%Z →
  VehicleDynamicId.position_deviation self cam
  = IZR (Z.abs (py_last (VehicleDynamicId.latitude self) - CAM.latitude cam))
    * 10e-8 * (PI / 180) * EARTH_RADIUS.
Proof.
  intros Hv Hv2 Hlong Hlat.
  rewrite position_deviation_standing by done. rewrite Hlong.
  set (old := py_last (VehicleDynamicId.latitude self)) in *.
  assert (Rabs (deg2rad (IZR old * 10e-8) - deg2rad (IZR (CAM.latitude cam) * 10e-8))
          = IZR (Z.abs (old - CAM.latitude cam)) * 10e-8 * (PI / 180)) as Habs.
  { rewrite abs_IZR, minus_IZR. unfold deg2rad.
    replace (IZR old * 10e-8 * (PI / 180) - IZR (CAM.latitude cam) * 10e-8 * (PI / 180))
      with ((IZR old - IZR (CAM.latitude cam)) * (10e-8 * (PI / 180))) by lra.
    rewrite Rabs_mult. pose proof PI_RGT_0.
    rewrite (Rabs_right (10e-8 * (PI / 180))) by lra. lra. }
  rewrite geo_distance_meridian; rewrite Habs; [done|].
  apply IZR_le in Hlat.
  assert (0 <= IZR (Z.abs (old - CAM.latitude cam))) by (apply IZR_le; lia).
  pose proof PI_RGT_0.
  replace (IZR (10 ^ 9)) with 1000000000 in Hlat by (simpl; lra).
  nra.
Qed.

(** Two standing vehicles on one meridian, at most 200 units of latitude
    (about 2.2 m) apart, pass the continuity test. *)
Lemma compare_position_standing_near self cam :
  py_last (VehicleDynamicId.speed self) = 0%Z → CAM.speed cam = 0%Z →
  py_last (VehicleDynamicId.longitude self) = CAM.longitude cam →
  (Z.abs (py_last (VehicleDynamicId.latitude self) - CAM.latitude cam) <= 200)%Z →
  VehicleDynamicId.compare_position self cam = true.
Proof.
  intros Hv Hv2 Hlong Hlat.
  rewrite compare_position_position_only. unfold position_only_test.
  rewrite position_deviation_standing_meridian by (done || lia).
  apply Rlt_bool_true. unfold EARTH_RADIUS.
  apply IZR_le in Hlat.
  assert (0 <= IZR (Z.abs (py_last (VehicleDynamicId.latitude self) - CAM.latitude cam)))
    by (apply IZR_le; lia).
  pose proof PI_4. pose proof PI_RGT_0. nra.
Qed.

(** At least 1000 units of latitude (about 11 m) apart, they fail it. *)
Lemma compare_position_standing_far self cam :
  py_last (VehicleDynamicId.speed self) = 0%Z → CAM.speed cam = 0%Z →
  py_last (VehicleDynamicId.longitude self) = CAM.longitude cam →
  (1000 <= Z.abs (py_last (VehicleDynamicId.latitude self) - CAM.latitude cam) <= 10 ^ 9)%Z →
  VehicleDynamicId.compare_position self cam = false.
Proof.
  intros Hv Hv2 Hlong [Hlat Hlat'].
  rewrite compare_position_position_only. unfold position_only_test.
  rewrite position_deviation_standing_meridian by done.
  apply Rlt_bool_false. unfold EARTH_RADIUS.
  apply IZR_le in Hlat.
  pose proof PI2_1. nra.
Qed.
End Continuity.

(** ** The pseudonym-linkage loop *)

Section Linkage.
Implicit Types (cam : CAM.t) (v : VehicleDynamicId.t) (tracks : list VehicleDynamicId.t).

Lemma wf_init cam : VehicleDynamicId.wf (VehicleDynamicId.init cam).
Proof. unfold VehicleDynamicId.wf. simpl. split_and!; done. Qed.

Lemma wf_update_parameters v cam :
  VehicleDynamicId.wf (VehicleDynamicId.update_parameters v cam).
Proof.
  unfold VehicleDynamicId.wf. simpl.
  split_and!; intros H; by apply app_eq_nil in H as [_ ?].
Qed.

(** *** Which track the loop extends *)

Lemma match_dynamic_loop_known cam v tracks :
  dynamic_is_known cam v = true →
  match_dynamic_loop cam (v :: tracks)
  = (true, VehicleDynamicId.update_parameters v cam :: tracks).
Proof. intros H. simpl. rewrite H. done. Qed.

Lemma match_dynamic_loop_unknown cam v tracks :
  dynamic_is_known cam v = false →
  match_dynamic_loop cam (v :: tracks)
  = ((match_dynamic_loop cam tracks).1, v :: (match_dynamic_loop cam tracks).2).
Proof. intros H. simpl. rewrite H. by destruct (match_dynamic_loop cam tracks). Qed.

(** The loop extends the first track, in iteration order, that passes the
    identity test or the shape and continuity tests. *)
Lemma match_dynamic_loop_first cam tracks (i : nat) v :
  tracks !! i = Some v →
  dynamic_is_known cam v = true →
  Forall (fun w => dynamic_is_known cam w = false) (take i tracks) →
  match_dynamic_loop cam tracks
  = (true, <[i := VehicleDynamicId.update_parameters v cam]> tracks).
Proof.
  revert i. induction tracks as [|w tracks IH]; intros i Hi Hv Hbefore; [done|].
  destruct i as [|i].
  - injection Hi as ->. by apply match_dynamic_loop_known.
  - simpl in Hbefore. apply Forall_cons in Hbefore as [Hw Hbefore].
    rewrite match_dynamic_loop_unknown by done.
    rewrite (IH i); done.
Qed.

Lemma match_dynamic_loop_none cam tracks :
  Forall (fun w => dynamic_is_known cam w = false) tracks →
  match_dynamic_loop cam tracks = (false, tracks).
Proof.
  induction 1 as [|w tracks Hw _ IH]; [done|].
  rewrite match_dynamic_loop_unknown by done. rewrite IH. done.
Qed.

Lemma match_dynamic_vehicle_first cam tracks (i : nat) v :
  tracks !! i = Some v →
  dynamic_is_known cam v = true →
  Forall (fun w => dynamic_is_known cam w = false) (take i tracks) →
  match_dynamic_vehicle cam tracks
  = (<[i := VehicleDynamicId.update_parameters v cam]> tracks, None).
Proof.
  intros Hi Hv Hbefore. unfold match_dynamic_vehicle.
  rewrite (match_dynamic_loop_first cam tracks i v); done.
Qed.

Lemma match_dynamic_vehicle_none cam tracks :
  Forall (fun w => dynamic_is_known cam w = false) tracks →
  match_dynamic_vehicle cam tracks = (tracks, Some (VehicleDynamicId.init cam)).
Proof.
  intros H. unfold match_dynamic_vehicle. rewrite match_dynamic_loop_none; done.
Qed.

Lemma dynamic_is_known_id cam v :
  VehicleDynamicId.compare_id v (CAM.pseudo_id cam) = true → dynamic_is_known cam v = true.
Proof. intros H. unfold dynamic_is_known. rewrite H. done. Qed.

Lemma dynamic_is_known_standing_near cam v :
  VehicleDynamicId.compare_parameters v (CAM.length cam) (CAM.width cam) = true →
  py_last (VehicleDynamicId.speed v) = 0%Z → CAM.speed cam = 0%Z →
  py_last (VehicleDynamicId.longitude v) = CAM.longitude cam →
  (Z.abs (py_last (VehicleDynamicId.latitude v) - CAM.latitude cam) <= 200)%Z →
  dynamic_is_known cam v = true.
Proof.
  intros Hshape ????. unfold dynamic_is_known.
  destruct (VehicleDynamicId.compare_id v (CAM.pseudo_id cam)); [done|].
  rewrite Hshape. simpl. by apply compare_position_standing_near.
Qed.

Lemma dynamic_is_known_standing_far cam v :
  VehicleDynamicId.compare_id v (CAM.pseudo_id cam) = false →
  py_last (VehicleDynamicId.speed v) = 0%Z → CAM.speed cam = 0%Z →
  py_last (VehicleDynamicId.longitude v) = CAM.longitude cam →
  (1000 <= Z.abs (py_last (VehicleDynamicId.latitude v) - CAM.latitude cam) <= 10 ^ 9)%Z →
  dynamic_is_known cam v = false.
Proof.
  intros Hid ????. unfold dynamic_is_known. rewrite Hid.
  destruct (VehicleDynamicId.compare_parameters v (CAM.length cam) (CAM.width cam));
    [|done].
  simpl. by apply compare_position_standing_far.
Qed.

(** One step of [build_routes] without an allow-list, component by
    component. *)
Lemma build_routes_step_split (static_vehicles : list VehicleConstantId.t) tracks cam :
  build_routes_step None (static_vehicles, tracks) cam
  = (from_option (fun new => (match_static_vehicle cam static_vehicles).1 ++ [new])
       (match_static_vehicle cam static_vehicles).1
       (match_static_vehicle cam static_vehicles).2,
     from_option (fun new => (match_dynamic_vehicle cam tracks).1 ++ [new])
       (match_dynamic_vehicle cam tracks).1
       (match_dynamic_vehicle cam tracks).2).
Proof.
  unfold build_routes_step. simpl.
  destruct (match_static_vehicle cam static_vehicles) as [s [ns|]],
           (match_dynamic_vehicle cam tracks) as [d [nd|]]; done.
Qed.

(** Every candidate track [build_routes] builds has non-empty lists, so
    [py_last] never falls back on its default. *)
Lemma match_dynamic_loop_wf cam tracks :
  Forall VehicleDynamicId.wf tracks →
  Forall VehicleDynamicId.wf (match_dynamic_loop cam tracks).2.
Proof.
  induction 1 as [|w tracks Hw Htracks IH]; simpl; [constructor|].
  destruct (dynamic_is_known cam w).
  - simpl. constructor; [apply wf_update_parameters|done].
  - destruct (match_dynamic_loop cam tracks) as [known tracks']. simpl in *.
    by constructor.
Qed.

Lemma build_routes_step_wf vehicles (st : list VehicleConstantId.t * list VehicleDynamicId.t) cam :
  Forall VehicleDynamicId.wf st.2 →
  Forall VehicleDynamicId.wf (build_routes_step vehicles st cam).2.
Proof.
  destruct st as [static_vehicles tracks]. intros Hwf. unfold build_routes_step.
  destruct (excluded vehicles cam); [done|].
  destruct (match_static_vehicle cam static_vehicles) as [static_vehicles' new_static].
  unfold match_dynamic_vehicle.
  pose proof (match_dynamic_loop_wf cam tracks Hwf) as Hloop.
  destruct (match_dynamic_loop cam tracks) as [[|] tracks']; simpl in *; [done|].
  apply Forall_app. split; [done|]. constructor; [apply wf_init|constructor].
Qed.

Lemma build_routes_wf cams vehicles :
  Forall VehicleDynamicId.wf (build_routes cams vehicles).2.
Proof.
  unfold build_routes.
  assert (∀ st, Forall VehicleDynamicId.wf st.2 →
                Forall VehicleDynamicId.wf (foldl (build_routes_step vehicles) st cams).2)
    as Hinv.
  { induction cams as [|cam cams IH]; intros st Hst; simpl; [done|].
    apply IH. by apply build_routes_step_wf. }
  apply Hinv. constructor.
Qed.

(** C2 (amended): a track whose last pseudonym is the CAM's pseudonym is
    the one the CAM extends, and no new track is created, provided no
    track before it in iteration order passes the identity test or the
    shape and continuity tests. *)
Theorem pseudonym_match_extends_unless_earlier_match cam tracks (i : nat) v :
  tracks !! i = Some v →
  VehicleDynamicId.compare_id v (CAM.pseudo_id cam) = true →
  Forall (fun w => dynamic_is_known cam w = false) (take i tracks) →
  match_dynamic_vehicle cam tracks
  = (<[i := VehicleDynamicId.update_parameters v cam]> tracks, None).
Proof.
  intros Hi Hid Hbefore.
  apply match_dynamic_vehicle_first; auto using dynamic_is_known_id.
Qed.

Lemma pseudonym_match_extends_unless_earlier_match_witness :
  match_dynamic_vehicle (Examples.parked_cam 2050 2 9 487434425)
    [Examples.track_of_vehicle_1; Examples.track_of_vehicle_2]
  = ([Examples.track_of_vehicle_1;
      VehicleDynamicId.update_parameters Examples.track_of_vehicle_2
        (Examples.parked_cam 2050 2 9 487434425)], None).
Proof.
  apply (pseudonym_match_extends_unless_earlier_match
           (Examples.parked_cam 2050 2 9 487434425)
           [Examples.track_of_vehicle_1; Examples.track_of_vehicle_2] 1
           Examples.track_of_vehicle_2).
  - reflexivity.
  - reflexivity.
  - repeat constructor.
    apply dynamic_is_known_standing_far; [reflexivity..|].
    split; vm_compute; discriminate.
Defined.

(** C2, as stated, fails: vehicle 2, whose track ends with pseudonym 9,
    sends a CAM under pseudonym 9 from 2.2 m beside the standing vehicle 1;
    the track of vehicle 1 comes first, passes the shape and continuity
    tests and is extended; the track of vehicle 2 is left as it was. *)
Lemma kinematic_match_overrides_pseudonym_match :
  (build_routes [Examples.first_of_vehicle_1; Examples.first_of_vehicle_2] None).2
    = [Examples.track_of_vehicle_1; Examples.track_of_vehicle_2]
  ∧ VehicleDynamicId.compare_id Examples.track_of_vehicle_2
      (CAM.pseudo_id Examples.second_of_vehicle_2) = true
  ∧ VehicleDynamicId.compare_id Examples.track_of_vehicle_1
      (CAM.pseudo_id Examples.second_of_vehicle_2) = false
  ∧ match_dynamic_vehicle Examples.second_of_vehicle_2
      [Examples.track_of_vehicle_1; Examples.track_of_vehicle_2]
    = ([VehicleDynamicId.update_parameters Examples.track_of_vehicle_1
          Examples.second_of_vehicle_2;
        Examples.track_of_vehicle_2], None)
  ∧ match_dynamic_vehicle Examples.second_of_vehicle_2
      [Examples.track_of_vehicle_1; Examples.track_of_vehicle_2]
    ≠ ([Examples.track_of_vehicle_1;
        VehicleDynamicId.update_parameters Examples.track_of_vehicle_2
          Examples.second_of_vehicle_2], None).
Proof.
  assert (match_dynamic_vehicle Examples.second_of_vehicle_2
            [Examples.track_of_vehicle_1; Examples.track_of_vehicle_2]
          = ([VehicleDynamicId.update_parameters Examples.track_of_vehicle_1
                Examples.second_of_vehicle_2;
              Examples.track_of_vehicle_2], None)) as Hext.
  { apply (match_dynamic_vehicle_first Examples.second_of_vehicle_2
             [Examples.track_of_vehicle_1; Examples.track_of_vehicle_2] 0
             Examples.track_of_vehicle_1);
      [reflexivity| |constructor].
    apply dynamic_is_known_standing_near; [reflexivity..|].
    vm_compute; discriminate. }
  split_and!; [|reflexivity|reflexivity|exact Hext|rewrite Hext; discriminate].
  unfold build_routes. cbn [foldl].
  rewrite build_routes_step_split.
  rewrite match_dynamic_vehicle_none by constructor.
  cbn [from_option fst snd app].
  change (match_static_vehicle Examples.first_of_vehicle_1 [])
    with (@nil VehicleConstantId.t,
          Some (VehicleConstantId.init 1 93201122 487433425 0)).
  cbn [from_option fst snd app].
  rewrite build_routes_step_split. cbn [snd].
  rewrite match_dynamic_vehicle_none; [reflexivity|].
  repeat constructor.
  apply dynamic_is_known_standing_far; [reflexivity..|].
  split; vm_compute; discriminate.
Qed.

(** *** The routes built from [Examples.mixed_stream] *)


End Linkage.

(** ** The tracking success *)

Section TrackingSuccess.
Implicit Types (vehicle_trace : VehicleTrace.t) (report : success_report).



End TrackingSuccess.

(** ** The anonymity set *)

Section Anonymity.
Implicit Types (anonymity_set m : gmap Z (Z * Z)) (cam : CAM.t).
Local Open Scope R_scope.

Lemma foldl_delete_lookup m (keys : list Z) (k : Z) :
  foldl (fun m pseudo_id => delete pseudo_id m) m keys !! k
  = if decide (k ∈ keys) then None else m !! k.
Proof.
  revert m. induction keys as [|k' keys IH]; intros m; cbn [foldl].
  - destruct (decide (k ∈ [])) as [H|]; [by apply elem_of_nil in H|done].
  - rewrite IH.
    destruct (decide (k ∈ keys)) as [Hin|Hout], (decide (k ∈ k' :: keys)) as [Hin'|Hout'];
      try done.
    + exfalso. apply Hout'. by right.
    + apply elem_of_cons in Hin' as [->|?]; [|done]. apply lookup_delete_eq.
    + apply lookup_delete_ne. intros ->. apply Hout'. by left.
Qed.

Lemma elem_of_purged_keys m (now threshold k : Z) :
  k ∈ lst_of_to_be_purged_keys m now threshold
  ↔ ∃ n t, m !! k = Some (n, t) ∧ (threshold < now - t)%Z.
Proof.
  unfold lst_of_to_be_purged_keys. rewrite list_elem_of_omap. split.
  - intros ([k' [n t]] & Hin & Hsome).
    apply elem_of_map_to_list in Hin.
    destruct (Z.ltb_spec threshold (now - t)); [|done].
    injection Hsome as ->. eauto.
  - intros (n & t & Hk & Hlt). exists (k, (n, t)). split.
    + by apply elem_of_map_to_list.
    + destruct (Z.ltb_spec threshold (now - t)); [done|lia].
Qed.

(** The purge keeps exactly the entries that are not older than the
    threshold. *)
Lemma purge_lookup m (now threshold k : Z) :
  foldl (fun m pseudo_id => delete pseudo_id m) m
    (lst_of_to_be_purged_keys m now threshold) !! k
  = match m !! k with
    | Some (n, t) => if (threshold <? now - t)%Z then None else Some (n, t)
    | None => None
    end.
Proof.
  rewrite foldl_delete_lookup.
  destruct (decide (k ∈ lst_of_to_be_purged_keys m now threshold)) as [Hin|Hout].
  - apply elem_of_purged_keys in Hin as (n & t & -> & Hlt).
    destruct (Z.ltb_spec threshold (now - t)); [done|lia].
  - destruct (m !! k) as [[n t]|] eqn:Hk; [|done].
    destruct (Z.ltb_spec threshold (now - t)); [|done].
    exfalso. apply Hout. apply elem_of_purged_keys. eauto.
Qed.

(** *** Entropy of a list of counts *)

Lemma sum_list_R_pos (cs : list R) :
  cs ≠ [] → Forall (fun c => 0 < c) cs → 0 < sum_list_R cs.
Proof.
  intros Hne Hpos. destruct Hpos as [|c cs Hc Hcs]; [done|]. simpl. clear Hne.
  assert (0 <= sum_list_R cs); [|lra].
  induction Hcs as [|c' cs Hc' _ IH]; simpl; lra.
Qed.

Lemma elem_le_sum_list_R (cs : list R) (c : R) :
  Forall (fun c => 0 < c) cs → c ∈ cs → c <= sum_list_R cs.
Proof.
  induction 1 as [|c' cs Hc' Hcs IH]; intros Hin; [by apply elem_of_nil in Hin|].
  simpl. assert (0 <= sum_list_R cs).
  { clear -Hcs. induction Hcs; simpl; lra. }
  apply elem_of_cons in Hin as [->|Hin]; [lra|]. specialize (IH Hin). lra.
Qed.

Lemma sum_list_R_scaled (cs : list R) (T : R) :
  sum_list_R (map (fun c => c / T) cs) = sum_list_R cs / T.
Proof. induction cs as [|c cs IH]; simpl; [lra|]. rewrite IH. lra. Qed.

Lemma ln_le_minus_1 (x : R) : 0 < x → ln x <= x - 1.
Proof.
  intros Hx. pose proof (exp_ineq1_le (ln x)) as H. rewrite exp_ln in H by done. lra.
Qed.

(** One term of Gibbs' inequality. *)
Lemma entropy_term_upper (N p : R) :
  0 < N → 0 < p → - (p * ln p) <= p * ln N + / N - p.
Proof.
  intros HN Hp.
  assert (0 < / (N * p)) as Hinv by (apply Rinv_0_lt_compat; nra).
  pose proof (ln_le_minus_1 (/ (N * p)) Hinv) as H.
  rewrite ln_Rinv, ln_mult in H by (done || nra).
  assert (p * (- (ln N + ln p)) <= p * (/ (N * p) - 1)) as H'
    by (apply Rmult_le_compat_l; lra).
  replace (p * (/ (N * p) - 1)) with (/ N - p) in H' by (field; lra).
  lra.
Qed.

Lemma entropy_sum_upper (N : R) (ps : list R) :
  0 < N → Forall (fun p => 0 < p) ps →
  - sum_list_R (map (fun p => p * ln p) ps)
  <= sum_list_R ps * ln N + INR (List.length ps) / N - sum_list_R ps.
Proof.
  intros HN. induction 1 as [|p ps Hp _ IH].
  - simpl. lra.
  - cbn [map sum_list_R foldr List.length]. rewrite S_INR.
    pose proof (entropy_term_upper N p HN Hp).
    fold (sum_list_R ps). fold (sum_list_R (map (fun p => p * ln p) ps)).
    unfold Rdiv in *. lra.
Qed.

Lemma entropy_sum_lower (ps : list R) :
  Forall (fun p => 0 < p <= 1) ps → 0 <= - sum_list_R (map (fun p => p * ln p) ps).
Proof.
  induction 1 as [|p ps [Hp Hp1] _ IH]; simpl; [lra|].
  fold (sum_list_R (map (fun p => p * ln p) ps)).
  pose proof (ln_le_minus_1 p Hp). nra.
Qed.

Lemma shannon_entropy_base_e (ps : list R) :
  shannon_entropy ps = - sum_list_R (map (fun p => p * ln p) ps) / ln 2.
Proof.
  unfold shannon_entropy.
  assert (sum_list_R (map (fun p => p * (ln p / ln 2)) ps)
          = sum_list_R (map (fun p => p * ln p) ps) / ln 2) as ->; [|lra].
  induction ps as [|p ps IH]; simpl; [lra|].
  fold (sum_list_R (map (fun p => p * (ln p / ln 2)) ps)).
  fold (sum_list_R (map (fun p => p * ln p) ps)).
  rewrite IH. lra.
Qed.

(** The entropy of the distribution of positive counts lies between 0 and
    the logarithm of their number. *)
Lemma shannon_entropy_bounds (cs : list R) :
  cs ≠ [] → Forall (fun c => 0 < c) cs →
  0 <= shannon_entropy (map (fun c => c / sum_list_R cs) cs)
    <= ln (INR (List.length cs)) / ln 2.
Proof.
  intros Hne Hpos.
  pose proof (sum_list_R_pos cs Hne Hpos) as HT.
  set (T := sum_list_R cs) in *.
  set (ps := map (fun c => c / T) cs).
  assert (Forall (fun p => 0 < p <= 1) ps) as Hps.
  { apply Forall_forall. intros p Hin. apply list_elem_of_fmap in Hin as (c & -> & Hin).
    pose proof (elem_le_sum_list_R cs c Hpos Hin) as Hle. fold T in Hle.
    rewrite Forall_forall in Hpos. specialize (Hpos c Hin). simpl in Hpos.
    split.
    - apply Rdiv_lt_0_compat; done.
    - apply (Rmult_le_reg_r T); [done|].
      replace (c / T * T) with c by (field; lra). lra. }
  assert (sum_list_R ps = 1) as Hsum.
  { unfold ps. rewrite sum_list_R_scaled. fold T. field. lra. }
  assert (0 < INR (List.length cs)) as HN.
  { apply lt_0_INR. destruct cs; [done|simpl; lia]. }
  assert (List.length ps = List.length cs) as Hlen by (unfold ps; apply length_map).
  pose proof ln_lt_2 as Hln2.
  rewrite shannon_entropy_base_e. split.
  - apply Rmult_le_pos; [by apply entropy_sum_lower|].
    apply Rlt_le, Rinv_0_lt_compat. lra.
  - apply Rmult_le_compat_r; [apply Rlt_le, Rinv_0_lt_compat; lra|].
    pose proof (entropy_sum_upper (INR (List.length cs)) ps HN) as Hup.
    rewrite Hsum, Hlen in Hup.
    replace (INR (List.length cs) / INR (List.length cs)) with 1 in Hup by (field; lra).
    assert (Forall (fun p => 0 < p) ps) as Hps'.
    { eapply Forall_impl; [exact Hps|]. simpl. intros; lra. }
    specialize (Hup Hps'). lra.
Qed.

(** *** The program computes that entropy *)

Lemma foldl_counts (values : list (Z * Z)) (acc : R) :
  foldl (fun acc '(n_pseudo_cams, _) => acc + IZR n_pseudo_cams) acc values
  = acc + sum_list_R (map (fun v : Z * Z => IZR v.1) values).
Proof.
  revert acc. induction values as [|[n t] values IH]; intros acc; simpl; [lra|].
  rewrite IH. fold (sum_list_R (map (fun v : Z * Z => IZR v.1) values)). lra.
Qed.

Lemma n_total_cams_spec m :
  foldl (fun acc '(n_pseudo_cams, _) => acc + IZR n_pseudo_cams) 0 (map_to_list m).*2
  = sum_list_R (cam_counts m).
Proof.
  rewrite foldl_counts, Rplus_0_l. unfold cam_counts. f_equal.
  induction (map_to_list m) as [|[k [n t]] l IH]; simpl; [done|]. by rewrite <- IH.
Qed.

Lemma pseudo_prob_dict_spec (entries : list (Z * (Z * Z))) (total : R) :
  total ≠ 0 →
  mapM (fun '(key, (n_pseudo_cams, _)) =>
          prob ← py_truediv (IZR n_pseudo_cams) total; Some (key, prob)) entries
  = Some (map (fun entry : Z * (Z * Z) => (entry.1, IZR entry.2.1 / total)) entries).
Proof.
  intros Htotal. induction entries as [|[k [n t]] entries IH]; [done|].
  cbn [mapM map]. rewrite IH. unfold py_truediv.
  destruct (Req_dec_T total 0); [done|]. done.
Qed.

Lemma entropy_loop_spec (probs : list R) (entropy_tmp : R) :
  Forall (fun p => 0 < p) probs →
  entropy_loop probs entropy_tmp
  = Some (entropy_tmp + sum_list_R (map (fun p => p * (ln p / ln 2)) probs)).
Proof.
  intros Hpos. revert entropy_tmp.
  induction Hpos as [|p probs Hp _ IH]; intros entropy_tmp; simpl.
  - f_equal. lra.
  - unfold math_log2. destruct (Rlt_dec 0 p); [|done]. simpl.
    rewrite IH. f_equal.
    fold (sum_list_R (map (fun p => p * (ln p / ln 2)) probs)). lra.
Qed.

Lemma cam_counts_pos m :
  (∀ k n t, m !! k = Some (n, t) → (0 < n)%Z) → Forall (fun c => 0 < c) (cam_counts m).
Proof.
  intros Hpos. unfold cam_counts. apply Forall_forall. intros c Hin.
  apply list_elem_of_fmap in Hin as ([k [n t]] & -> & Hin).
  apply elem_of_map_to_list in Hin. simpl. apply IZR_lt. eauto.
Qed.

Lemma cam_counts_nonempty m : m ≠ ∅ → cam_counts m ≠ [].
Proof.
  intros Hne Hnil. apply Hne. apply map_to_list_empty_iff.
  unfold cam_counts in Hnil. by destruct (map_to_list m).
Qed.

Lemma length_cam_counts m : List.length (cam_counts m) = size m.
Proof. unfold cam_counts. rewrite length_map. apply length_map_to_list. Qed.

(** On a non-empty set with positive counts no operation raises, and the
    result is the Shannon entropy of the count distribution. *)
Lemma calculate_entropy_and_eass_spec m :
  m ≠ ∅ → (∀ k n t, m !! k = Some (n, t) → (0 < n)%Z) →
  calculate_entropy_and_eass m
  = Some (shannon_entropy (map (fun c => c / sum_list_R (cam_counts m)) (cam_counts m))).
Proof.
  intros Hne Hpos. unfold calculate_entropy_and_eass.
  rewrite n_total_cams_spec.
  pose proof (sum_list_R_pos _ (cam_counts_nonempty m Hne) (cam_counts_pos m Hpos)) as HT.
  rewrite pseudo_prob_dict_spec by lra. cbn [mbind option_bind].
  assert ((map (fun entry : Z * (Z * Z) =>
                  (entry.1, IZR entry.2.1 / sum_list_R (cam_counts m))) (map_to_list m)).*2
          = map (fun c => c / sum_list_R (cam_counts m)) (cam_counts m)) as ->.
  { clear HT. set (T := sum_list_R (cam_counts m)). clearbody T. unfold cam_counts.
    induction (map_to_list m) as [|e l IH]; simpl; [done|]. f_equal. exact IH. }
  rewrite entropy_loop_spec.
  - cbn [mbind option_bind]. unfold shannon_entropy. f_equal. lra.
  - apply Forall_forall. intros p Hin. apply list_elem_of_fmap in Hin as (c & -> & Hin).
    pose proof (cam_counts_pos m Hpos) as Hc. rewrite Forall_forall in Hc.
    apply Rdiv_lt_0_compat; [by apply Hc|done].
Qed.



(** *** Scenario C *)

Lemma eass_singleton (pseudo_id n t : Z) :
  (0 < n)%Z → calculate_entropy_and_eass {[pseudo_id := (n, t)]} = Some 0.
Proof.
  intros Hn. apply IZR_lt in Hn.
  unfold calculate_entropy_and_eass. rewrite map_to_list_singleton.
  cbn [fmap list_fmap foldl snd mapM]. rewrite Rplus_0_l.
  unfold py_truediv. destruct (Req_dec_T (IZR n) 0) as [Hz|_]; [lra|].
  cbn [mbind option_bind mret option_ret fmap list_fmap snd entropy_loop].
  replace (IZR n / IZR n) with 1 by (field; lra).
  unfold math_log2. destruct (Rlt_dec 0 1) as [_|H]; [|lra].
  cbn [mbind option_bind]. rewrite ln_1. f_equal. unfold Rdiv. lra.
Qed.

(** C6: with purge threshold 1000 ms, a CAM of one pseudonym at 0 ms
    followed by a CAM of another pseudonym at 2000 ms leaves an anonymity
    set that holds the second pseudonym only; its EASS is 0 and the degree of
    anonymity is the sentinel -1. *)
Theorem scenario_c_purges_first_pseudonym (first second : CAM.t) :
  CAM.timestamp first = 0%Z →
  CAM.timestamp second = 2000%Z →
  CAM.pseudo_id first ≠ CAM.pseudo_id second →
  let anonymity_set := calculate_anonymity_set [first; second] 1000 0 in
  anonymity_set = {[CAM.pseudo_id second := (1%Z, 2000%Z)]}
  ∧ anonymity_set !! CAM.pseudo_id first = None
  ∧ size anonymity_set = 1%nat
  ∧ calculate_entropy_and_eass anonymity_set = Some 0
  ∧ calculate_degree_of_anonymity anonymity_set 0 = Some (-1).
Proof.
  intros Hfirst Hsecond Hne anonymity_set.
  assert (anonymity_set = {[CAM.pseudo_id second := (1%Z, 2000%Z)]}) as ->.
  { unfold anonymity_set, calculate_anonymity_set. cbn [anonymity_loop].
    rewrite Hfirst, Hsecond. cbn [Z.eqb negb andb].
    rewrite lookup_empty, lookup_insert_ne by done. rewrite lookup_empty.
    apply map_eq. intros k. rewrite purge_lookup.
    destruct (decide (k = CAM.pseudo_id second)) as [->|Hk2].
    - rewrite lookup_insert_eq, lookup_singleton_eq. done.
    - rewrite lookup_insert_ne, lookup_singleton_ne by done.
      destruct (decide (k = CAM.pseudo_id first)) as [->|Hk1].
      + rewrite lookup_insert_eq. done.
      + rewrite lookup_insert_ne, lookup_empty by done. done. }
  split_and!.
  - done.
  - by apply lookup_singleton_ne.
  - apply map_size_singleton.
  - by apply eass_singleton.
  - unfold calculate_degree_of_anonymity. rewrite map_size_singleton. done.
Qed.

Lemma scenario_c_purges_first_pseudonym_witness :
  calculate_anonymity_set [Examples.scenario_c_first; Examples.scenario_c_second] 1000 0
    = {[12%Z := (1%Z, 2000%Z)]}
  ∧ calculate_entropy_and_eass
      (calculate_anonymity_set [Examples.scenario_c_first; Examples.scenario_c_second] 1000 0)
    = Some 0
  ∧ calculate_degree_of_anonymity
      (calculate_anonymity_set [Examples.scenario_c_first; Examples.scenario_c_second] 1000 0)
      0
    = Some (-1).
Proof.
  destruct (scenario_c_purges_first_pseudonym
              Examples.scenario_c_first Examples.scenario_c_second)
    as (Hset & _ & _ & Heass & Hdeg); [reflexivity|reflexivity|discriminate|].
  split_and!; [exact Hset|exact Heass|exact Hdeg].
Defined.
End Anonymity.

(** ** The bounds in binary64 *)

Section Binary64Bounds.
Import PrimFloat.

End Binary64Bounds.

(** ** The pseudonym consumption *)

Section Consumption.
Implicit Types (values : list R) (cams : list CAM.t).
Local Open Scope R_scope.

Lemma length_R_insert (x : R) values :
  List.length (R_insert x values) = S (List.length values).
Proof.
  induction values as [|y values IH]; simpl; [done|].
  destruct (Rle_dec x y); simpl; [done|]. by rewrite IH.
Qed.

Lemma length_R_sorted values : List.length (R_sorted values) = List.length values.
Proof.
  unfold R_sorted. induction values as [|x values IH]; cbn [foldr]; [done|].
  rewrite length_R_insert. by rewrite IH.
Qed.

Lemma median_is_Some values : values ≠ [] → is_Some (median values).
Proof.
  intros Hne. unfold median. rewrite length_R_sorted.
  destruct values as [|x values]; [done|]. simpl List.length.
  destruct (Nat.eqb_spec (S (List.length values)) 0); [lia|].
  destruct (S (List.length values) mod 2 =? 1)%nat; eauto.
Qed.

(** The five statistics are computed exactly when there are at least two
    rates. *)
Lemma calculate_characteristics_None values :
  calculate_characteristics values = None ↔ (List.length values < 2)%nat.
Proof.
  unfold calculate_characteristics.
  destruct values as [|x [|y values]].
  - simpl. split; [lia|done].
  - split; [simpl; lia|]. intros _.
    destruct (median_is_Some [x]) as [med ->]; [done|]. done.
  - split; [|simpl; lia]. intros H. exfalso.
    destruct (median_is_Some (x :: y :: values)) as [med Hmed]; [done|].
    revert H. cbn [py_min py_max mbind option_bind]. rewrite Hmed.
    cbn [mbind option_bind]. unfold mean, stdev. simpl. done.
Qed.

(** A standard deviation of zero makes the fifth [print] raise. *)
Lemma print_characteristics_zero_std (s : consumption_stats) :
  std_pseudo_cons s = 0 → print_characteristics s = None.
Proof.
  intros Hstd. unfold print_characteristics, py_truediv. rewrite Hstd.
  destruct (Req_dec_T (min_pseudo_cons s) 0); [done|].
  destruct (Req_dec_T (max_pseudo_cons s) 0); [done|].
  destruct (Req_dec_T (med_pseudo_cons s) 0); [done|].
  destruct (Req_dec_T (mean_pseudo_cons s) 0); [done|].
  destruct (Req_dec_T 0 0); [done|lra].
Qed.

Lemma calculate_characteristics_pair (r : R) :
  calculate_characteristics [r; r] = Some (mk_consumption_stats r r r r 0).
Proof.
  unfold calculate_characteristics.
  cbn [py_min py_max foldl mbind option_bind].
  assert (median [r; r] = Some r) as ->.
  { unfold median, R_sorted. cbn [foldr R_insert].
    destruct (Rle_dec r r); simpl; f_equal; lra. }
  assert (mean [r; r] = Some r) as ->.
  { unfold mean, R_sum. simpl. f_equal. lra. }
  assert (stdev [r; r] = Some 0) as ->.
  { unfold stdev, R_sum. simpl. f_equal.
    replace ((0 + (r - (0 + r + r) / (1 + 1))² + (r - (0 + r + r) / (1 + 1))²) / 1)
      with 0 by (unfold Rsqr; field).
    apply sqrt_0. }
  cbn [mbind option_bind].
  rewrite Rmin_left, Rmax_left by lra. done.
Qed.

(** *** The rates *)

(** The pseudonyms recorded for a permanent id are the pseudonyms of the
    CAMs that carry it. *)
Lemma pseudonyms_per_id_lookup cams (static_id : Z) :
  pseudonyms_per_id cams !! static_id
  = if decide (static_id ∈ map CAM.static_id cams)
    then Some (list_to_set
                 (map CAM.pseudo_id (filter (fun c => CAM.static_id c = static_id) cams)))
    else None.
Proof.
  unfold pseudonyms_per_id.
  induction cams as [|cam cams IH] using rev_ind.
  - cbn [foldl map]. rewrite lookup_empty.
    destruct (decide (static_id ∈ [])) as [H|]; [by apply elem_of_nil in H|done].
  - rewrite foldl_app. cbn [foldl]. rewrite map_app, filter_app, map_app, list_to_set_app_L.
    cbn [map].
    assert (static_id ∈ map CAM.static_id cams ++ [CAM.static_id cam]
            ↔ static_id ∈ map CAM.static_id cams ∨ static_id = CAM.static_id cam) as Happ
      by (rewrite elem_of_app, list_elem_of_singleton; done).
    destruct (decide (CAM.static_id cam = static_id)) as [<-|Hne].
    + rewrite lookup_insert_eq, IH.
      rewrite filter_cons_True by done. rewrite filter_nil. cbn [map list_to_set].
      rewrite (right_id_L ∅ (∪)).
      destruct (decide (CAM.static_id cam ∈ map CAM.static_id cams ++ [CAM.static_id cam]))
        as [_|Hout']; [|exfalso; apply Hout', Happ; by right].
      f_equal.
      destruct (decide (CAM.static_id cam ∈ map CAM.static_id cams)) as [Hin|Hout]; [done|].
      assert (filter (fun c => CAM.static_id c = CAM.static_id cam) cams = []) as ->.
      { clear -Hout. induction cams as [|c cams IH]; [done|].
        rewrite filter_cons. destruct (decide (CAM.static_id c = CAM.static_id cam)) as [Heq|_].
        - exfalso. apply Hout. rewrite <- Heq. left.
        - apply IH. intros Hin. apply Hout. by right. }
      done.
    + rewrite lookup_insert_ne, IH by done.
      rewrite filter_cons_False by done. rewrite filter_nil. cbn [map list_to_set].
      rewrite (right_id_L ∅ (∪)).
      destruct (decide (static_id ∈ map CAM.static_id cams)) as [Hin|Hout],
               (decide (static_id ∈ map CAM.static_id cams ++ [CAM.static_id cam]))
                 as [Hin'|Hout']; try done.
      * exfalso. apply Hout', Happ. by left.
      * exfalso. apply Happ in Hin' as [?|?]; [done|]. by apply Hne.
Qed.

(** There is one rate per distinct permanent id. *)
Lemma size_pseudonyms_per_id cams :
  size (pseudonyms_per_id cams) = distinct_count (map CAM.static_id cams).
Proof.
  unfold distinct_count. rewrite <- size_dom. f_equal.
  apply set_eq. intros static_id.
  rewrite elem_of_dom, pseudonyms_per_id_lookup, elem_of_list_to_set.
  destruct (decide (static_id ∈ map CAM.static_id cams)); split; done.
Qed.

(** X18: With a non-zero simulated time every permanent id gets the number of
    its distinct pseudonyms divided by the simulated time, and computing the
    five statistics of the rates fails exactly when fewer than two distinct
    permanent ids are present. *)
Lemma consumption_rates_and_characteristics cams (sim_time : R) :
  sim_time ≠ 0 →
  ∃ pseudonym_consumption,
    calculate_pseudonym_consumption cams sim_time = Some pseudonym_consumption
    ∧ (∀ static_id,
         pseudonym_consumption !! static_id
         = if decide (static_id ∈ map CAM.static_id cams)
           then Some (INR (distinct_count
                             (map CAM.pseudo_id
                                (filter (fun c => CAM.static_id c = static_id) cams)))
                      / sim_time)
           else None)
    ∧ (calculate_characteristics (map_to_list pseudonym_consumption).*2 = None
       ↔ (distinct_count (map CAM.static_id cams) < 2)%nat).
Proof.
  intros Hsim. unfold calculate_pseudonym_consumption.
  destruct (Req_dec_T sim_time 0) as [?|_]; [done|].
  eexists. split; [done|]. split.
  - intros static_id. rewrite lookup_fmap, pseudonyms_per_id_lookup.
    by destruct (decide (static_id ∈ map CAM.static_id cams)).
  - rewrite calculate_characteristics_None, length_fmap, length_map_to_list, map_size_fmap.
    by rewrite size_pseudonyms_per_id.
Qed.

(** C9 at [Examples.one_pseudonym_each], with a simulated time of 100 s:
    two distinct permanent ids are present and both rates are 1/100; the
    five statistics are computed, the standard deviation is 0, and
    [write_stats] raises. *)
Theorem write_stats_raises_on_equal_rates :
  distinct_count (map CAM.static_id Examples.one_pseudonym_each) = 2%nat
  ∧ ∃ pseudonym_consumption,
      calculate_pseudonym_consumption Examples.one_pseudonym_each 100
        = Some pseudonym_consumption
      ∧ size pseudonym_consumption = 2%nat
      ∧ pseudonym_consumption !! 1%Z = Some (1 / 100)
      ∧ pseudonym_consumption !! 2%Z = Some (1 / 100)
      ∧ calculate_characteristics (map_to_list pseudonym_consumption).*2
        = Some (mk_consumption_stats (1 / 100) (1 / 100) (1 / 100) (1 / 100) 0)
      ∧ write_stats pseudonym_consumption = None.
Proof.
  split; [reflexivity|].
  assert (pseudonyms_per_id Examples.one_pseudonym_each
          = <[1%Z := {[7%Z]}]> (<[2%Z := {[9%Z]}]> ∅)) as Hper by (vm_compute; reflexivity).
  assert (∀ r : R, (map_to_list (<[1%Z := r]> (<[2%Z := r]> (∅ : gmap Z R)))).*2 = [r; r])
    as Hvalues by (intros r; vm_compute; reflexivity).
  exists (<[1%Z := 1 / 100]> (<[2%Z := 1 / 100]> ∅)).
  split_and!.
  - unfold calculate_pseudonym_consumption.
    destruct (Req_dec_T 100 0) as [H|_]; [lra|].
    rewrite Hper, !fmap_insert, fmap_empty.
    change (size ({[7%Z]} : gset Z)) with 1%nat.
    change (size ({[9%Z]} : gset Z)) with 1%nat. done.
  - generalize (1 / 100). intros r. vm_compute. reflexivity.
  - done.
  - done.
  - rewrite Hvalues. apply calculate_characteristics_pair.
  - unfold write_stats. rewrite Hvalues, calculate_characteristics_pair.
    cbn [mbind option_bind]. rewrite print_characteristics_zero_std; done.
Qed.
End Consumption.

(* ===================================================================== *)
(** * Part IV: further properties of the program *)
(* ===================================================================== *)

(** ** The ground-truth tracks of [build_routes] *)

Section GroundTruth.
Implicit Types (cam : CAM.t) (cams : list CAM.t) (ids : list Z)
  (static_vehicles : list VehicleConstantId.t) (tracks : list VehicleDynamicId.t).

Lemma build_routes_step_excluded vehicles static_vehicles tracks cam :
  excluded vehicles cam = true →
  build_routes_step vehicles (static_vehicles, tracks) cam = (static_vehicles, tracks).
Proof. intros H. unfold build_routes_step. by rewrite H. Qed.

Lemma build_routes_step_processed vehicles static_vehicles tracks cam :
  excluded vehicles cam = false →
  build_routes_step vehicles (static_vehicles, tracks) cam
  = (from_option (fun new => (match_static_vehicle cam static_vehicles).1 ++ [new])
       (match_static_vehicle cam static_vehicles).1
       (match_static_vehicle cam static_vehicles).2,
     from_option (fun new => (match_dynamic_vehicle cam tracks).1 ++ [new])
       (match_dynamic_vehicle cam tracks).1
       (match_dynamic_vehicle cam tracks).2).
Proof.
  intros H. unfold build_routes_step. rewrite H.
  destruct (match_static_vehicle cam static_vehicles) as [s [ns|]],
           (match_dynamic_vehicle cam tracks) as [d [nd|]]; done.
Qed.

Lemma in_order_of_first_appearance_snoc ids (id : Z) :
  in_order_of_first_appearance (ids ++ [id])
  = if decide (id ∈ ids) then in_order_of_first_appearance ids
    else in_order_of_first_appearance ids ++ [id].
Proof.
  unfold in_order_of_first_appearance. rewrite reverse_snoc. cbn [remove_dups].
  destruct (decide_rel elem_of id (reverse ids)) as [Hin|Hout],
           (decide (id ∈ ids)) as [Hin'|Hout']; try done.
  - exfalso. apply Hout'. by apply elem_of_reverse.
  - exfalso. apply Hout. by apply elem_of_reverse.
  - by rewrite reverse_cons.
Qed.

Lemma elem_of_in_order_of_first_appearance ids (id : Z) :
  id ∈ in_order_of_first_appearance ids ↔ id ∈ ids.
Proof.
  unfold in_order_of_first_appearance.
  by rewrite elem_of_reverse, elem_of_remove_dups, elem_of_reverse.
Qed.

Lemma NoDup_in_order_of_first_appearance ids : NoDup (in_order_of_first_appearance ids).
Proof.
  unfold in_order_of_first_appearance. rewrite reverse_Permutation.
  apply NoDup_remove_dups.
Qed.

Lemma cams_of_vehicle_snoc (static_id : Z) cams cam :
  cams_of_vehicle static_id (cams ++ [cam])
  = if decide (CAM.static_id cam = static_id)
    then cams_of_vehicle static_id cams ++ [cam]
    else cams_of_vehicle static_id cams.
Proof.
  unfold cams_of_vehicle. rewrite filter_app.
  destruct (decide (CAM.static_id cam = static_id)) as [H|H].
  - by rewrite filter_cons_True.
  - rewrite filter_cons_False by done. by rewrite filter_nil, app_nil_r.
Qed.

Lemma cams_of_vehicle_nonempty (static_id : Z) cams :
  static_id ∈ map CAM.static_id cams → cams_of_vehicle static_id cams ≠ [].
Proof.
  intros Hin Hnil. apply list_elem_of_fmap in Hin as (cam & -> & Hin).
  assert (cam ∈ cams_of_vehicle (CAM.static_id cam) cams) as H
    by (by apply list_elem_of_filter).
  rewrite Hnil in H. by apply elem_of_nil in H.
Qed.

Lemma ground_truth_track_other (static_id : Z) cams cam :
  CAM.static_id cam ≠ static_id →
  ground_truth_track static_id (cams ++ [cam]) = ground_truth_track static_id cams.
Proof.
  intros H. unfold ground_truth_track. rewrite cams_of_vehicle_snoc.
  by rewrite decide_False.
Qed.

(** A CAM of a known vehicle extends its track. *)
Lemma try_update_parameters_own cams cam :
  CAM.static_id cam ∈ map CAM.static_id cams →
  VehicleConstantId.try_update_parameters (ground_truth_track (CAM.static_id cam) cams)
    (CAM.static_id cam) (CAM.longitude cam) (CAM.latitude cam) (CAM.timestamp cam)
  = (true, ground_truth_track (CAM.static_id cam) (cams ++ [cam])).
Proof.
  intros Hin. apply cams_of_vehicle_nonempty in Hin.
  unfold VehicleConstantId.try_update_parameters, ground_truth_track.
  rewrite cams_of_vehicle_snoc, decide_True by done.
  cbn [VehicleConstantId.static_id VehicleConstantId.longitude VehicleConstantId.latitude
       VehicleConstantId.timestamps VehicleConstantId.duration].
  rewrite Z.eqb_refl. cbn [negb]. rewrite !map_app. cbn [map].
  rewrite sum_of_deltas_snoc; [done|].
  by destruct (cams_of_vehicle (CAM.static_id cam) cams).
Qed.

Lemma try_update_parameters_other (static_id : Z) cams cam :
  CAM.static_id cam ≠ static_id →
  VehicleConstantId.try_update_parameters (ground_truth_track static_id cams)
    (CAM.static_id cam) (CAM.longitude cam) (CAM.latitude cam) (CAM.timestamp cam)
  = (false, ground_truth_track static_id (cams ++ [cam])).
Proof.
  intros H. rewrite ground_truth_track_other by done.
  unfold VehicleConstantId.try_update_parameters. cbn [ground_truth_track VehicleConstantId.static_id].
  destruct (Z.eqb_spec (CAM.static_id cam) static_id); done.
Qed.

Lemma match_static_loop_tracks ids cams cam :
  NoDup ids → (∀ id, id ∈ ids → id ∈ map CAM.static_id cams) →
  match_static_loop cam (map (fun id => ground_truth_track id cams) ids)
  = (bool_decide (CAM.static_id cam ∈ ids),
     map (fun id => ground_truth_track id (cams ++ [cam])) ids).
Proof.
  induction ids as [|id ids IH]; intros Hnd Hin; [done|].
  apply NoDup_cons in Hnd as [Hid Hnd].
  cbn [map match_static_loop].
  destruct (decide (CAM.static_id cam = id)) as [<-|Hne].
  - rewrite try_update_parameters_own by (apply Hin; left).
    rewrite bool_decide_eq_true_2 by left. do 2 f_equal.
    apply map_ext_in. intros id' Hid'. apply list_elem_of_In in Hid'.
    symmetry. apply ground_truth_track_other. by intros <-.
  - rewrite try_update_parameters_other by done.
    rewrite IH; [|done|intros; apply Hin; by right].
    f_equal. apply bool_decide_ext. rewrite elem_of_cons. naive_solver.
Qed.

Lemma build_routes_static_vehicles cams vehicles :
  (build_routes cams vehicles).1
  = map (fun id => ground_truth_track id (processed_cams vehicles cams))
        (in_order_of_first_appearance (map CAM.static_id (processed_cams vehicles cams))).
Proof.
  unfold build_routes.
  induction cams as [|cam cams IH] using rev_ind; [done|].
  rewrite foldl_app. cbn [foldl].
  destruct (foldl (build_routes_step vehicles) ([], []) cams) as [static_vehicles tracks].
  cbn [fst] in IH. unfold processed_cams. rewrite filter_app. fold (processed_cams vehicles cams).
  destruct (excluded vehicles cam) eqn:Hex.
  - rewrite build_routes_step_excluded by done.
    rewrite filter_cons_False by (by rewrite Hex). by rewrite filter_nil, app_nil_r.
  - rewrite build_routes_step_processed by done. cbn [fst].
    rewrite filter_cons_True by done. rewrite filter_nil.
    set (done_cams := processed_cams vehicles cams) in *.
    rewrite map_app. cbn [map]. rewrite in_order_of_first_appearance_snoc.
    unfold match_static_vehicle. rewrite IH.
    rewrite match_static_loop_tracks;
      [|apply NoDup_in_order_of_first_appearance
       |intros id; apply elem_of_in_order_of_first_appearance].
    rewrite (bool_decide_ext _ (CAM.static_id cam ∈ map CAM.static_id done_cams))
      by apply elem_of_in_order_of_first_appearance.
    destruct (decide (CAM.static_id cam ∈ map CAM.static_id done_cams)) as [Hin|Hout].
    + rewrite bool_decide_eq_true_2 by done. done.
    + rewrite bool_decide_eq_false_2 by done. cbn [fst snd from_option].
      rewrite map_app. cbn [map]. f_equal.
      unfold VehicleConstantId.init, ground_truth_track. rewrite cams_of_vehicle_snoc.
      rewrite decide_True by done.
      assert (cams_of_vehicle (CAM.static_id cam) done_cams = []) as ->.
      { destruct (cams_of_vehicle (CAM.static_id cam) done_cams) as [|c l] eqn:E; [done|].
        exfalso. apply Hout.
        assert (c ∈ cams_of_vehicle (CAM.static_id cam) done_cams) as Hc by (rewrite E; left).
        apply list_elem_of_filter in Hc as [<- Hc].
        by apply (list_elem_of_fmap_2 CAM.static_id). }
      done.
Qed.

(** X1: The ground-truth tracks [build_routes] returns: one per distinct
    permanent id of the processed CAMs, in the order in which the ids first
    appear; each holds the positions and timestamps of its vehicle's CAMs in
    stream order, and the sum of their consecutive timestamp differences. *)
Theorem build_routes_ground_truth cams vehicles :
  (build_routes cams vehicles).1
  = map (fun id => ground_truth_track id (processed_cams vehicles cams))
        (in_order_of_first_appearance (map CAM.static_id (processed_cams vehicles cams))).
Proof. apply build_routes_static_vehicles. Qed.
End GroundTruth.

(** ** The candidate tracks of [build_routes] *)

Section CandidateTracks.
Implicit Types (cam : CAM.t) (cams : list CAM.t) (v w : VehicleDynamicId.t)
  (tracks : list VehicleDynamicId.t) (groups : list (CAM.t * list CAM.t)).

Lemma match_dynamic_vehicle_cases cam tracks :
  (∃ (i : nat) v,
     tracks !! i = Some v
     ∧ dynamic_is_known cam v = true
     ∧ Forall (fun w => dynamic_is_known cam w = false) (take i tracks)
     ∧ match_dynamic_vehicle cam tracks
       = (<[i := VehicleDynamicId.update_parameters v cam]> tracks, None))
  ∨ (Forall (fun w => dynamic_is_known cam w = false) tracks
     ∧ match_dynamic_vehicle cam tracks = (tracks, Some (VehicleDynamicId.init cam))).
Proof.
  assert ((∃ (i : nat) v, tracks !! i = Some v ∧ dynamic_is_known cam v = true
             ∧ Forall (fun w => dynamic_is_known cam w = false) (take i tracks))
          ∨ Forall (fun w => dynamic_is_known cam w = false) tracks) as [(i & v & Hi & Hv & Hb)|Hnone].
  { induction tracks as [|w tracks IH]; [right; constructor|].
    destruct (dynamic_is_known cam w) eqn:Hw.
    - left. exists 0%nat, w. split_and!; [done|done|constructor].
    - destruct IH as [(i & v & Hi & Hv & Hb)|Hnone].
      + left. exists (S i), v. split_and!; [done|done|by constructor].
      + right. by constructor. }
  - left. exists i, v. split_and!; try done. by apply match_dynamic_vehicle_first.
  - right. split; [done|]. by apply match_dynamic_vehicle_none.
Qed.

(** X2: [match_dynamic_vehicle] follows a first-match policy: the first track,
    in list order, that passes the identity test or the shape and continuity
    tests is extended by the CAM, every other track is left as it is and no
    track is created; when no track passes, all tracks are left as they are
    and a track made from the CAM alone is returned. *)
Theorem match_dynamic_vehicle_first_match cam tracks :
  match match_dynamic_vehicle cam tracks with
  | (tracks', None) =>
      ∃ (i : nat) v,
        tracks !! i = Some v
        ∧ dynamic_is_known cam v = true
        ∧ (∀ (j : nat) w, (j < i)%nat → tracks !! j = Some w → dynamic_is_known cam w = false)
        ∧ tracks' = <[i := VehicleDynamicId.update_parameters v cam]> tracks
  | (tracks', Some new) =>
      (∀ w, w ∈ tracks → dynamic_is_known cam w = false)
      ∧ tracks' = tracks ∧ new = VehicleDynamicId.init cam
  end.
Proof.
  destruct (match_dynamic_vehicle_cases cam tracks)
    as [(i & v & Hi & Hv & Hb & ->)|[Hnone ->]].
  - exists i, v. split_and!; try done.
    intros j w Hj Hw. rewrite Forall_forall in Hb. apply Hb.
    apply list_elem_of_lookup. exists j. rewrite lookup_take_lt by done. done.
  - split_and!; try done. by apply Forall_forall.
Qed.

(** *** The tracks partition the processed CAMs *)

Lemma candidate_track_of_snoc (first : CAM.t) (others : list CAM.t) cam :
  candidate_track_of first (others ++ [cam])
  = VehicleDynamicId.update_parameters (candidate_track_of first others) cam.
Proof. unfold candidate_track_of. by rewrite foldl_app. Qed.

Lemma concat_insert_snoc {A} (ls : list (list A)) (i : nat) (l : list A) (x : A) :
  ls !! i = Some l → concat (<[i := l ++ [x]]> ls) ≡ₚ concat ls ++ [x].
Proof.
  revert i. induction ls as [|l' ls IH]; intros [|i] Hi; simplify_eq/=.
  - by rewrite <- !(assoc_L (++)), (Permutation_app_comm [x]).
  - rewrite IH by done. by rewrite (assoc_L (++)).
Qed.

(** One step of [build_routes] on the candidate tracks. *)
Lemma candidate_step_groups groups cam (done_cams : list CAM.t) :
  concat (map (fun g => g.1 :: g.2) groups) ≡ₚ done_cams →
  Forall (fun g => (g.1 :: g.2) `sublist_of` done_cams) groups →
  ∃ groups',
    from_option
      (fun new => (match_dynamic_vehicle cam
                     (map (fun g => candidate_track_of g.1 g.2) groups)).1 ++ [new])
      (match_dynamic_vehicle cam (map (fun g => candidate_track_of g.1 g.2) groups)).1
      (match_dynamic_vehicle cam (map (fun g => candidate_track_of g.1 g.2) groups)).2
    = map (fun g => candidate_track_of g.1 g.2) groups'
    ∧ concat (map (fun g => g.1 :: g.2) groups') ≡ₚ done_cams ++ [cam]
    ∧ Forall (fun g => (g.1 :: g.2) `sublist_of` (done_cams ++ [cam])) groups'.
Proof.
  intros Hperm Hsub.
  assert (Forall (fun g => (g.1 :: g.2) `sublist_of` (done_cams ++ [cam])) groups) as Hsub'.
  { eapply Forall_impl; [exact Hsub|]. intros g Hg. by apply sublist_inserts_r. }
  destruct (match_dynamic_vehicle_cases cam (map (fun g => candidate_track_of g.1 g.2) groups))
    as [(i & v & Hi & _ & _ & ->)|[_ ->]]; cbn [fst snd from_option].
  - change (map (fun g => candidate_track_of g.1 g.2) groups)
      with ((fun g => candidate_track_of g.1 g.2) <$> groups) in Hi.
    apply list_lookup_fmap_Some in Hi as (g & -> & Hg).
    exists (<[i := (g.1, g.2 ++ [cam])]> groups). split_and!.
    + change (map (fun g => candidate_track_of g.1 g.2))
        with (fmap (M := list) (fun g : CAM.t * list CAM.t => candidate_track_of g.1 g.2)).
      rewrite list_fmap_insert. cbn [fst snd]. by rewrite candidate_track_of_snoc.
    + change (map (fun g : CAM.t * list CAM.t => g.1 :: g.2))
        with (fmap (M := list) (fun g : CAM.t * list CAM.t => g.1 :: g.2)) in *.
      rewrite list_fmap_insert. cbn [fst snd].
      rewrite (concat_insert_snoc _ i (g.1 :: g.2) cam); [by rewrite Hperm|].
      by rewrite list_lookup_fmap, Hg.
    + apply Forall_insert; [done|]. cbn [fst snd].
      rewrite Forall_forall in Hsub.
      apply (sublist_app (g.1 :: g.2) done_cams [cam] [cam]); [|done].
      apply Hsub. by eapply list_elem_of_lookup_2.
  - exists (groups ++ [(cam, [])]). split_and!.
    + by rewrite map_app.
    + rewrite map_app, concat_app. cbn. by rewrite Hperm.
    + apply Forall_app. split; [done|]. constructor; [|constructor].
      cbn [fst snd]. by apply sublist_inserts_l.
Qed.

Lemma build_routes_tracks_groups cams vehicles :
  ∃ groups,
    (build_routes cams vehicles).2 = map (fun g => candidate_track_of g.1 g.2) groups
    ∧ concat (map (fun g => g.1 :: g.2) groups) ≡ₚ processed_cams vehicles cams
    ∧ Forall (fun g => (g.1 :: g.2) `sublist_of` processed_cams vehicles cams) groups.
Proof.
  unfold build_routes.
  induction cams as [|cam cams IH] using rev_ind.
  - exists []. split_and!; [done|done|constructor].
  - rewrite foldl_app. cbn [foldl].
    destruct (foldl (build_routes_step vehicles) ([], []) cams) as [static_vehicles tracks].
    destruct IH as (groups & Htracks & Hperm & Hsub). cbn [snd] in Htracks. subst tracks.
    unfold processed_cams in *. rewrite filter_app.
    destruct (excluded vehicles cam) eqn:Hex.
    + rewrite build_routes_step_excluded by done.
      rewrite filter_cons_False by (by rewrite Hex). rewrite filter_nil, app_nil_r.
      by exists groups.
    + rewrite build_routes_step_processed by done. cbn [snd].
      rewrite filter_cons_True by done. rewrite filter_nil.
      by apply candidate_step_groups.
Qed.

(** X3: The candidate tracks [build_routes] returns partition the processed
    CAMs: every track is created from one CAM and extended by later CAMs in
    stream order, and every processed CAM went into exactly one track. *)
Theorem build_routes_candidate_partition cams vehicles :
  ∃ groups,
    (build_routes cams vehicles).2 = map (fun g => candidate_track_of g.1 g.2) groups
    ∧ concat (map (fun g => g.1 :: g.2) groups) ≡ₚ processed_cams vehicles cams
    ∧ Forall (fun g => (g.1 :: g.2) `sublist_of` processed_cams vehicles cams) groups.
Proof. apply build_routes_tracks_groups. Qed.

(** *** Tracks are only ever extended *)

Lemma track_continues_refl v : track_continues v v.
Proof. unfold track_continues. split_and!; done. Qed.

Lemma track_continues_update v w cam :
  track_continues v w → track_continues v (VehicleDynamicId.update_parameters w cam).
Proof.
  unfold track_continues. intros (?&?&?&?&?&?&?&?&?). cbn.
  split_and!; try done; by apply prefix_app_r.
Qed.

Lemma candidate_step_continues cam tracks (i : nat) v :
  tracks !! i = Some v →
  ∃ w,
    from_option (fun new => (match_dynamic_vehicle cam tracks).1 ++ [new])
      (match_dynamic_vehicle cam tracks).1 (match_dynamic_vehicle cam tracks).2 !! i = Some w
    ∧ track_continues v w.
Proof.
  intros Hi.
  destruct (match_dynamic_vehicle_cases cam tracks)
    as [(j & v' & Hj & _ & _ & ->)|[_ ->]]; cbn [fst snd from_option].
  - destruct (decide (i = j)) as [->|Hne].
    + simplify_eq. eexists. split.
      * apply list_lookup_insert_eq. by eapply lookup_lt_Some.
      * apply track_continues_update, track_continues_refl.
    + exists v. rewrite list_lookup_insert_ne by done. split; [done|apply track_continues_refl].
  - exists v. split; [|apply track_continues_refl]. by apply lookup_app_l_Some.
Qed.

(** X4: Processing more CAMs never removes, reorders or rewrites a candidate
    track: the track at each index keeps its permanent id, width and length,
    and each of its lists only grows at the end. *)
Theorem build_routes_tracks_append_only cams more_cams vehicles (i : nat) v :
  (build_routes cams vehicles).2 !! i = Some v →
  ∃ w, (build_routes (cams ++ more_cams) vehicles).2 !! i = Some w ∧ track_continues v w.
Proof.
  intros Hi. unfold build_routes in *.
  induction more_cams as [|cam more_cams IH] using rev_ind.
  - rewrite app_nil_r. exists v. split; [done|apply track_continues_refl].
  - destruct IH as (w & Hw & Hvw).
    rewrite (assoc_L (++)), foldl_app. cbn [foldl].
    destruct (foldl (build_routes_step vehicles) ([], []) (cams ++ more_cams))
      as [static_vehicles tracks].
    cbn [snd] in Hw.
    destruct (excluded vehicles cam) eqn:Hex.
    + rewrite build_routes_step_excluded by done. by exists w.
    + rewrite build_routes_step_processed by done. cbn [snd].
      destruct (candidate_step_continues cam tracks i w Hw) as (w' & Hw' & Hww').
      exists w'. split; [done|].
      destruct Hvw as (?&?&?&?&?&?&?&?&?), Hww' as (?&?&?&?&?&?&?&?&?).
      unfold track_continues. split_and!; try congruence; by etrans.
Qed.

Lemma build_routes_tracks_append_only_witness :
  ∃ w, (build_routes ([Examples.first_of_vehicle_1] ++ [Examples.first_of_vehicle_2]) None).2
         !! 0%nat = Some w
       ∧ track_continues Examples.track_of_vehicle_1 w.
Proof.
  apply (build_routes_tracks_append_only [Examples.first_of_vehicle_1]
           [Examples.first_of_vehicle_2] None 0 Examples.track_of_vehicle_1).
  reflexivity.
Defined.
End CandidateTracks.

(** ** The vehicle traces of [get_vehicle_traces] *)

Section VehicleTraces.
Implicit Types (cam : CAM.t) (cams : list CAM.t) (vehicle_trace : VehicleTrace.t)
  (original_trace : VehicleConstantId.t) (tracks : list VehicleDynamicId.t)
  (static_vehicles : list VehicleConstantId.t).

Lemma zip_positions_of_cams cams :
  zip_positions (map CAM.longitude cams) (map CAM.latitude cams) (map CAM.timestamp cams)
  = map position_of_cam cams.
Proof. induction cams as [|cam cams IH]; simpl; [done|]. by rewrite IH. Qed.

Lemma get_positions_ground_truth_track (static_id : Z) cams :
  VehicleConstantId.get_positions (ground_truth_track static_id cams)
  = map position_of_cam (cams_of_vehicle static_id cams).
Proof. apply zip_positions_of_cams. Qed.

Lemma elem_of_reconstructed_traces_of original_trace tracks (part : ReconstructedTrace.t) :
  part ∈ reconstructed_traces_of original_trace tracks →
  ∃ target_trace,
    target_trace ∈ tracks
    ∧ VehicleDynamicId.static_id target_trace = VehicleConstantId.static_id original_trace
    ∧ (1 < distinct_count (VehicleDynamicId.timestamps target_trace))%nat
    ∧ part = {| ReconstructedTrace.static_id := VehicleConstantId.static_id original_trace;
                ReconstructedTrace.pseudo_ids := VehicleDynamicId.pseudo_id target_trace;
                ReconstructedTrace.positions := VehicleDynamicId.get_positions target_trace;
                ReconstructedTrace.duration :=
                  VehicleDynamicId.get_trace_duration
                    (VehicleConstantId.get_positions original_trace)
                    (VehicleDynamicId.get_positions target_trace) |}.
Proof.
  induction tracks as [|target_trace tracks IH]; cbn [reconstructed_traces_of].
  - intros H. by apply elem_of_nil in H.
  - destruct (Z.eqb_spec (VehicleDynamicId.static_id target_trace)
                (VehicleConstantId.static_id original_trace)) as [Hid|Hid]; cbn [negb orb].
    + destruct (Nat.leb_spec (distinct_count (VehicleDynamicId.timestamps target_trace)) 1)
        as [Hle|Hgt].
      * intros H. destruct (IH H) as (t & Ht & ?). exists t. split; [by right|done].
      * intros [->|H]%elem_of_cons.
        -- exists target_trace. split_and!; [by left|done|done|done].
        -- destruct (IH H) as (t & Ht & ?). exists t. split; [by right|done].
    + intros H. destruct (IH H) as (t & Ht & ?). exists t. split; [by right|done].
Qed.

Lemma elem_of_matched_vehicles_of static_vehicles tracks vehicle_trace :
  vehicle_trace ∈ matched_vehicles_of static_vehicles tracks →
  ∃ original_trace,
    original_trace ∈ static_vehicles
    ∧ (1 < distinct_count (VehicleConstantId.timestamps original_trace))%nat
    ∧ reconstructed_traces_of original_trace tracks ≠ []
    ∧ vehicle_trace
      = {| VehicleTrace.static_id := VehicleConstantId.static_id original_trace;
           VehicleTrace.original_trace :=
             {| OriginalTrace.static_id := VehicleConstantId.static_id original_trace;
                OriginalTrace.positions := VehicleConstantId.get_positions original_trace;
                OriginalTrace.duration := VehicleConstantId.duration original_trace |};
           VehicleTrace.reconstructed_traces := reconstructed_traces_of original_trace tracks |}.
Proof.
  induction static_vehicles as [|original_trace static_vehicles IH];
    cbn [matched_vehicles_of].
  - intros H. by apply elem_of_nil in H.
  - assert (vehicle_trace ∈ matched_vehicles_of static_vehicles tracks →
            ∃ o, o ∈ original_trace :: static_vehicles
              ∧ (1 < distinct_count (VehicleConstantId.timestamps o))%nat
              ∧ reconstructed_traces_of o tracks ≠ []
              ∧ vehicle_trace
                = {| VehicleTrace.static_id := VehicleConstantId.static_id o;
                     VehicleTrace.original_trace :=
                       {| OriginalTrace.static_id := VehicleConstantId.static_id o;
                          OriginalTrace.positions := VehicleConstantId.get_positions o;
                          OriginalTrace.duration := VehicleConstantId.duration o |};
                     VehicleTrace.reconstructed_traces := reconstructed_traces_of o tracks |})
      as Hrest.
    { intros H. destruct (IH H) as (o & Ho & ?). exists o. split; [by right|done]. }
    destruct (Nat.ltb_spec 1 (distinct_count (VehicleConstantId.timestamps original_trace)))
      as [Hgt|Hle]; cbn [negb]; [|done].
    destruct (reconstructed_traces_of original_trace tracks) as [|part parts] eqn:Hparts;
      [done|].
    intros [->|H]%elem_of_cons; [|by apply Hrest].
    exists original_trace. rewrite Hparts. split_and!; [by left|done|done|done].
Qed.

Lemma matched_vehicles_of_ids static_vehicles tracks :
  map VehicleTrace.static_id (matched_vehicles_of static_vehicles tracks)
  `sublist_of` map VehicleConstantId.static_id static_vehicles.
Proof.
  induction static_vehicles as [|original_trace static_vehicles IH];
    cbn [matched_vehicles_of map]; [done|].
  destruct (negb _); [by apply sublist_cons|].
  destruct (reconstructed_traces_of original_trace tracks); [by apply sublist_cons|].
  cbn [map VehicleTrace.static_id]. by apply sublist_skip.
Qed.

Lemma py_slice_to_sublist {A} (n : option Z) (l : list A) : py_slice_to n l `sublist_of` l.
Proof.
  unfold py_slice_to. destruct n as [k|]; [|done].
  destruct (0 <=? k)%Z; apply sublist_take.
Qed.

Lemma map_static_id_ground_truth_tracks (ids : list Z) cams :
  map VehicleConstantId.static_id (map (fun id => ground_truth_track id cams) ids) = ids.
Proof. induction ids as [|id ids IH]; simpl; [done|]. by rewrite IH. Qed.

(** X6: What a returned vehicle trace holds: the original trace is the whole
    route of one vehicle (the positions of all its processed CAMs, in stream
    order) with at least two distinct timestamps; there is at least one
    reconstructed part; every part is a candidate track of [build_routes]
    whose first CAM came from that vehicle and which has at least two distinct
    timestamps, with its positions, its pseudonyms and its duration against
    the original positions. *)
Theorem get_vehicle_traces_contents cams vehicles max_vehicles vehicle_trace :
  vehicle_trace ∈ get_vehicle_traces cams vehicles max_vehicles →
  let own := cams_of_vehicle (VehicleTrace.static_id vehicle_trace)
               (processed_cams vehicles cams) in
  let original := VehicleTrace.original_trace vehicle_trace in
  OriginalTrace.static_id original = VehicleTrace.static_id vehicle_trace
  ∧ OriginalTrace.positions original = map position_of_cam own
  ∧ OriginalTrace.duration original = sum_of_deltas (map CAM.timestamp own)
  ∧ (1 < distinct_count (map CAM.timestamp own))%nat
  ∧ VehicleTrace.reconstructed_traces vehicle_trace ≠ []
  ∧ Forall
      (fun part =>
         ReconstructedTrace.static_id part = VehicleTrace.static_id vehicle_trace
         ∧ ∃ target_trace,
             target_trace ∈ (build_routes cams vehicles).2
             ∧ VehicleDynamicId.static_id target_trace = VehicleTrace.static_id vehicle_trace
             ∧ (1 < distinct_count (VehicleDynamicId.timestamps target_trace))%nat
             ∧ ReconstructedTrace.positions part = VehicleDynamicId.get_positions target_trace
             ∧ ReconstructedTrace.pseudo_ids part = VehicleDynamicId.pseudo_id target_trace
             ∧ ReconstructedTrace.duration part
               = VehicleDynamicId.get_trace_duration (OriginalTrace.positions original)
                   (VehicleDynamicId.get_positions target_trace))
      (VehicleTrace.reconstructed_traces vehicle_trace).
Proof.
  unfold get_vehicle_traces.
  pose proof (build_routes_static_vehicles cams vehicles) as Hstatic.
  destruct (build_routes cams vehicles) as [static_vehicles tracks]. cbn [fst snd] in *.
  intros Hin.
  apply elem_of_matched_vehicles_of in Hin as (original_trace & Ho & Hdistinct & Hparts & ->).
  eapply elem_of_sublist in Ho; [|apply py_slice_to_sublist].
  rewrite Hstatic in Ho. apply list_elem_of_fmap in Ho as (id & -> & _).
  cbn. split_and!; try done.
  - apply get_positions_ground_truth_track.
  - apply Forall_forall. intros part Hpart.
    apply elem_of_reconstructed_traces_of in Hpart as (target_trace & Ht & Hid & Hts & ->).
    cbn. split; [done|]. exists target_trace. split_and!; done.
Qed.

Lemma get_vehicle_traces_contents_witness :
  ∃ vehicle_trace,
    vehicle_trace ∈ get_vehicle_traces Examples.lone_stream None None
    ∧ OriginalTrace.positions (VehicleTrace.original_trace vehicle_trace)
      = map position_of_cam
          (cams_of_vehicle (VehicleTrace.static_id vehicle_trace)
             (processed_cams None Examples.lone_stream))
    ∧ VehicleTrace.reconstructed_traces vehicle_trace ≠ [].
Proof.
  assert (∃ vehicle_trace, get_vehicle_traces Examples.lone_stream None None = [vehicle_trace])
    as [vehicle_trace Htraces] by (vm_compute; eauto).
  assert (vehicle_trace ∈ get_vehicle_traces Examples.lone_stream None None) as Hin
    by (rewrite Htraces; left).
  exists vehicle_trace. split; [exact Hin|].
  pose proof (get_vehicle_traces_contents Examples.lone_stream None None vehicle_trace Hin)
    as Hcontents.
  cbv zeta in Hcontents. destruct Hcontents as (_ & Hpositions & _ & _ & Hparts & _).
  split; [exact Hpositions|exact Hparts].
Defined.

(** X7: Every vehicle has at most one trace in the result; the traces come in
    the order in which the vehicles first appear among the processed CAMs;
    a non-negative [max_vehicles] bounds their number. *)
Theorem get_vehicle_traces_ids cams vehicles max_vehicles :
  map VehicleTrace.static_id (get_vehicle_traces cams vehicles max_vehicles)
    `sublist_of`
    in_order_of_first_appearance (map CAM.static_id (processed_cams vehicles cams))
  ∧ NoDup (map VehicleTrace.static_id (get_vehicle_traces cams vehicles max_vehicles))
  ∧ (∀ k, max_vehicles = Some k → (0 <= k)%Z →
          (List.length (get_vehicle_traces cams vehicles max_vehicles) <= Z.to_nat k)%nat).
Proof.
  unfold get_vehicle_traces.
  pose proof (build_routes_static_vehicles cams vehicles) as Hstatic.
  destruct (build_routes cams vehicles) as [static_vehicles tracks]. cbn [fst] in Hstatic.
  assert (map VehicleTrace.static_id
            (matched_vehicles_of (py_slice_to max_vehicles static_vehicles) tracks)
          `sublist_of`
          in_order_of_first_appearance (map CAM.static_id (processed_cams vehicles cams)))
    as Hsub.
  { etrans; [apply matched_vehicles_of_ids|].
    etrans; [apply fmap_sublist, py_slice_to_sublist|].
    change (VehicleConstantId.static_id <$> static_vehicles)
      with (map VehicleConstantId.static_id static_vehicles).
    rewrite Hstatic, map_static_id_ground_truth_tracks. done. }
  split_and!.
  - exact Hsub.
  - eapply sublist_NoDup; [apply NoDup_in_order_of_first_appearance|exact Hsub].
  - intros k -> Hk.
    rewrite <- (length_map VehicleTrace.static_id).
    etrans; [apply sublist_length, matched_vehicles_of_ids|].
    rewrite length_map. unfold py_slice_to.
    destruct (Z.leb_spec 0 k); [|lia]. rewrite length_take. lia.
Qed.

Lemma get_vehicle_traces_ids_witness :
  (List.length (get_vehicle_traces Examples.mixed_stream None (Some 1%Z)) <= Z.to_nat 1)%nat.
Proof.
  destruct (get_vehicle_traces_ids Examples.mixed_stream None (Some 1%Z)) as (_ & _ & Hbound).
  apply Hbound; [reflexivity|lia].
Defined.
End VehicleTraces.

(** ** Bounds of the tracking duration and of the tracking success *)

Section TrackingBounds.
Implicit Types (cam : CAM.t) (cams : list CAM.t) (original traced : list Position.t)
  (timestamps : list Z).
Local Open Scope Z_scope.

Lemma StronglySorted_sublist {A} (R : A → A → Prop) (l1 l2 : list A) :
  l1 `sublist_of` l2 → StronglySorted R l2 → StronglySorted R l1.
Proof.
  induction 1 as [|x l1 l2 Hsub IH|x l1 l2 Hsub IH]; intros Hs; [done| |].
  - apply StronglySorted_inv in Hs as [Hs Hall]. constructor; [by apply IH|].
    apply Forall_forall. intros y Hy. rewrite Forall_forall in Hall.
    apply Hall. by eapply elem_of_sublist.
  - apply StronglySorted_inv in Hs as [Hs _]. by apply IH.
Qed.

Lemma Sorted_le_sublist timestamps (sub : list Z) :
  sub `sublist_of` timestamps → Sorted Z.le timestamps → Sorted Z.le sub.
Proof.
  intros Hsub Hs. apply StronglySorted_Sorted.
  eapply StronglySorted_sublist; [exact Hsub|].
  apply Sorted_StronglySorted; [|done]. intros x y z. lia.
Qed.

Lemma sorted_first_le_last (first : Z) timestamps :
  Sorted Z.le (first :: timestamps) → first <= py_last (first :: timestamps).
Proof.
  revert first. induction timestamps as [|t timestamps IH]; intros first Hs.
  - unfold py_last. simpl. lia.
  - apply Sorted_inv in Hs as [Hs Hhd]. apply HdRel_inv in Hhd.
    specialize (IH t Hs). unfold py_last in *. simpl in *. lia.
Qed.

(** On non-decreasing ground-truth timestamps the walk accumulates between
    0 and the time from [previous] to the last timestamp. *)
Lemma walk_positions_bounds (previous : Z) original traced :
  Sorted Z.le (previous :: map Position.timestamp original) →
  0 <= walk_positions previous original traced
    <= py_last (previous :: map Position.timestamp original) - previous.
Proof.
  revert previous traced. induction original as [|o original IH]; intros previous traced Hs.
  - simpl. unfold py_last. simpl. lia.
  - pose proof (sorted_first_le_last _ _ Hs) as Hlast.
    destruct traced as [|t traced]; cbn [walk_positions]; [lia|].
    destruct (Position.eqb t o); [|lia].
    cbn [map] in Hs. apply Sorted_inv in Hs as [Hs Hhd]. apply HdRel_inv in Hhd.
    specialize (IH (Position.timestamp o) traced Hs).
    unfold py_last in *. cbn [map] in *. simpl in *. lia.
Qed.

Lemma fragment_duration_bounds original traced :
  Sorted Z.le (map Position.timestamp original) →
  0 <= fragment_duration_after_first original traced
    <= py_last (map Position.timestamp original) - hd 0 (map Position.timestamp original).
Proof.
  intros Hs. destruct original as [|o original]; [done|].
  cbn [map] in Hs.
  destruct traced as [|t traced]; cbn [fragment_duration_after_first map hd].
  - pose proof (sorted_first_le_last _ _ Hs). lia.
  - by apply walk_positions_bounds.
Qed.

(** X9: When the ground-truth timestamps are non-decreasing, the tracking
    duration lies between 0 and the time from the first to the last
    ground-truth timestamp, whatever the candidate positions are. *)
Theorem get_trace_duration_bounds original traced :
  Sorted Z.le (map Position.timestamp original) →
  0 <= VehicleDynamicId.get_trace_duration original traced
    <= py_last (map Position.timestamp original) - hd 0 (map Position.timestamp original).
Proof.
  intros Hs. rewrite get_trace_duration_after_first.
  by apply fragment_duration_bounds.
Qed.

Lemma get_trace_duration_bounds_witness :
  0 <= VehicleDynamicId.get_trace_duration Examples.original_agreeing Examples.traced_agreeing
    <= 250 - 0.
Proof.
  apply (get_trace_duration_bounds Examples.original_agreeing Examples.traced_agreeing).
  repeat constructor; simpl; lia.
Defined.

(** *** The tracking success of a time-ordered stream *)

Lemma distinct_count_two timestamps :
  (1 < distinct_count timestamps)%nat → ∃ a b, a ∈ timestamps ∧ b ∈ timestamps ∧ a ≠ b.
Proof.
  unfold distinct_count. intros Hsize.
  destruct timestamps as [|a timestamps].
  { change (size (list_to_set (C := gset Z) [])) with 0%nat in Hsize. lia. }
  destruct (decide (Forall (fun b => b = a) timestamps)) as [Hall|Hex].
  - exfalso.
    assert (list_to_set (C := gset Z) (a :: timestamps) = {[a]}) as Heq.
    { apply set_eq. intros x. rewrite elem_of_list_to_set, elem_of_singleton, elem_of_cons.
      rewrite Forall_forall in Hall. naive_solver. }
    rewrite Heq in Hsize. change (size ({[a]} : gset Z)) with (size (C := gset Z) {[a]}) in Hsize.
    rewrite (fin_sets.size_singleton (C := gset Z)) in Hsize. lia.
  - apply not_Forall_Exists in Hex; [|apply _].
    apply Exists_exists in Hex as (b & Hb & Hne).
    exists a, b. split_and!; [left|by right|done].
Qed.

Lemma sorted_bounds_elements (first : Z) timestamps (t : Z) :
  Sorted Z.le (first :: timestamps) → t ∈ first :: timestamps →
  first <= t <= py_last (first :: timestamps).
Proof.
  revert first. induction timestamps as [|t' timestamps IH]; intros first Hs Hin.
  - apply list_elem_of_singleton in Hin as ->. unfold py_last. simpl. lia.
  - pose proof (sorted_first_le_last _ _ Hs) as Hlast.
    apply elem_of_cons in Hin as [->|Hin]; [lia|].
    apply Sorted_inv in Hs as [Hs Hhd]. apply HdRel_inv in Hhd.
    specialize (IH t' Hs Hin). unfold py_last in *. simpl in *. lia.
Qed.

(** Two distinct timestamps in non-decreasing order make the duration
    positive. *)
Lemma sum_of_deltas_pos timestamps :
  Sorted Z.le timestamps → (1 < distinct_count timestamps)%nat →
  0 < sum_of_deltas timestamps
  ∧ sum_of_deltas timestamps = py_last timestamps - hd 0 timestamps.
Proof.
  intros Hs Hsize. destruct (distinct_count_two _ Hsize) as (a & b & Ha & Hb & Hne).
  destruct timestamps as [|first timestamps]; [by apply elem_of_nil in Ha|].
  rewrite sum_of_deltas_telescopes. split; [|done].
  pose proof (sorted_bounds_elements _ _ a Hs Ha).
  pose proof (sorted_bounds_elements _ _ b Hs Hb). lia.
Qed.

Lemma timestamps_of_vehicle_sorted (static_id : Z) vehicles cams :
  Sorted Z.le (map CAM.timestamp cams) →
  Sorted Z.le (map CAM.timestamp (cams_of_vehicle static_id (processed_cams vehicles cams))).
Proof.
  intros Hs. eapply Sorted_le_sublist; [|exact Hs].
  apply (fmap_sublist CAM.timestamp).
  etrans; [apply sublist_filter|apply sublist_filter].
Qed.

Lemma vehicle_trace_durations cams vehicles max_vehicles (vehicle_trace : VehicleTrace.t) :
  Sorted Z.le (map CAM.timestamp cams) →
  vehicle_trace ∈ get_vehicle_traces cams vehicles max_vehicles →
  0 < OriginalTrace.duration (VehicleTrace.original_trace vehicle_trace)
  ∧ Forall (fun part =>
              0 <= ReconstructedTrace.duration part
                <= OriginalTrace.duration (VehicleTrace.original_trace vehicle_trace))
      (VehicleTrace.reconstructed_traces vehicle_trace)
  ∧ ∃ report,
      write_success_rate vehicle_trace = Some report
      ∧ (0 <= returned_tracking_success report <= 1)%R.
Proof.
  intros Hs Hin.
  unfold get_vehicle_traces in Hin.
  pose proof (build_routes_static_vehicles cams vehicles) as Hstatic.
  destruct (build_routes cams vehicles) as [static_vehicles tracks]. cbn [fst] in Hstatic.
  apply elem_of_matched_vehicles_of in Hin as (original_trace & Ho & Hdistinct & Hparts & ->).
  eapply elem_of_sublist in Ho; [|apply py_slice_to_sublist].
  rewrite Hstatic in Ho. apply list_elem_of_fmap in Ho as (id & -> & _).
  set (own := cams_of_vehicle id (processed_cams vehicles cams)) in *.
  pose proof (timestamps_of_vehicle_sorted id vehicles cams Hs) as Hown. fold own in Hown.
  cbn [ground_truth_track VehicleConstantId.timestamps] in Hdistinct. fold own in Hdistinct.
  destruct (sum_of_deltas_pos _ Hown Hdistinct) as [Hpos Hdur].
  assert (Forall (fun part =>
                    0 <= ReconstructedTrace.duration part
                      <= sum_of_deltas (map CAM.timestamp own))
            (reconstructed_traces_of (ground_truth_track id (processed_cams vehicles cams))
               tracks)) as Hbounds.
  { apply Forall_forall. intros part Hpart.
    apply elem_of_reconstructed_traces_of in Hpart as (target_trace & _ & _ & _ & ->).
    cbn [ReconstructedTrace.duration]. rewrite Hdur.
    rewrite get_positions_ground_truth_track. fold own.
    rewrite get_trace_duration_after_first.
    assert (map Position.timestamp (map position_of_cam own) = map CAM.timestamp own) as Hts
      by (by rewrite map_map).
    rewrite <- Hts. apply fragment_duration_bounds. by rewrite Hts. }
  cbn [VehicleTrace.original_trace VehicleTrace.reconstructed_traces OriginalTrace.duration
       ground_truth_track VehicleConstantId.duration].
  fold own. split_and!; [done|done|].
  unfold write_success_rate.
  cbn [VehicleTrace.original_trace VehicleTrace.reconstructed_traces OriginalTrace.duration
       ground_truth_track VehicleConstantId.duration].
  fold own.
  destruct (reconstructed_traces_of (ground_truth_track id (processed_cams vehicles cams))
              tracks) as [|part parts]; [done|].
  apply Forall_cons in Hbounds as [[Hlow Hhigh] _].
  destruct (Z.eqb_spec (sum_of_deltas (map CAM.timestamp own)) 0) as [Hz|_]; [lia|].
  eexists. split; [done|]. cbn [returned_tracking_success].
  apply IZR_lt in Hpos. apply IZR_le in Hlow, Hhigh.
  split.
  - apply Rmult_le_pos; [done|]. apply Rlt_le, Rinv_0_lt_compat. done.
  - apply (Rmult_le_reg_r (IZR (sum_of_deltas (map CAM.timestamp own)))); [done|].
    unfold Rdiv. rewrite Rmult_assoc, Rinv_l by lra. lra.
Qed.

(** X10: For a CAM stream in time order (non-decreasing timestamps), on every
    vehicle trace [get_vehicle_traces] returns: each reconstructed part's
    duration lies between 0 and the original duration, the original
    duration is positive, and [write_success_rate] does not raise and returns
    a tracking success between 0 and 1. *)
Theorem tracking_success_between_0_and_1 cams vehicles max_vehicles
    (vehicle_trace : VehicleTrace.t) :
  Sorted Z.le (map CAM.timestamp cams) →
  vehicle_trace ∈ get_vehicle_traces cams vehicles max_vehicles →
  0 < OriginalTrace.duration (VehicleTrace.original_trace vehicle_trace)
  ∧ Forall (fun part =>
              0 <= ReconstructedTrace.duration part
                <= OriginalTrace.duration (VehicleTrace.original_trace vehicle_trace))
      (VehicleTrace.reconstructed_traces vehicle_trace)
  ∧ ∃ report,
      write_success_rate vehicle_trace = Some report
      ∧ (0 <= returned_tracking_success report <= 1)%R.
Proof. apply vehicle_trace_durations. Qed.

Lemma tracking_success_between_0_and_1_witness :
  ∃ vehicle_trace,
    vehicle_trace ∈ get_vehicle_traces Examples.lone_stream None None
    ∧ ∃ report,
        write_success_rate vehicle_trace = Some report
        ∧ (0 <= returned_tracking_success report <= 1)%R.
Proof.
  assert (∃ vehicle_trace, get_vehicle_traces Examples.lone_stream None None = [vehicle_trace])
    as [vehicle_trace Htraces] by (vm_compute; eauto).
  exists vehicle_trace. split; [rewrite Htraces; left|].
  apply (tracking_success_between_0_and_1 Examples.lone_stream None None vehicle_trace).
  - repeat constructor; simpl; lia.
  - rewrite Htraces. left.
Defined.
End TrackingBounds.

(** ** Invariants of the anonymity set *)

Section AnonymitySet.
Implicit Types (cam : CAM.t) (cams seen : list CAM.t) (anonymity_set m : gmap Z (Z * Z)).

Lemma cams_with_pseudonym_app (pseudo_id : Z) cams more :
  cams_with_pseudonym pseudo_id (cams ++ more)
  = cams_with_pseudonym pseudo_id cams ++ cams_with_pseudonym pseudo_id more.
Proof. apply filter_app. Qed.

Lemma entries_from_more m seen more : entries_from m seen → entries_from m (seen ++ more).
Proof.
  intros H k n t Hk. destruct (H k n t Hk) as [[Hlow Hhigh] (cam & Hin & Hp & Ht)].
  split.
  - rewrite cams_with_pseudonym_app, length_app. lia.
  - exists cam. split; [|done]. apply elem_of_app. by left.
Qed.

(** Counting one more CAM keeps the entries within the CAMs seen. *)
Lemma entries_from_count m seen cam :
  entries_from m seen →
  entries_from
    match m !! CAM.pseudo_id cam with
    | Some (n, _) => <[CAM.pseudo_id cam := ((n + 1)%Z, CAM.timestamp cam)]> m
    | None => <[CAM.pseudo_id cam := (1%Z, CAM.timestamp cam)]> m
    end
    (seen ++ [cam]).
Proof.
  intros H k n t.
  assert (List.length (cams_with_pseudonym (CAM.pseudo_id cam) (seen ++ [cam]))
          = S (List.length (cams_with_pseudonym (CAM.pseudo_id cam) seen))) as Hlen.
  { rewrite cams_with_pseudonym_app, length_app. unfold cams_with_pseudonym at 2.
    rewrite filter_cons_True by done. rewrite filter_nil. simpl. lia. }
  assert (cam ∈ seen ++ [cam]) as Hcam by (apply elem_of_app; right; left).
  destruct (m !! CAM.pseudo_id cam) as [[n' t']|] eqn:Hm.
  - destruct (decide (k = CAM.pseudo_id cam)) as [->|Hne].
    + rewrite lookup_insert_eq. intros [= <- <-].
      destruct (H _ _ _ Hm) as [[Hlow Hhigh] _]. split; [rewrite Hlen; lia|eauto].
    + rewrite lookup_insert_ne by done. intros Hk. by apply (entries_from_more m seen [cam] H).
  - destruct (decide (k = CAM.pseudo_id cam)) as [->|Hne].
    + rewrite lookup_insert_eq. intros [= <- <-]. split; [rewrite Hlen; lia|eauto].
    + rewrite lookup_insert_ne by done. intros Hk. by apply (entries_from_more m seen [cam] H).
Qed.

(** The purge only removes entries. *)
Lemma entries_from_purge m seen (now threshold : Z) :
  entries_from m seen →
  entries_from
    (foldl (fun m pseudo_id => delete pseudo_id m) m
       (lst_of_to_be_purged_keys m now threshold)) seen.
Proof.
  intros H k n t. rewrite purge_lookup.
  destruct (m !! k) as [[n' t']|] eqn:Hm; [|done].
  destruct (threshold <? now - t')%Z; [done|]. intros [= <- <-]. by apply H.
Qed.

Lemma anonymity_loop_entries cams (threshold end_timestamp : Z) m (last_purge : Z) seen :
  entries_from m seen →
  entries_from (anonymity_loop cams threshold end_timestamp m last_purge) (seen ++ cams).
Proof.
  revert m last_purge seen.
  induction cams as [|cam cams IH]; intros m last_purge seen Hm; cbn [anonymity_loop].
  - by rewrite app_nil_r.
  - destruct (negb (end_timestamp =? 0)%Z && (end_timestamp <=? CAM.timestamp cam)%Z).
    + by apply entries_from_more.
    + pose proof (entries_from_count m seen cam Hm) as Hcount.
      rewrite (cons_middle cam seen cams), (assoc_L (++)).
      destruct (last_purge =? CAM.timestamp cam)%Z; apply IH; [done|].
      by apply entries_from_purge.
Qed.

Lemma calculate_anonymity_set_entries_aux cams (threshold end_timestamp : Z) :
  entries_from (calculate_anonymity_set cams threshold end_timestamp) cams.
Proof.
  unfold calculate_anonymity_set.
  apply (anonymity_loop_entries cams threshold end_timestamp ∅ 0 []).
  intros k n t Hk. by rewrite lookup_empty in Hk.
Qed.

(** X12: Every entry of the anonymity set has a count of at least 1 and at most
    the number of CAMs sent under its pseudonym, its time is the timestamp
    of a CAM sent under its pseudonym, and so every pseudonym of the set is
    the pseudonym of some CAM. *)
Theorem calculate_anonymity_set_entries cams (threshold end_timestamp : Z) :
  entries_from (calculate_anonymity_set cams threshold end_timestamp) cams
  ∧ dom (calculate_anonymity_set cams threshold end_timestamp)
    ⊆ list_to_set (map CAM.pseudo_id cams).
Proof.
  pose proof (calculate_anonymity_set_entries_aux cams threshold end_timestamp) as H.
  split; [exact H|].
  intros k Hk. apply elem_of_dom in Hk as [[n t] Hk].
  destruct (H k n t Hk) as [_ (cam & Hin & <- & _)].
  apply elem_of_list_to_set. by apply (list_elem_of_fmap_2 CAM.pseudo_id).
Qed.

(** *** The last CAM is always in the set *)

Lemma anonymity_loop_keeps_last cams cam (threshold : Z) m (last_purge : Z) :
  (0 <= threshold)%Z →
  ∃ n, anonymity_loop (cams ++ [cam]) threshold 0 m last_purge !! CAM.pseudo_id cam
       = Some (n, CAM.timestamp cam).
Proof.
  intros Hthr. revert m last_purge.
  induction cams as [|cam' cams IH]; intros m last_purge; cbn [app anonymity_loop Z.eqb negb andb].
  - assert (∃ n, match m !! CAM.pseudo_id cam with
                 | Some (n, _) => <[CAM.pseudo_id cam := ((n + 1)%Z, CAM.timestamp cam)]> m
                 | None => <[CAM.pseudo_id cam := (1%Z, CAM.timestamp cam)]> m
                 end !! CAM.pseudo_id cam = Some (n, CAM.timestamp cam)) as [n Hn].
    { destruct (m !! CAM.pseudo_id cam) as [[n' t']|]; rewrite lookup_insert_eq; eauto. }
    destruct (last_purge =? CAM.timestamp cam)%Z; [eauto|].
    exists n. rewrite purge_lookup, Hn.
    destruct (Z.ltb_spec threshold (CAM.timestamp cam - CAM.timestamp cam)); [lia|done].
  - destruct (last_purge =? CAM.timestamp cam')%Z; apply IH.
Qed.

Lemma degree_in_unit_interval m (eass : R) :
  (1 < size m)%nat → (0 <= eass <= log2_size m)%R →
  ∃ degree_of_anon,
    calculate_degree_of_anonymity m eass = Some degree_of_anon
    ∧ (0 <= degree_of_anon <= 1)%R.
Proof.
  intros Hsize Heass. unfold calculate_degree_of_anonymity.
  destruct (Nat.leb_spec (size m) 1) as [Hle|_]; [lia|].
  assert (1 < INR (size m))%R as Hn by (apply (lt_INR 1); lia).
  unfold math_log2. destruct (Rlt_dec 0 (INR (size m))) as [_|Hn']; [|lra].
  cbn [mbind option_bind].
  assert (0 < log2_size m)%R as Hlog.
  { unfold log2_size. apply Rdiv_lt_0_compat.
    - rewrite <- ln_1. apply ln_increasing; lra.
    - pose proof ln_lt_2. lra. }
  fold (log2_size m). unfold py_truediv.
  destruct (Req_dec_T (log2_size m) 0) as [Hz|_]; [lra|].
  eexists. split; [done|]. split.
  - apply Rmult_le_pos; [lra|]. apply Rlt_le, Rinv_0_lt_compat. done.
  - apply (Rmult_le_reg_r (log2_size m)); [done|].
    replace (eass / log2_size m * log2_size m)%R with eass by (field; lra). lra.
Qed.

(** X13: With a non-negative purge threshold and no end timestamp, the
    degree-of-anonymity computation raises on no CAM stream: the anonymity
    set is non-empty unless the stream is empty, the EASS is at least 0, and
    the degree of anonymity is the sentinel -1 for a set of at most one
    pseudonym and at least 0 otherwise.  (The upper bounds hold in exact
    arithmetic only and are not part of this statement.) *)
Theorem degree_of_anonymity_never_raises cams (threshold : Z) :
  (0 <= threshold)%Z →
  let anonymity_set := calculate_anonymity_set cams threshold 0 in
  (cams ≠ [] → anonymity_set ≠ ∅)
  ∧ ∃ eass degree_of_anon,
      calculate_entropy_and_eass anonymity_set = Some eass
      ∧ (0 <= eass)%R
      ∧ calculate_degree_of_anonymity anonymity_set eass = Some degree_of_anon
      ∧ (((size anonymity_set <= 1)%nat ∧ degree_of_anon = (-1)%R)
         ∨ ((1 < size anonymity_set)%nat ∧ (0 <= degree_of_anon)%R)).
Proof.
  intros Hthr anonymity_set.
  assert (cams ≠ [] → anonymity_set ≠ ∅) as Hne.
  { intros Hcams Hempty.
    destruct (exists_last Hcams) as (cams' & cam & ->).
    destruct (anonymity_loop_keeps_last cams' cam threshold ∅ 0 Hthr) as [n Hn].
    fold (calculate_anonymity_set (cams' ++ [cam]) threshold 0) in Hn.
    fold anonymity_set in Hn. by rewrite Hempty, lookup_empty in Hn. }
  split; [exact Hne|].
  assert (∀ k n t, anonymity_set !! k = Some (n, t) → (0 < n)%Z) as Hpos.
  { intros k n t Hk.
    destruct (calculate_anonymity_set_entries_aux cams threshold 0 k n t Hk) as [[? _] _]. lia. }
  destruct (decide (anonymity_set = ∅)) as [Hempty|Hnonempty].
  - exists 0%R, (-1)%R. rewrite Hempty. split_and!; [|lra|done|left].
    + unfold calculate_entropy_and_eass. rewrite map_to_list_empty. simpl. f_equal. lra.
    + rewrite map_size_empty. split; [lia|done].
  - pose proof (calculate_entropy_and_eass_spec anonymity_set Hnonempty Hpos) as Heass.
    pose proof (shannon_entropy_bounds (cam_counts anonymity_set)
                  (cam_counts_nonempty _ Hnonempty) (cam_counts_pos _ Hpos)) as Hb.
    rewrite length_cam_counts in Hb. fold (log2_size anonymity_set) in Hb.
    set (eass := shannon_entropy _) in *.
    destruct (Nat.leb_spec (size anonymity_set) 1) as [Hle|Hgt].
    + exists eass, (-1)%R. split_and!; [done|lra| |left; done].
      unfold calculate_degree_of_anonymity.
      destruct (Nat.leb_spec (size anonymity_set) 1); [done|lia].
    + destruct (degree_in_unit_interval anonymity_set eass Hgt Hb) as (d & Hd & Hrange).
      exists eass, d. split_and!; [done|lra|done|right; split; [done|lra]].
Qed.

Lemma degree_of_anonymity_never_raises_witness :
  ∃ eass degree_of_anon,
    calculate_entropy_and_eass (calculate_anonymity_set Examples.mixed_stream 1000 0)
      = Some eass
    ∧ calculate_degree_of_anonymity (calculate_anonymity_set Examples.mixed_stream 1000 0) eass
      = Some degree_of_anon.
Proof.
  destruct (degree_of_anonymity_never_raises Examples.mixed_stream 1000)
    as (_ & eass & degree_of_anon & Heass & _ & Hdegree & _); [lia|].
  exists eass, degree_of_anon. split; [exact Heass|exact Hdegree].
Defined.
End AnonymitySet.

(** ** The end timestamp, the purge and the extremes of the entropy *)

Section AnonymitySetMore.
Implicit Types (cam : CAM.t) (cams seen : list CAM.t) (anonymity_set m : gmap Z (Z * Z)).

Lemma anonymity_loop_end_timestamp cams (threshold end_timestamp : Z) m (last_purge : Z) :
  end_timestamp ≠ 0%Z →
  anonymity_loop cams threshold end_timestamp m last_purge
  = anonymity_loop (cams_before end_timestamp cams) threshold 0 m last_purge.
Proof.
  intros Hend. revert m last_purge.
  induction cams as [|cam cams IH]; intros m last_purge; [done|].
  cbn [anonymity_loop cams_before].
  destruct (Z.eqb_spec end_timestamp 0) as [?|_]; [done|]. cbn [negb andb].
  destruct (end_timestamp <=? CAM.timestamp cam)%Z; [done|].
  cbn [anonymity_loop Z.eqb negb andb].
  destruct (last_purge =? CAM.timestamp cam)%Z; apply IH.
Qed.

(** X14: A non-zero end timestamp cuts the stream at the first CAM whose
    timestamp reaches it, also when later CAMs carry smaller timestamps: the
    anonymity set is the one of the CAMs before that CAM, computed without an
    end timestamp. *)
Theorem calculate_anonymity_set_end_timestamp cams (threshold end_timestamp : Z) :
  end_timestamp ≠ 0%Z →
  calculate_anonymity_set cams threshold end_timestamp
  = calculate_anonymity_set (cams_before end_timestamp cams) threshold 0.
Proof. intros Hend. by apply anonymity_loop_end_timestamp. Qed.

Lemma calculate_anonymity_set_end_timestamp_witness :
  calculate_anonymity_set Examples.mixed_stream 1000 1050
  = calculate_anonymity_set
      [Examples.parked_cam 0 1 7 487433425; Examples.parked_cam 50 2 9 487433625] 1000 0.
Proof. apply (calculate_anonymity_set_end_timestamp Examples.mixed_stream 1000 1050). lia. Defined.

(** *** No purge within the threshold *)

Lemma unpurged_entry_snoc (pseudo_id : Z) seen cam :
  unpurged_entry pseudo_id (seen ++ [cam])
  = if decide (CAM.pseudo_id cam = pseudo_id)
    then Some (match unpurged_entry pseudo_id seen with
               | Some (n, _) => ((n + 1)%Z, CAM.timestamp cam)
               | None => (1%Z, CAM.timestamp cam)
               end)
    else unpurged_entry pseudo_id seen.
Proof.
  unfold unpurged_entry. rewrite cams_with_pseudonym_app. unfold cams_with_pseudonym at 2.
  destruct (decide (CAM.pseudo_id cam = pseudo_id)) as [Heq|Hne].
  - rewrite filter_cons_True by done. rewrite filter_nil.
    destruct (cams_with_pseudonym pseudo_id seen) as [|c own]; [done|].
    cbn [app]. rewrite app_comm_cons, length_app, map_app. cbn [map].
    rewrite py_last_snoc. cbn [List.length].
    do 2 f_equal. lia.
  - rewrite filter_cons_False by done. rewrite filter_nil, app_nil_r. done.
Qed.

Lemma py_last_timestamp cams :
  cams ≠ [] → ∃ cam, cam ∈ cams ∧ CAM.timestamp cam = py_last (map CAM.timestamp cams).
Proof.
  intros Hne. destruct (exists_last Hne) as (cams' & cam & ->).
  exists cam. split; [apply elem_of_app; right; left|].
  rewrite map_app. cbn [map]. by rewrite py_last_snoc.
Qed.

Lemma unpurged_entry_time (pseudo_id : Z) seen (n t : Z) :
  unpurged_entry pseudo_id seen = Some (n, t) → ∃ cam, cam ∈ seen ∧ CAM.timestamp cam = t.
Proof.
  unfold unpurged_entry.
  destruct (cams_with_pseudonym pseudo_id seen) as [|c own] eqn:Hown; [done|].
  intros [= _ <-].
  destruct (py_last_timestamp (c :: own)) as (cam & Hin & Ht); [done|].
  exists cam. split; [|exact Ht].
  rewrite <- Hown in Hin. by apply list_elem_of_filter in Hin as [_ ?].
Qed.

Lemma anonymity_loop_without_purge cams (threshold : Z) m (last_purge : Z) seen :
  (∀ c1 c2, c1 ∈ seen ++ cams → c2 ∈ seen ++ cams →
            (CAM.timestamp c2 - CAM.timestamp c1 <= threshold)%Z) →
  (∀ k, m !! k = unpurged_entry k seen) →
  ∀ k, anonymity_loop cams threshold 0 m last_purge !! k = unpurged_entry k (seen ++ cams).
Proof.
  revert m last_purge seen.
  induction cams as [|cam cams IH]; intros m last_purge seen Hclose Hm k;
    cbn [anonymity_loop Z.eqb negb andb].
  - by rewrite app_nil_r.
  - rewrite (cons_middle cam seen cams), (assoc_L (++)) in *.
    set (counted := match m !! CAM.pseudo_id cam with
                    | Some (n, _) => <[CAM.pseudo_id cam := ((n + 1)%Z, CAM.timestamp cam)]> m
                    | None => <[CAM.pseudo_id cam := (1%Z, CAM.timestamp cam)]> m
                    end).
    assert (∀ k, counted !! k = unpurged_entry k (seen ++ [cam])) as Hcounted.
    { intros k'. rewrite unpurged_entry_snoc. unfold counted.
      destruct (decide (CAM.pseudo_id cam = k')) as [<-|Hne].
      - rewrite <- Hm. destruct (m !! CAM.pseudo_id cam) as [[n t]|];
          by rewrite lookup_insert_eq.
      - destruct (m !! CAM.pseudo_id cam) as [[n t]|];
          rewrite lookup_insert_ne by done; apply Hm. }
    destruct (last_purge =? CAM.timestamp cam)%Z; apply IH; try done.
    intros k'. rewrite purge_lookup, Hcounted.
    destruct (unpurged_entry k' (seen ++ [cam])) as [[n t]|] eqn:Hentry; [|done].
    destruct (unpurged_entry_time _ _ _ _ Hentry) as (c & Hc & <-).
    assert (cam ∈ (seen ++ [cam]) ++ cams) as Hcam
      by (apply elem_of_app; left; apply elem_of_app; right; left).
    assert (c ∈ (seen ++ [cam]) ++ cams) as Hc' by (apply elem_of_app; by left).
    specialize (Hclose c cam Hc' Hcam).
    destruct (Z.ltb_spec threshold (CAM.timestamp cam - CAM.timestamp c)); [lia|done].
Qed.

(** X15: When no CAM is later than another CAM by more than the purge threshold,
    nothing is purged: the anonymity set holds exactly the pseudonyms of the
    stream, each with the number of its CAMs and the timestamp of its last
    CAM. *)
Theorem calculate_anonymity_set_without_purge cams (threshold : Z) :
  (∀ c1 c2, c1 ∈ cams → c2 ∈ cams →
            (CAM.timestamp c2 - CAM.timestamp c1 <= threshold)%Z) →
  ∀ pseudo_id,
    calculate_anonymity_set cams threshold 0 !! pseudo_id = unpurged_entry pseudo_id cams.
Proof.
  intros Hclose pseudo_id. unfold calculate_anonymity_set.
  apply (anonymity_loop_without_purge cams threshold ∅ 0 []); [done|].
  intros k. by rewrite lookup_empty.
Qed.

Lemma calculate_anonymity_set_without_purge_witness :
  calculate_anonymity_set Examples.lone_stream 300 0 !! 7%Z = Some (3%Z, 300%Z).
Proof.
  apply (calculate_anonymity_set_without_purge Examples.lone_stream 300).
  intros c1 c2 H1 H2.
  assert (∀ c, c ∈ Examples.lone_stream → (0 <= CAM.timestamp c <= 300)%Z) as Hrange.
  { intros c Hc. unfold Examples.lone_stream in Hc.
    repeat (apply elem_of_cons in Hc as [->|Hc]; [simpl; lia|]).
    by apply elem_of_nil in Hc. }
  pose proof (Hrange c1 H1). pose proof (Hrange c2 H2). lia.
Defined.

End AnonymitySetMore.

(** ** The statistics of the pseudonym consumption *)

Section ConsumptionStatistics.
Implicit Types (values : list R) (cams : list CAM.t) (s : consumption_stats).
Local Open Scope R_scope.

Lemma foldl_Rmin_spec (x : R) values :
  foldl Rmin x values ∈ x :: values ∧ ∀ y, y ∈ x :: values → foldl Rmin x values <= y.
Proof.
  revert x. induction values as [|v values IH]; intros x; cbn [foldl].
  - split; [left|]. intros y Hy. apply list_elem_of_singleton in Hy as ->. lra.
  - destruct (IH (Rmin x v)) as [Hin Hle]. split.
    + apply elem_of_cons in Hin as [->|Hin]; [|by do 2 right].
      unfold Rmin. destruct (Rle_dec x v); [left|right; left].
    + intros y Hy.
      assert (foldl Rmin (Rmin x v) values <= Rmin x v) as Hmin by (apply Hle; left).
      pose proof (Rmin_l x v). pose proof (Rmin_r x v).
      apply elem_of_cons in Hy as [->|Hy]; [lra|].
      apply elem_of_cons in Hy as [->|Hy]; [lra|].
      apply Hle. by right.
Qed.

Lemma foldl_Rmax_spec (x : R) values :
  foldl Rmax x values ∈ x :: values ∧ ∀ y, y ∈ x :: values → y <= foldl Rmax x values.
Proof.
  revert x. induction values as [|v values IH]; intros x; cbn [foldl].
  - split; [left|]. intros y Hy. apply list_elem_of_singleton in Hy as ->. lra.
  - destruct (IH (Rmax x v)) as [Hin Hle]. split.
    + apply elem_of_cons in Hin as [->|Hin]; [|by do 2 right].
      unfold Rmax. destruct (Rle_dec x v); [right; left|left].
    + intros y Hy.
      assert (Rmax x v <= foldl Rmax (Rmax x v) values) as Hmax by (apply Hle; left).
      pose proof (Rmax_l x v). pose proof (Rmax_r x v).
      apply elem_of_cons in Hy as [->|Hy]; [lra|].
      apply elem_of_cons in Hy as [->|Hy]; [lra|].
      apply Hle. by right.
Qed.

Lemma elem_of_R_insert (x y : R) values : y ∈ R_insert x values ↔ y = x ∨ y ∈ values.
Proof.
  induction values as [|v values IH]; simpl.
  - rewrite list_elem_of_singleton, elem_of_nil. tauto.
  - destruct (Rle_dec x v).
    + by rewrite elem_of_cons.
    + rewrite !elem_of_cons, IH. tauto.
Qed.

Lemma elem_of_R_sorted (y : R) values : y ∈ R_sorted values ↔ y ∈ values.
Proof.
  unfold R_sorted. induction values as [|v values IH]; cbn [foldr]; [done|].
  rewrite elem_of_R_insert, elem_of_cons, IH. done.
Qed.

Lemma nth_elem_of (l : list R) (i : nat) : (i < List.length l)%nat → nth i l 0 ∈ l.
Proof. intros Hi. apply list_elem_of_In, nth_In. done. Qed.

(** The median is an element of the data or the mean of two of them. *)
Lemma median_between values (a b med : R) :
  (∀ y, y ∈ values → a <= y <= b) → median values = Some med → a <= med <= b.
Proof.
  intros Hrange. unfold median.
  pose proof (length_R_sorted values) as Hlen.
  destruct (Nat.eqb_spec (List.length (R_sorted values)) 0) as [?|Hn]; [done|].
  assert (∀ i, (i < List.length (R_sorted values))%nat →
               a <= nth i (R_sorted values) 0 <= b) as Hnth.
  { intros i Hi. apply Hrange, elem_of_R_sorted. by apply nth_elem_of. }
  assert (List.length (R_sorted values) / 2 < List.length (R_sorted values))%nat as Hhalf
    by (apply Nat.div_lt; lia).
  pose proof (Hnth (List.length (R_sorted values) / 2 - 1)%nat ltac:(lia)) as Hlow.
  pose proof (Hnth (List.length (R_sorted values) / 2)%nat Hhalf) as Hhigh.
  set (lo := nth (List.length (R_sorted values) / 2 - 1) (R_sorted values) 0) in *.
  set (hi := nth (List.length (R_sorted values) / 2) (R_sorted values) 0) in *.
  destruct (List.length (R_sorted values) mod 2 =? 1)%nat; intros H; injection H as <-;
    [exact Hhigh|lra].
Qed.

Lemma foldl_Rplus (acc : R) values : foldl Rplus acc values = acc + sum_list_R values.
Proof.
  revert acc. induction values as [|v values IH]; intros acc; simpl; [lra|].
  rewrite IH. fold (sum_list_R values). lra.
Qed.

Lemma R_sum_sum_list_R values : R_sum values = sum_list_R values.
Proof. unfold R_sum. rewrite foldl_Rplus. lra. Qed.

Lemma sum_list_R_between values (a b : R) :
  (∀ y, y ∈ values → a <= y <= b) →
  INR (List.length values) * a <= sum_list_R values <= INR (List.length values) * b.
Proof.
  induction values as [|v values IH]; intros Hrange.
  - simpl. lra.
  - cbn [List.length sum_list_R foldr]. fold (sum_list_R values). rewrite S_INR.
    pose proof (Hrange v ltac:(left)).
    assert (∀ y, y ∈ values → a <= y <= b) as Hrest by (intros; apply Hrange; by right).
    specialize (IH Hrest). lra.
Qed.

Lemma mean_between values (a b xbar : R) :
  (∀ y, y ∈ values → a <= y <= b) → mean values = Some xbar → a <= xbar <= b.
Proof.
  intros Hrange. unfold mean.
  destruct (Nat.ltb_spec (List.length values) 1) as [?|Hn]; [done|]. intros [= <-].
  rewrite R_sum_sum_list_R. pose proof (sum_list_R_between values a b Hrange) as Hsum.
  assert (0 < INR (List.length values)) as Hlen by (apply lt_0_INR; lia).
  split.
  - apply (Rmult_le_reg_r (INR (List.length values))); [done|].
    unfold Rdiv. rewrite Rmult_assoc, Rinv_l by lra. lra.
  - apply (Rmult_le_reg_r (INR (List.length values))); [done|].
    unfold Rdiv. rewrite Rmult_assoc, Rinv_l by lra. lra.
Qed.

Lemma sum_of_squares_zero values (xbar : R) :
  0 <= sum_list_R (map (fun x => (x - xbar)²) values)
  ∧ (sum_list_R (map (fun x => (x - xbar)²) values) = 0 ↔ ∀ y, y ∈ values → y = xbar).
Proof.
  induction values as [|v values [IHpos IHzero]].
  - simpl. split; [lra|]. split; [|done]. intros _ y Hy. by apply elem_of_nil in Hy.
  - cbn [map sum_list_R foldr]. fold (sum_list_R (map (fun x => (x - xbar)²) values)).
    pose proof (Rle_0_sqr (v - xbar)) as Hsq.
    split; [lra|]. split.
    + intros Hsum y Hy.
      assert ((v - xbar)² = 0) as Hv by lra.
      apply elem_of_cons in Hy as [->|Hy].
      * apply Rsqr_0_uniq in Hv. lra.
      * apply IHzero; [lra|done].
    + intros Hall. rewrite (Hall v) by left.
      assert (sum_list_R (map (fun x => (x - xbar)²) values) = 0) as ->
        by (apply IHzero; intros; apply Hall; by right).
      unfold Rsqr. lra.
Qed.

(** The standard deviation is zero exactly when all data are equal. *)
Lemma stdev_zero_iff values (std : R) :
  stdev values = Some std →
  0 <= std ∧ (std = 0 ↔ ∃ r, ∀ y, y ∈ values → y = r).
Proof.
  unfold stdev.
  destruct (Nat.ltb_spec (List.length values) 2) as [?|Hn]; [done|]. intros [= <-].
  set (xbar := R_sum values / INR (List.length values)).
  destruct (sum_of_squares_zero values xbar) as [Hpos Hzero].
  rewrite R_sum_sum_list_R.
  assert (0 < INR (List.length values - 1)) as Hlen by (apply lt_0_INR; lia).
  assert (0 <= sum_list_R (map (fun x => (x - xbar)²) values) / INR (List.length values - 1))
    as Hq.
  { apply Rmult_le_pos; [done|]. apply Rlt_le, Rinv_0_lt_compat. done. }
  split; [by apply sqrt_pos|]. split.
  - intros Hsqrt. apply sqrt_eq_0 in Hsqrt; [|done].
    exists xbar. apply Hzero.
    apply (Rmult_eq_reg_r (/ INR (List.length values - 1))); [|apply Rinv_neq_0_compat; lra].
    unfold Rdiv in Hsqrt. lra.
  - intros [r Hall].
    assert (xbar = r) as Hxbar.
    { unfold xbar. rewrite R_sum_sum_list_R.
      assert (∀ y, y ∈ values → r <= y <= r) as Hrange by (intros y Hy; rewrite (Hall y Hy); lra).
      pose proof (sum_list_R_between values r r Hrange) as Hsum.
      assert (0 < INR (List.length values)) by (apply lt_0_INR; lia).
      replace (sum_list_R values) with (INR (List.length values) * r) by lra.
      field. lra. }
    assert (sum_list_R (map (fun x => (x - xbar)²) values) = 0) as ->.
    { apply Hzero. intros y Hy. rewrite Hxbar. by apply Hall. }
    unfold Rdiv. rewrite Rmult_0_l. apply sqrt_0.
Qed.

(** What the five statistics are to the rates. *)
Lemma calculate_characteristics_sound values s :
  calculate_characteristics values = Some s →
  min_pseudo_cons s ∈ values ∧ max_pseudo_cons s ∈ values
  ∧ (∀ y, y ∈ values → min_pseudo_cons s <= y <= max_pseudo_cons s)
  ∧ min_pseudo_cons s <= med_pseudo_cons s <= max_pseudo_cons s
  ∧ min_pseudo_cons s <= mean_pseudo_cons s <= max_pseudo_cons s
  ∧ 0 <= std_pseudo_cons s
  ∧ (std_pseudo_cons s = 0 ↔ ∃ r, ∀ y, y ∈ values → y = r).
Proof.
  unfold calculate_characteristics.
  destruct values as [|x values]; [done|]. cbn [py_min py_max mbind option_bind].
  destruct (median (x :: values)) as [med|] eqn:Hmed; [|done].
  destruct (mean (x :: values)) as [xbar|] eqn:Hmean; [|done].
  destruct (stdev (x :: values)) as [std|] eqn:Hstd; [|done].
  cbn [mbind option_bind]. intros [= <-].
  cbn [min_pseudo_cons max_pseudo_cons med_pseudo_cons mean_pseudo_cons std_pseudo_cons].
  destruct (foldl_Rmin_spec x values) as [Hmin_in Hmin].
  destruct (foldl_Rmax_spec x values) as [Hmax_in Hmax].
  assert (∀ y, y ∈ x :: values → foldl Rmin x values <= y <= foldl Rmax x values) as Hrange
    by (intros y Hy; split; [by apply Hmin|by apply Hmax]).
  destruct (stdev_zero_iff _ _ Hstd) as [Hpos Hzero].
  pose proof (median_between _ _ _ _ Hrange Hmed).
  pose proof (mean_between _ _ _ _ Hrange Hmean).
  split_and!; done || lra.
Qed.

(** X19: When [write_stats] writes its statistics: the minimum and the maximum
    are rates of vehicles and bound all rates, the median and the mean lie
    between them, and the standard deviation is positive. *)
Theorem write_stats_ordered (pseudonym_consumption : gmap Z R) s :
  write_stats pseudonym_consumption = Some s →
  (∃ k, pseudonym_consumption !! k = Some (min_pseudo_cons s))
  ∧ (∃ k, pseudonym_consumption !! k = Some (max_pseudo_cons s))
  ∧ (∀ k r, pseudonym_consumption !! k = Some r →
            min_pseudo_cons s <= r <= max_pseudo_cons s)
  ∧ min_pseudo_cons s <= med_pseudo_cons s <= max_pseudo_cons s
  ∧ min_pseudo_cons s <= mean_pseudo_cons s <= max_pseudo_cons s
  ∧ 0 < std_pseudo_cons s.
Proof.
  unfold write_stats.
  destruct (calculate_characteristics (map_to_list pseudonym_consumption).*2) as [s'|] eqn:Hs;
    [|done].
  cbn [mbind option_bind].
  destruct (print_characteristics s') eqn:Hprint; [|done]. cbn [mbind option_bind].
  intros [= <-].
  destruct (calculate_characteristics_sound _ _ Hs)
    as (Hmin & Hmax & Hrange & Hmed & Hmean & Hstd & _).
  assert (∀ r, r ∈ (map_to_list pseudonym_consumption).*2
               ↔ ∃ k, pseudonym_consumption !! k = Some r) as Helem.
  { intros r. rewrite list_elem_of_fmap. split.
    - intros ([k r'] & -> & Hin). exists k. by apply elem_of_map_to_list.
    - intros [k Hk]. exists (k, r). split; [done|]. by apply elem_of_map_to_list. }
  assert (0 < std_pseudo_cons s') as Hstd_pos.
  { destruct (Req_dec_T (std_pseudo_cons s') 0) as [Hz|Hnz]; [|lra].
    by rewrite (print_characteristics_zero_std s' Hz) in Hprint. }
  split; [by apply Helem|]. split; [by apply Helem|].
  split; [intros k r Hk; apply Hrange, Helem; eauto|].
  split; [exact Hmed|]. split; [exact Hmean|exact Hstd_pos].
Qed.

(** *** When [write_stats] raises *)

Lemma values_of_map (pseudonym_consumption : gmap Z R) (r : R) :
  r ∈ (map_to_list pseudonym_consumption).*2 ↔ ∃ k, pseudonym_consumption !! k = Some r.
Proof.
  rewrite list_elem_of_fmap. split.
  - intros ([k r'] & -> & Hin). exists k. by apply elem_of_map_to_list.
  - intros [k Hk]. exists (k, r). split; [done|]. by apply elem_of_map_to_list.
Qed.

Lemma print_characteristics_None_iff s :
  0 < min_pseudo_cons s → 0 < max_pseudo_cons s → 0 < med_pseudo_cons s →
  0 < mean_pseudo_cons s →
  print_characteristics s = None ↔ std_pseudo_cons s = 0.
Proof.
  intros Hmin Hmax Hmed Hmean. split; [|apply print_characteristics_zero_std].
  unfold print_characteristics, py_truediv.
  destruct (Req_dec_T (min_pseudo_cons s) 0); [lra|].
  destruct (Req_dec_T (max_pseudo_cons s) 0); [lra|].
  destruct (Req_dec_T (med_pseudo_cons s) 0); [lra|].
  destruct (Req_dec_T (mean_pseudo_cons s) 0); [lra|].
  destruct (Req_dec_T (std_pseudo_cons s) 0); done.
Qed.

Lemma write_stats_None_iff (pseudonym_consumption : gmap Z R) :
  (∀ k r, pseudonym_consumption !! k = Some r → 0 < r) →
  write_stats pseudonym_consumption = None
  ↔ (size pseudonym_consumption < 2)%nat
    ∨ ∃ r, ∀ k r', pseudonym_consumption !! k = Some r' → r' = r.
Proof.
  intros Hpos. unfold write_stats.
  set (values := (map_to_list pseudonym_consumption).*2).
  assert (List.length values = size pseudonym_consumption) as Hlen
    by (unfold values; rewrite length_fmap; apply length_map_to_list).
  assert ((∃ r, ∀ y, y ∈ values → y = r)
          ↔ ∃ r, ∀ k r', pseudonym_consumption !! k = Some r' → r' = r) as Hequal.
  { split; intros [r Hall]; exists r.
    - intros k r' Hk. apply Hall, values_of_map. eauto.
    - intros y Hy. apply values_of_map in Hy as [k Hk]. eauto. }
  destruct (calculate_characteristics values) as [s|] eqn:Hs; cbn [mbind option_bind].
  - assert (¬ (List.length values < 2)%nat) as Hlen2.
    { intros H. apply calculate_characteristics_None in H. by rewrite H in Hs. }
    destruct (calculate_characteristics_sound _ _ Hs)
      as (Hmin & Hmax & Hrange & Hmed & Hmean & _ & Hzero).
    assert (0 < min_pseudo_cons s) as Hmin_pos
      by (apply values_of_map in Hmin as [k Hk]; eauto).
    rewrite <- Hequal, <- Hzero, <- print_characteristics_None_iff by lra.
    destruct (print_characteristics s); cbn [mbind option_bind]; split; try done.
    + intros [?|?]; [lia|done].
    + by right.
  - apply calculate_characteristics_None in Hs. split; [|done]. intros _. left. lia.
Qed.

Lemma pseudonyms_per_id_nonempty cams (static_id : Z) (pseudonyms : gset Z) :
  pseudonyms_per_id cams !! static_id = Some pseudonyms → (0 < size pseudonyms)%nat.
Proof.
  rewrite pseudonyms_per_id_lookup.
  destruct (decide (static_id ∈ map CAM.static_id cams)) as [Hin|]; [|done].
  intros [= <-]. apply list_elem_of_fmap in Hin as (cam & -> & Hin).
  assert (CAM.pseudo_id cam
          ∈ list_to_set (C := gset Z)
              (map CAM.pseudo_id (filter (fun c => CAM.static_id c = CAM.static_id cam) cams)))
    as Helem.
  { apply elem_of_list_to_set. apply (list_elem_of_fmap_2 CAM.pseudo_id).
    by apply list_elem_of_filter. }
  destruct (size _) eqn:E; [|lia].
  apply size_empty_iff in E. rewrite E in Helem. by apply elem_of_empty in Helem.
Qed.

(** X20: With a positive simulated time the consumption is computed, and
    [write_stats] raises exactly when fewer than two distinct permanent ids
    are present or all vehicles have the same rate. *)
Theorem pseudonym_consumption_stats_raise_iff cams (sim_time : R) :
  0 < sim_time →
  ∃ pseudonym_consumption,
    calculate_pseudonym_consumption cams sim_time = Some pseudonym_consumption
    ∧ (write_stats pseudonym_consumption = None
       ↔ (distinct_count (map CAM.static_id cams) < 2)%nat
         ∨ ∃ r, ∀ k r', pseudonym_consumption !! k = Some r' → r' = r).
Proof.
  intros Hsim. unfold calculate_pseudonym_consumption.
  destruct (Req_dec_T sim_time 0) as [?|_]; [lra|].
  eexists. split; [done|].
  rewrite write_stats_None_iff.
  - by rewrite map_size_fmap, size_pseudonyms_per_id.
  - intros k r. rewrite lookup_fmap.
    destruct (pseudonyms_per_id cams !! k) as [pseudonyms|] eqn:Hk; [|done].
    intros [= <-]. apply pseudonyms_per_id_nonempty in Hk.
    apply Rdiv_lt_0_compat; [|done]. by apply lt_0_INR.
Qed.

Lemma pseudonym_consumption_stats_raise_iff_witness :
  ∃ pseudonym_consumption,
    calculate_pseudonym_consumption Examples.one_pseudonym_each 100
      = Some pseudonym_consumption
    ∧ (write_stats pseudonym_consumption = None
       ↔ (distinct_count (map CAM.static_id Examples.one_pseudonym_each) < 2)%nat
         ∨ ∃ r, ∀ k r', pseudonym_consumption !! k = Some r' → r' = r).
Proof. apply (pseudonym_consumption_stats_raise_iff Examples.one_pseudonym_each 100). lra. Defined.

Lemma write_stats_ordered_witness :
  ∃ pseudonym_consumption s,
    calculate_pseudonym_consumption Examples.unequal_consumption 100
      = Some pseudonym_consumption
    ∧ write_stats pseudonym_consumption = Some s
    ∧ min_pseudo_cons s <= mean_pseudo_cons s <= max_pseudo_cons s
    ∧ 0 < std_pseudo_cons s.
Proof.
  assert (pseudonyms_per_id Examples.unequal_consumption
          = <[1%Z := {[7%Z]}]> (<[2%Z := {[9%Z; 10%Z]}]> ∅)) as Hper
    by (vm_compute; reflexivity).
  set (pc := <[1%Z := 1 / 100]> (<[2%Z := 2 / 100]> (∅ : gmap Z R))).
  assert (calculate_pseudonym_consumption Examples.unequal_consumption 100 = Some pc) as Hpc.
  { unfold calculate_pseudonym_consumption.
    destruct (Req_dec_T 100 0) as [H|_]; [lra|].
    rewrite Hper, !fmap_insert, fmap_empty.
    change (size ({[7%Z]} : gset Z)) with 1%nat.
    change (size ({[9%Z; 10%Z]} : gset Z)) with 2%nat.
    unfold pc. do 3 f_equal; simpl; lra. }
  destruct (write_stats pc) as [s|] eqn:Hs.
  - exists pc, s. destruct (write_stats_ordered pc s Hs) as (_ & _ & _ & _ & Hmean & Hstd).
    split; [exact Hpc|]. split; [exact Hs|]. split; [exact Hmean|exact Hstd].
  - exfalso. apply write_stats_None_iff in Hs.
    + destruct Hs as [Hsize|[r Hall]].
      * assert (size pc = 2%nat) as Hsize2.
        { unfold pc. generalize (1 / 100) (2 / 100). intros r1 r2. vm_compute. reflexivity. }
        lia.
      * assert (1 / 100 = r) as H1 by (apply (Hall 1%Z); reflexivity).
        assert (2 / 100 = r) as H2 by (apply (Hall 2%Z); reflexivity).
        lra.
    + intros k r. unfold pc. rewrite !lookup_insert, lookup_empty.
      repeat case_decide; intros [= <-]; lra.
Defined.
End ConsumptionStatistics.

(** ** The allow-list of [build_routes] *)

Section AllowList.
Implicit Types (cam : CAM.t) (cams : list CAM.t).

Lemma foldl_build_routes_step_processed vehicles cams
    (st : list VehicleConstantId.t * list VehicleDynamicId.t) :
  foldl (build_routes_step vehicles) st cams
  = foldl (build_routes_step None) st (processed_cams vehicles cams).
Proof.
  revert st. induction cams as [|cam cams IH]; intros [static_vehicles tracks]; [done|].
  cbn [foldl]. unfold processed_cams.
  destruct (excluded vehicles cam) eqn:Hex.
  - rewrite filter_cons_False by (by rewrite Hex).
    rewrite build_routes_step_excluded by done. apply IH.
  - rewrite filter_cons_True by done. cbn [foldl].
    rewrite IH. f_equal. by rewrite !build_routes_step_processed.
Qed.

(** X8: The allow-list does nothing but drop CAMs before they are processed:
    the routes and the vehicle traces of a stream under an allow-list are
    those of the stream without the dropped CAMs under no allow-list; and an
    empty allow-list drops nothing. *)
Theorem allow_list_filters_the_stream cams vehicles max_vehicles :
  build_routes cams vehicles = build_routes (processed_cams vehicles cams) None
  ∧ get_vehicle_traces cams vehicles max_vehicles
    = get_vehicle_traces (processed_cams vehicles cams) None max_vehicles
  ∧ processed_cams (Some []) cams = cams
  ∧ (∀ static_ids cam,
       static_ids ≠ [] →
       cam ∈ processed_cams (Some static_ids) cams
       ↔ cam ∈ cams ∧ CAM.static_id cam ∈ static_ids).
Proof.
  assert (build_routes cams vehicles = build_routes (processed_cams vehicles cams) None)
    as Hroutes by apply foldl_build_routes_step_processed.
  split_and!.
  - exact Hroutes.
  - unfold get_vehicle_traces. by rewrite Hroutes.
  - clear Hroutes. unfold processed_cams. induction cams as [|cam cams IH]; [done|].
    rewrite filter_cons_True by done. by rewrite IH.
  - intros static_ids cam Hne. unfold processed_cams. rewrite list_elem_of_filter.
    destruct static_ids as [|id static_ids]; [done|]. cbn [excluded].
    rewrite negb_false_iff, bool_decide_eq_true. tauto.
Qed.
End AllowList.

(** ** The overall tracking success of [evaluate] *)

Section OverallTrackingSuccess.
Local Open Scope R_scope.
Implicit Types (traces : list VehicleTrace.t).

Lemma tracking_successes_bounded traces :
  Forall (fun trace => ∃ report, write_success_rate trace = Some report
                         ∧ 0 <= returned_tracking_success report <= 1) traces →
  ∃ tracking_successes,
    mapM (fun trace => returned_tracking_success <$> write_success_rate trace) traces
    = Some tracking_successes
    ∧ List.length tracking_successes = List.length traces
    ∧ ∀ y, y ∈ tracking_successes → 0 <= y <= 1.
Proof.
  induction 1 as [|trace traces (report & Hreport & Hrange) _ (successes & Hmap & Hlen & Hall)].
  - exists []. split_and!; [done|done|]. intros y Hy. by apply elem_of_nil in Hy.
  - exists (returned_tracking_success report :: successes). split_and!.
    + cbn. rewrite Hreport. cbn. by rewrite Hmap.
    + cbn. by rewrite Hlen.
    + intros y [->|Hy]%elem_of_cons; [done|by apply Hall].
Qed.

Lemma tracking_success_percent_bounded traces :
  traces ≠ [] →
  Forall (fun trace => ∃ report, write_success_rate trace = Some report
                         ∧ 0 <= returned_tracking_success report <= 1) traces →
  ∃ tracking_success,
    tracking_success_percent traces = Some tracking_success
    ∧ 0 <= tracking_success <= 100.
Proof.
  intros Hne Hall.
  destruct (tracking_successes_bounded traces Hall) as (successes & Hmap & Hlen & Hrange).
  unfold tracking_success_percent. rewrite Hmap. cbn [mbind option_bind].
  assert (0 < List.length traces)%nat as Hpos by (destruct traces; [done|cbn; lia]).
  unfold py_truediv.
  destruct (Req_dec_T (INR (List.length traces)) 0) as [Hz|_].
  { apply lt_0_INR in Hpos. lra. }
  cbn [mbind option_bind]. eexists. split; [done|].
  assert (mean successes = Some (R_sum successes / INR (List.length traces))) as Hmean.
  { unfold mean. rewrite Hlen.
    destruct (Nat.ltb_spec (List.length traces) 1) as [?|_]; [lia|done]. }
  pose proof (mean_between successes 0 1 _ Hrange Hmean). lra.
Qed.

(** X11: For a CAM stream in time order whose evaluation yields at least one
    vehicle trace, the overall tracking success [evaluate] computes from the
    traces of [get_vehicle_traces] is a percentage between 0 and 100. *)
Theorem overall_tracking_success_percent cams vehicles max_vehicles :
  Sorted Z.le (map CAM.timestamp cams) →
  get_vehicle_traces cams vehicles max_vehicles ≠ [] →
  ∃ tracking_success,
    tracking_success_percent (get_vehicle_traces cams vehicles max_vehicles)
    = Some tracking_success
    ∧ 0 <= tracking_success <= 100.
Proof.
  intros Hs Hne. apply tracking_success_percent_bounded; [done|].
  apply Forall_forall. intros trace Hin.
  by destruct (vehicle_trace_durations cams vehicles max_vehicles trace Hs Hin) as (_ & _ & ?).
Qed.

Lemma overall_tracking_success_percent_witness :
  ∃ tracking_success,
    tracking_success_percent (get_vehicle_traces Examples.lone_stream None None)
    = Some tracking_success
    ∧ 0 <= tracking_success <= 100.
Proof.
  apply (overall_tracking_success_percent Examples.lone_stream None None).
  - repeat constructor; simpl; lia.
  - assert (∃ vehicle_trace,
              get_vehicle_traces Examples.lone_stream None None = [vehicle_trace])
      as [vehicle_trace ->] by (vm_compute; eauto).
    discriminate.
Defined.
End OverallTrackingSuccess.

(** ** Pixels of the map image *)

Section MapPixels.
Local Open Scope R_scope.

Lemma Int_part_spec (x : R) (z : Z) : IZR z <= x < IZR z + 1 → Int_part x = z.
Proof.
  intros [Hlow Hhigh]. destruct (base_Int_part x) as [Hle Hgt].
  assert (Int_part x < z + 1)%Z by (apply lt_IZR; rewrite plus_IZR; lra).
  assert (z < Int_part x + 1)%Z by (apply lt_IZR; rewrite plus_IZR; lra).
  lia.
Qed.

Lemma Int_part_mono (x x' : R) : x <= x' → (Int_part x <= Int_part x')%Z.
Proof.
  intros Hle. destruct (base_Int_part x) as [Hx _], (base_Int_part x') as [_ Hx'].
  assert (Int_part x < Int_part x' + 1)%Z by (apply lt_IZR; rewrite plus_IZR; lra).
  lia.
Qed.

Lemma Int_part_nonneg (x : R) : 0 <= x → (0 <= Int_part x)%Z.
Proof.
  intros Hx. rewrite <- (Int_part_spec 0 0) by lra. by apply Int_part_mono.
Qed.

Lemma py_int_IZR (z : Z) : py_int (IZR z) = z.
Proof.
  unfold py_int. destruct (Rle_dec 0 (IZR z)) as [_|_].
  - apply Int_part_spec. lra.
  - rewrite <- opp_IZR, (Int_part_spec (IZR (- z)) (- z)) by lra. lia.
Qed.

Lemma py_int_mono (x x' : R) : x <= x' → (py_int x <= py_int x')%Z.
Proof.
  intros Hle. unfold py_int.
  destruct (Rle_dec 0 x) as [Hx|Hx], (Rle_dec 0 x') as [Hx'|Hx']; try lra.
  - by apply Int_part_mono.
  - pose proof (Int_part_nonneg (- x) ltac:(lra)). pose proof (Int_part_nonneg x' Hx'). lia.
  - pose proof (Int_part_mono (- x') (- x) ltac:(lra)). lia.
Qed.

Lemma scale_mono (value value' low high : R) (size : Z) :
  low < high → value <= value' → (0 <= size)%Z →
  (value - low) * (IZR size - 0) / (high - low) + 0
  <= (value' - low) * (IZR size - 0) / (high - low) + 0.
Proof.
  intros Hlh Hv Hs. apply IZR_le in Hs.
  rewrite !Rplus_0_r, !Rminus_0_r. unfold Rdiv.
  apply Rmult_le_compat_r; [apply Rlt_le, Rinv_0_lt_compat; lra|].
  apply Rmult_le_compat_r; lra.
Qed.

Lemma scale_low (low high : R) (size : Z) :
  (low - low) * (IZR size - 0) / (high - low) + 0 = IZR 0.
Proof. unfold Rdiv. rewrite Rminus_diag. lra. Qed.

Lemma scale_high (low high : R) (size : Z) :
  low < high → (high - low) * (IZR size - 0) / (high - low) + 0 = IZR size.
Proof. intros Hlh. field. lra. Qed.

(** X22: [scale_to_img] maps a coordinate of the map section into the
    image: the south-west corner of the section goes to the lower left pixel
    [(0, image_height)], and every coordinate of the section to a pixel with
    [0 <= x <= image_width] and [0 <= y <= image_height].  (Where exactly a
    coordinate at the upper edge falls depends on rounding: on an image of
    107 x 107 pixels the program puts the north-east corner at [(106, 0)],
    exact arithmetic at [(107, 0)]; nothing is stated about that.) *)
Theorem scale_to_img_inside_image (latitude longitude : R) (image_width image_height : Z) :
  (0 <= image_width)%Z → (0 <= image_height)%Z →
  48.71143 <= latitude <= 48.78043 →
  9.27843 <= longitude <= 9.43005 →
  GPSVisualizer.scale_to_img 48.71143 9.27843 image_width image_height = (0%Z, image_height)
  ∧ (0 <= (GPSVisualizer.scale_to_img latitude longitude image_width image_height).1
       <= image_width)%Z
  ∧ (0 <= (GPSVisualizer.scale_to_img latitude longitude image_width image_height).2
       <= image_height)%Z.
Proof.
  intros Hw Hh Hlat Hlong. unfold GPSVisualizer.scale_to_img. cbn [fst snd].
  split; [|split].
  - rewrite !scale_low, py_int_IZR. f_equal. lia.
  - pose proof (py_int_mono _ _ (scale_mono 9.27843 longitude 9.27843 9.43005 image_width
                                   ltac:(lra) ltac:(lra) Hw)) as Hlow.
    rewrite scale_low, py_int_IZR in Hlow.
    pose proof (py_int_mono _ _ (scale_mono longitude 9.43005 9.27843 9.43005 image_width
                                   ltac:(lra) ltac:(lra) Hw)) as Hhigh.
    rewrite scale_high, py_int_IZR in Hhigh by lra.
    lia.
  - pose proof (py_int_mono _ _ (scale_mono 48.71143 latitude 48.71143 48.78043 image_height
                                   ltac:(lra) ltac:(lra) Hh)) as Hlow.
    rewrite scale_low, py_int_IZR in Hlow.
    pose proof (py_int_mono _ _ (scale_mono latitude 48.78043 48.71143 48.78043 image_height
                                   ltac:(lra) ltac:(lra) Hh)) as Hhigh.
    rewrite scale_high, py_int_IZR in Hhigh by lra.
    lia.
Qed.

Lemma scale_to_img_inside_image_witness :
  (0 <= (GPSVisualizer.scale_to_img 48.74 9.3 1000 500).1 <= 1000)%Z
  ∧ (0 <= (GPSVisualizer.scale_to_img 48.74 9.3 1000 500).2 <= 500)%Z.
Proof.
  apply (scale_to_img_inside_image 48.74 9.3 1000 500); lia || lra.
Defined.

(** X23: In exact arithmetic, [scale_to_img] keeps the order of coordinates on
    an image of non-negative size: further east is never further left, and
    further north is never further down (the row index grows downwards). *)
Theorem scale_to_img_monotone (latitude latitude' longitude longitude' : R)
    (image_width image_height : Z) :
  (0 <= image_width)%Z → (0 <= image_height)%Z →
  latitude <= latitude' → longitude <= longitude' →
  ((GPSVisualizer.scale_to_img latitude longitude image_width image_height).1
   <= (GPSVisualizer.scale_to_img latitude' longitude' image_width image_height).1)%Z
  ∧ ((GPSVisualizer.scale_to_img latitude' longitude' image_width image_height).2
     <= (GPSVisualizer.scale_to_img latitude longitude image_width image_height).2)%Z.
Proof.
  intros Hw Hh Hlat Hlong. unfold GPSVisualizer.scale_to_img. cbn [fst snd]. split.
  - apply py_int_mono, scale_mono; lra || done.
  - pose proof (py_int_mono _ _ (scale_mono latitude latitude' 48.71143 48.78043 image_height
                                   ltac:(lra) Hlat Hh)).
    lia.
Qed.

Lemma scale_to_img_monotone_witness :
  ((GPSVisualizer.scale_to_img 48.72 9.3 1000 500).1
   <= (GPSVisualizer.scale_to_img 48.75 9.4 1000 500).1)%Z
  ∧ ((GPSVisualizer.scale_to_img 48.75 9.4 1000 500).2
     <= (GPSVisualizer.scale_to_img 48.72 9.3 1000 500).2)%Z.
Proof.
  apply (scale_to_img_monotone 48.72 48.75 9.3 9.4 1000 500); lia || lra.
Defined.
End MapPixels.

(** ** The number of CAMs received over time *)

Section CamsOverTime.
Local Open Scope Z_scope.
Implicit Types (cam : CAM.t) (cams : list CAM.t) (lst : list Z).

Lemma received_until_app (t : Z) cams cams' :
  received_until t (cams ++ cams') = (received_until t cams + received_until t cams')%nat.
Proof. unfold received_until. by rewrite filter_app, length_app. Qed.

Lemma received_until_all (t : Z) cams :
  (∀ cam, cam ∈ cams → CAM.timestamp cam <= t) → received_until t cams = List.length cams.
Proof.
  unfold received_until. induction cams as [|cam cams IH]; intros Hall; [done|].
  rewrite filter_cons_True by (apply Hall; left). cbn. f_equal.
  apply IH. intros c Hc. apply Hall. by right.
Qed.

Lemma received_until_none (t : Z) cams :
  (∀ cam, cam ∈ cams → t < CAM.timestamp cam) → received_until t cams = 0%nat.
Proof.
  unfold received_until. induction cams as [|cam cams IH]; intros Hall; [done|].
  rewrite filter_cons_False by (pose proof (Hall cam ltac:(left)); lia).
  apply IH. intros c Hc. apply Hall. by right.
Qed.

Lemma received_until_succ (t : Z) cams :
  t + 1 ∉ map CAM.timestamp cams → received_until (t + 1) cams = received_until t cams.
Proof.
  unfold received_until. induction cams as [|cam cams IH]; intros Hout; [done|].
  cbn [map] in Hout. apply not_elem_of_cons in Hout as [Hne Hout].
  specialize (IH Hout).
  destruct (decide (CAM.timestamp cam <= t)) as [Hle|Hgt].
  - rewrite !filter_cons_True by lia. cbn. by rewrite IH.
  - by rewrite !filter_cons_False by lia.
Qed.

Lemma received_until_pos cam cams :
  cam ∈ cams → (0 < received_until (CAM.timestamp cam) cams)%nat.
Proof.
  unfold received_until. induction cams as [|c cams IH]; intros Hin.
  - by apply elem_of_nil in Hin.
  - apply elem_of_cons in Hin as [<-|Hin].
    + rewrite filter_cons_True by lia. cbn. lia.
    + specialize (IH Hin). destruct (decide (CAM.timestamp c <= CAM.timestamp cam)).
      * rewrite filter_cons_True by done. cbn. lia.
      * by rewrite filter_cons_False.
Qed.

Lemma last_default {A} (l : list A) (x d d' : A) : List.last (x :: l) d = List.last (x :: l) d'.
Proof. revert x. induction l as [|y l IH]; intros x; [done|]. apply (IH y). Qed.

Lemma timestamp_last (first : CAM.t) (others : list CAM.t) :
  CAM.timestamp (List.last others first) = py_last (map CAM.timestamp (first :: others)).
Proof.
  unfold py_last. revert first. induction others as [|cam others IH]; intros first; [done|].
  rewrite (last_default others cam first cam).
  specialize (IH cam). destruct others; [done|exact IH].
Qed.

Lemma counted_snoc cams cam (i : nat) :
  (∀ d, d ∈ cams → CAM.timestamp d <= CAM.timestamp cam) →
  counted (cams ++ [cam]) i
  = if decide (Z.of_nat i = CAM.timestamp cam) then Z.of_nat (List.length cams) + 1
    else counted cams i.
Proof.
  intros Hle. unfold counted. rewrite map_app. cbn [map].
  destruct (decide (Z.of_nat i = CAM.timestamp cam)) as [Hi|Hi].
  - rewrite decide_True by (apply elem_of_app; right; rewrite Hi; left).
    rewrite received_until_all, length_app; [cbn; lia|].
    intros d [Hd|Hd%list_elem_of_singleton]%elem_of_app; [|subst; lia].
    rewrite Hi. by apply Hle.
  - destruct (decide (Z.of_nat i ∈ map CAM.timestamp cams)) as [Hin|Hout].
    + rewrite decide_True by (apply elem_of_app; by left).
      rewrite received_until_app.
      rewrite (received_until_none _ [cam]); [f_equal; lia|].
      intros c ->%list_elem_of_singleton.
      apply list_elem_of_fmap in Hin as (d & Hd & Hin). specialize (Hle d Hin). lia.
    + rewrite decide_False; [done|].
      intros [?|Hc%list_elem_of_singleton]%elem_of_app; [done|]. by apply Hi.
Qed.

Lemma count_loop_counted (rest done_cams : list CAM.t) lst :
  (∀ d r, d ∈ done_cams → r ∈ rest → CAM.timestamp d <= CAM.timestamp r) →
  StronglySorted Z.le (map CAM.timestamp rest) →
  (∀ r, r ∈ rest → 0 <= CAM.timestamp r < Z.of_nat (List.length lst)) →
  (∀ i : nat, (i < List.length lst)%nat → lst !! i = Some (counted done_cams i)) →
  ∃ lst',
    count_loop rest (Z.of_nat (List.length done_cams)) lst = Some lst'
    ∧ List.length lst' = List.length lst
    ∧ ∀ i : nat, (i < List.length lst)%nat → lst' !! i = Some (counted (done_cams ++ rest) i).
Proof.
  revert done_cams lst.
  induction rest as [|cam rest IH]; intros done_cams lst Hle Hs Hrange Hinv.
  - exists lst. rewrite app_nil_r. by split_and!.
  - apply StronglySorted_inv in Hs as [Hs Hhd]. rewrite Forall_forall in Hhd.
    pose proof (Hrange cam ltac:(left)) as Hcam.
    cbn [count_loop]. unfold py_setitem.
    replace (0 <=? CAM.timestamp cam) with true by (symmetry; apply Z.leb_le; lia).
    replace (CAM.timestamp cam <? Z.of_nat (List.length lst)) with true
      by (symmetry; apply Z.ltb_lt; lia).
    cbn [andb mbind option_bind].
    set (lst1 := <[Z.to_nat (CAM.timestamp cam) := Z.of_nat (List.length done_cams) + 1]> lst).
    assert (List.length lst1 = List.length lst) as Hlen1 by apply length_insert.
    destruct (IH (done_cams ++ [cam]) lst1) as (lst' & Hloop & Hlen & Hinv').
    + intros d r [Hd|Hd%list_elem_of_singleton]%elem_of_app Hr.
      * apply Hle; [done|by right].
      * subst d. apply Hhd. by apply (list_elem_of_fmap_2 CAM.timestamp).
    + exact Hs.
    + intros r Hr. rewrite Hlen1. apply Hrange. by right.
    + intros i Hi. rewrite Hlen1 in Hi.
      rewrite counted_snoc by (intros d Hd; apply Hle; [done|left]).
      unfold lst1. destruct (decide (Z.of_nat i = CAM.timestamp cam)) as [Heq|Hne].
      * replace (Z.to_nat (CAM.timestamp cam)) with i by lia.
        by rewrite list_lookup_insert_eq.
      * rewrite list_lookup_insert_ne by lia. by apply Hinv.
    + exists lst'. rewrite <- (assoc_L (++)) in Hinv'. cbn [app] in Hinv'.
      rewrite length_app, Nat2Z.inj_add in Hloop. cbn [List.length] in Hloop.
      split_and!; [exact Hloop|congruence|].
      intros i Hi. apply Hinv'. by rewrite Hlen1.
Qed.

Lemma fill_step_nonzero lst (i : nat) (v : Z) :
  lst !! i = Some v → v ≠ 0 → fill_step lst i = lst.
Proof. intros Hi Hv. unfold fill_step. rewrite Hi. by destruct v. Qed.

Lemma fill_step_zero lst (i : nat) (previous : Z) :
  lst !! i = Some 0 → lst !! (i - 1)%nat = Some previous →
  fill_step lst i = <[i := previous]> lst.
Proof. intros Hi Hp. unfold fill_step. by rewrite Hi, Hp. Qed.

Lemma fill_loop_cumulative cams lst (m : nat) :
  (∀ cam, cam ∈ cams → 0 <= CAM.timestamp cam) →
  (∀ i : nat, (i < List.length lst)%nat → lst !! i = Some (counted cams i)) →
  (m <= List.length lst - 1)%nat →
  List.length (foldl fill_step lst (seq 1 m)) = List.length lst
  ∧ (∀ i : nat, (i <= m)%nat → (i < List.length lst)%nat →
       foldl fill_step lst (seq 1 m) !! i = Some (Z.of_nat (received_until (Z.of_nat i) cams)))
  ∧ (∀ i : nat, (m < i)%nat → foldl fill_step lst (seq 1 m) !! i = lst !! i).
Proof.
  intros Hnonneg Hinv. induction m as [|m IH]; intros Hm.
  - cbn [seq foldl]. split_and!; [done| |done].
    intros i Hi Hlen. assert (i = 0%nat) as -> by lia.
    rewrite Hinv by done. unfold counted. f_equal.
    destruct (decide (Z.of_nat 0 ∈ map CAM.timestamp cams)) as [|Hout]; [done|].
    rewrite received_until_none; [done|].
    intros cam Hcam. specialize (Hnonneg cam Hcam).
    assert (CAM.timestamp cam ≠ Z.of_nat 0); [|lia].
    intros Heq. apply Hout. rewrite <- Heq. by apply (list_elem_of_fmap_2 CAM.timestamp).
  - destruct IH as (Hlen & Hfilled & Hrest); [lia|].
    rewrite seq_S, foldl_app. cbn [foldl]. change (1 + m)%nat with (S m).
    set (lst' := foldl fill_step lst (seq 1 m)) in *.
    assert (lst' !! S m = Some (counted cams (S m))) as Hcurrent
      by (rewrite Hrest by lia; apply Hinv; lia).
    assert (lst' !! m = Some (Z.of_nat (received_until (Z.of_nat m) cams))) as Hprevious
      by (apply Hfilled; lia).
    assert (fill_step lst' (S m)
            = <[S m := Z.of_nat (received_until (Z.of_nat (S m)) cams)]> lst') as ->.
    { unfold counted in Hcurrent.
      destruct (decide (Z.of_nat (S m) ∈ map CAM.timestamp cams)) as [Hin|Hout].
      - rewrite (fill_step_nonzero _ _ _ Hcurrent).
        + symmetry. by apply list_insert_id.
        + apply list_elem_of_fmap in Hin as (cam & Heq & Hin). rewrite Heq.
          pose proof (received_until_pos cam cams Hin). lia.
      - rewrite (fill_step_zero lst' (S m) (Z.of_nat (received_until (Z.of_nat m) cams)) Hcurrent);
          [|by replace (S m - 1)%nat with m by lia].
        f_equal. f_equal. rewrite Nat2Z.inj_succ, <- Z.add_1_r.
        symmetry. apply received_until_succ. by rewrite Z.add_1_r, <- Nat2Z.inj_succ. }
    split_and!.
    + by rewrite length_insert.
    + intros i Hi Hi'. destruct (decide (i = S m)) as [->|Hne].
      * rewrite list_lookup_insert_eq by lia. done.
      * rewrite list_lookup_insert_ne by done. apply Hfilled; lia.
    + intros i Hi. rewrite list_lookup_insert_ne by lia. apply Hrest. lia.
Qed.

(** X17: For a stream in time order that starts at a non-negative timestamp,
    the list [plot_cams_over_time] plots has one entry for every time from 0
    to the last timestamp, and the entry at time [t] is the number of CAMs
    received up to [t]. *)
Theorem plot_cams_over_time_cumulative (first : CAM.t) (others : list CAM.t) :
  Sorted Z.le (map CAM.timestamp (first :: others)) →
  0 <= CAM.timestamp first →
  ∃ lst,
    plot_cams_over_time (first :: others) = Some lst
    ∧ Z.of_nat (List.length lst) = py_last (map CAM.timestamp (first :: others)) + 1
    ∧ ∀ t, 0 <= t <= py_last (map CAM.timestamp (first :: others)) →
           lst !! Z.to_nat t = Some (Z.of_nat (received_until t (first :: others))).
Proof.
  intros Hs Hfirst.
  unfold plot_cams_over_time. rewrite timestamp_last.
  set (cams := first :: others) in *.
  assert (∀ cam, cam ∈ cams →
                 CAM.timestamp first <= CAM.timestamp cam <= py_last (map CAM.timestamp cams))
    as Hbounds.
  { intros cam Hcam. apply (sorted_bounds_elements _ _ _ Hs).
    change (CAM.timestamp cam ∈ map CAM.timestamp cams).
    by apply (list_elem_of_fmap_2 CAM.timestamp). }
  set (max_timestamp := py_last (map CAM.timestamp cams)) in *.
  assert (0 <= max_timestamp) as Hmax by (specialize (Hbounds first ltac:(left)); lia).
  set (lst0 := replicate (Z.to_nat (max_timestamp + 1)) 0).
  assert (List.length lst0 = Z.to_nat (max_timestamp + 1)) as Hlen0 by apply length_replicate.
  destruct (count_loop_counted cams [] lst0) as (lst1 & Hloop & Hlen1 & Hinv).
  - intros d r Hd. by apply elem_of_nil in Hd.
  - apply Sorted_StronglySorted; [|done]. intros x y z. lia.
  - intros r Hr. specialize (Hbounds r Hr). lia.
  - intros i Hi. unfold counted. cbn [map]. rewrite decide_False by apply not_elem_of_nil.
    apply lookup_replicate_2. lia.
  - cbn [List.length app] in Hloop. change (Z.of_nat 0) with 0 in Hloop.
    rewrite Hloop. cbn [mbind option_bind]. eexists. split; [done|].
    rewrite <- Hlen1 in Hinv.
    destruct (fill_loop_cumulative cams lst1 (List.length lst1 - 1)) as (Hlen & Hfilled & _);
      [intros cam Hcam; specialize (Hbounds cam Hcam); lia|exact Hinv|lia|].
    split; [lia|].
    intros t Ht. rewrite Hfilled by lia. by rewrite Z2Nat.id by lia.
Qed.

Lemma plot_cams_over_time_cumulative_witness :
  ∃ lst,
    plot_cams_over_time (Examples.parked_cam 0 1 7 487433425
                         :: [Examples.parked_cam 2 1 7 487433425;
                             Examples.parked_cam 2 2 9 487434425;
                             Examples.parked_cam 4 1 7 487433425]) = Some lst
    ∧ lst !! Z.to_nat 3 = Some 3.
Proof.
  destruct (plot_cams_over_time_cumulative (Examples.parked_cam 0 1 7 487433425)
              [Examples.parked_cam 2 1 7 487433425; Examples.parked_cam 2 2 9 487434425;
               Examples.parked_cam 4 1 7 487433425])
    as (lst & Hplot & _ & Hat).
  - repeat constructor; simpl; lia.
  - simpl. lia.
  - exists lst. split; [exact Hplot|]. apply (Hat 3). vm_compute. split; discriminate.
Defined.
End CamsOverTime.

(** ** What a candidate track records, and the pseudonym changes *)

Section PseudonymChanges.
Implicit Types (cam : CAM.t) (cams : list CAM.t) (part : ReconstructedTrace.t)
  (parts : list ReconstructedTrace.t) (changes : gmap Z (R * R)).

Lemma candidate_track_of_fields (first : CAM.t) (others : list CAM.t) :
  VehicleDynamicId.static_id (candidate_track_of first others) = CAM.static_id first
  ∧ VehicleDynamicId.width (candidate_track_of first others) = CAM.width first
  ∧ VehicleDynamicId.length (candidate_track_of first others) = CAM.length first
  ∧ VehicleDynamicId.pseudo_id (candidate_track_of first others)
    = map CAM.pseudo_id (first :: others)
  ∧ VehicleDynamicId.longitude (candidate_track_of first others)
    = map CAM.longitude (first :: others)
  ∧ VehicleDynamicId.latitude (candidate_track_of first others)
    = map CAM.latitude (first :: others)
  ∧ VehicleDynamicId.speed (candidate_track_of first others)
    = map CAM.speed (first :: others)
  ∧ VehicleDynamicId.heading (candidate_track_of first others)
    = map CAM.heading (first :: others)
  ∧ VehicleDynamicId.timestamps (candidate_track_of first others)
    = map CAM.timestamp (first :: others)
  ∧ VehicleDynamicId.duration (candidate_track_of first others)
    = sum_of_deltas (map CAM.timestamp (first :: others)).
Proof.
  induction others as [|cam others IH] using rev_ind; [by split_and!|].
  destruct IH as (Hid & Hw & Hl & Hp & Hlo & Hla & Hsp & Hh & Hts & Hd).
  rewrite candidate_track_of_snoc. cbn -[map sum_of_deltas].
  rewrite Hid, Hw, Hl, Hp, Hlo, Hla, Hsp, Hh, Hts, Hd.
  rewrite !(app_comm_cons _ _ first), !map_app. cbn [map].
  split_and!; try done.
  by rewrite sum_of_deltas_snoc.
Qed.

(** X5: Every candidate track [build_routes] returns records a non-empty
    subsequence of the processed CAMs: permanent id, width and length are
    those of its first CAM, the lists hold the pseudonyms, positions, speeds
    and headings of its CAMs in order, and the duration is the sum of the
    differences of consecutive timestamps. *)
Theorem build_routes_track_fields cams vehicles (track : VehicleDynamicId.t) :
  track ∈ (build_routes cams vehicles).2 →
  ∃ first others,
    (first :: others) `sublist_of` processed_cams vehicles cams
    ∧ VehicleDynamicId.static_id track = CAM.static_id first
    ∧ VehicleDynamicId.width track = CAM.width first
    ∧ VehicleDynamicId.length track = CAM.length first
    ∧ VehicleDynamicId.pseudo_id track = map CAM.pseudo_id (first :: others)
    ∧ VehicleDynamicId.get_positions track = map position_of_cam (first :: others)
    ∧ VehicleDynamicId.speed track = map CAM.speed (first :: others)
    ∧ VehicleDynamicId.heading track = map CAM.heading (first :: others)
    ∧ VehicleDynamicId.duration track = sum_of_deltas (map CAM.timestamp (first :: others)).
Proof.
  destruct (build_routes_tracks_groups cams vehicles) as (groups & -> & _ & Hsub).
  intros ([first others] & -> & Hg)%list_elem_of_fmap. cbn [fst snd].
  rewrite Forall_forall in Hsub. specialize (Hsub _ Hg). cbn [fst snd] in Hsub.
  destruct (candidate_track_of_fields first others)
    as (Hid & Hw & Hl & Hp & Hlo & Hla & Hsp & Hh & Hts & Hd).
  exists first, others. split_and!; try done.
  unfold VehicleDynamicId.get_positions. rewrite Hlo, Hla, Hts.
  apply zip_positions_of_cams.
Qed.

Lemma build_routes_track_fields_witness :
  ∃ first others,
    (first :: others) `sublist_of` processed_cams None [Examples.first_of_vehicle_1]
    ∧ VehicleDynamicId.pseudo_id Examples.track_of_vehicle_1
      = map CAM.pseudo_id (first :: others)
    ∧ VehicleDynamicId.duration Examples.track_of_vehicle_1
      = sum_of_deltas (map CAM.timestamp (first :: others)).
Proof.
  destruct (build_routes_track_fields [Examples.first_of_vehicle_1] None
              Examples.track_of_vehicle_1)
    as (first & others & Hsub & _ & _ & _ & Hp & _ & _ & _ & Hd).
  - apply list_elem_of_singleton. reflexivity.
  - exists first, others. split; [exact Hsub|]. split; [exact Hp|exact Hd].
Defined.

(** *** [get_pseudonym_changes] *)

Lemma lookup_setdefault changes (key p : Z) (value : R * R) :
  setdefault changes key value !! p
  = match changes !! p with
    | Some v => Some v
    | None => if decide (p = key) then Some value else None
    end.
Proof.
  unfold setdefault. destruct (changes !! key) eqn:E.
  - destruct (decide (p = key)) as [->|Hne]; [by rewrite E|by destruct (changes !! p)].
  - destruct (decide (p = key)) as [->|Hne].
    + by rewrite lookup_insert_eq, E.
    + rewrite lookup_insert_ne by done. by destruct (changes !! p).
Qed.

Lemma first_use_app (p : Z) (uses uses' : list (Z * Position.t)) :
  first_use p (uses ++ uses')
  = match first_use p uses with
    | Some v => Some v
    | None => first_use p uses'
    end.
Proof.
  unfold first_use. induction uses as [|use uses IH]; [done|].
  cbn [app list_find]. destruct (decide (use.1 = p)); [done|].
  destruct (list_find (fun use => use.1 = p) (uses ++ uses')) as [[i u]|],
           (list_find (fun use => use.1 = p) uses) as [[j u']|]; cbn in *; done.
Qed.

(** The position the loop body looks up for a pseudonym of the part. *)
Lemma first_use_zip (p : Z) (pseudo_ids : list Z) (positions : list Position.t) :
  List.length pseudo_ids = List.length positions →
  first_use p (zip pseudo_ids positions)
  = (idx ← py_index pseudo_ids p;
     long ← get_longitudes_as_gps positions !! idx;
     lat ← get_latitudes_as_gps positions !! idx;
     Some (long, lat))
  ∧ (p ∈ pseudo_ids → is_Some (first_use p (zip pseudo_ids positions)))
  ∧ (p ∉ pseudo_ids → first_use p (zip pseudo_ids positions) = None).
Proof.
  revert positions.
  induction pseudo_ids as [|q pseudo_ids IH]; intros [|position positions] Hlen;
    try discriminate.
  - split_and!; [done| |done]. intros H. by apply elem_of_nil in H.
  - destruct (IH positions) as (Heq & Hin & Hout); [by injection Hlen|].
    unfold first_use in *. cbn [zip zip_with list_find py_index fst].
    destruct (decide (q = p)) as [->|Hne].
    + rewrite Z.eqb_refl. split_and!; [done|by eexists|]. intros H. exfalso. apply H. left.
    + replace (q =? p)%Z with false by (symmetry; by apply Z.eqb_neq).
      split_and!.
      * unfold get_longitudes_as_gps, get_latitudes_as_gps in *.
        destruct (py_index pseudo_ids p) as [idx|]; cbn in Heq |- *;
          (etrans; [|exact Heq]);
          destruct (list_find _ (zip pseudo_ids positions)) as [[i u]|]; done.
      * intros [?|H]%elem_of_cons; [congruence|].
        destruct (Hin H) as [v Hv].
        destruct (list_find _ (zip pseudo_ids positions)) as [[i u]|]; [by eexists|done].
      * intros [_ H]%not_elem_of_cons. specialize (Hout H).
        destruct (list_find _ (zip pseudo_ids positions)) as [[i u]|]; done.
Qed.

Lemma inner_loop_changes part (keys : list Z) changes :
  List.length (ReconstructedTrace.pseudo_ids part)
  = List.length (ReconstructedTrace.positions part) →
  (∀ key, key ∈ keys → key ∈ ReconstructedTrace.pseudo_ids part) →
  ∃ changes',
    foldl (pseudonym_changes_step part) (Some changes) keys = Some changes'
    ∧ ∀ p, changes' !! p
           = match changes !! p with
             | Some v => Some v
             | None =>
                 if decide (p ∈ keys)
                 then first_use p (zip (ReconstructedTrace.pseudo_ids part)
                                     (ReconstructedTrace.positions part))
                 else None
             end.
Proof.
  intros Hlen. revert changes.
  induction keys as [|key keys IH]; intros changes Hkeys.
  - exists changes. split; [done|]. intros p. rewrite decide_False by apply not_elem_of_nil.
    by destruct (changes !! p).
  - destruct (first_use_zip key _ _ Hlen) as (Heq & Hin & _).
    destruct (Hin (Hkeys key ltac:(left))) as [[long lat] Hfirst].
    cbn [foldl]. unfold pseudonym_changes_step at 2. cbn [mbind option_bind].
    rewrite Hfirst in Heq.
    destruct (py_index (ReconstructedTrace.pseudo_ids part) key) as [idx|]; [|done].
    cbn [mbind option_bind] in Heq |- *.
    destruct (get_longitudes_as_gps (ReconstructedTrace.positions part) !! idx); [|done].
    cbn [mbind option_bind] in Heq |- *.
    destruct (get_latitudes_as_gps (ReconstructedTrace.positions part) !! idx); [|done].
    cbn [mbind option_bind] in Heq |- *. injection Heq as <- <-.
    destruct (IH (setdefault changes key (long, lat))) as (changes' & Hfold & Hlookup).
    { intros k Hk. apply Hkeys. by right. }
    exists changes'. split; [exact Hfold|].
    intros p. rewrite Hlookup, lookup_setdefault.
    destruct (changes !! p); [done|].
    destruct (decide (p = key)) as [->|Hne].
    + rewrite decide_True by left. done.
    + destruct (decide (p ∈ keys)) as [Hp|Hp].
      * rewrite decide_True by (by right). done.
      * rewrite decide_False; [done|]. by intros [?|?]%elem_of_cons.
Qed.

Lemma outer_loop_changes (set_order : gset Z → list Z) parts changes :
  (∀ (s : gset Z) x, x ∈ set_order s ↔ x ∈ s) →
  Forall (fun part => List.length (ReconstructedTrace.pseudo_ids part)
                      = List.length (ReconstructedTrace.positions part)) parts →
  ∃ changes',
    foldl (fun state part =>
             foldl (pseudonym_changes_step part) state
               (set_order (list_to_set (ReconstructedTrace.pseudo_ids part))))
      (Some changes) parts = Some changes'
    ∧ ∀ p, changes' !! p
           = match changes !! p with
             | Some v => Some v
             | None => first_use p (pseudonym_uses parts)
             end.
Proof.
  intros Horder Hparts. revert changes.
  induction Hparts as [|part parts Hlen _ IH]; intros changes.
  - exists changes. split; [done|]. intros p. by destruct (changes !! p).
  - cbn [foldl].
    destruct (inner_loop_changes part
                (set_order (list_to_set (ReconstructedTrace.pseudo_ids part))) changes Hlen)
      as (changes1 & -> & Hlookup1).
    { intros key Hkey. apply Horder in Hkey. by apply elem_of_list_to_set in Hkey. }
    destruct (IH changes1) as (changes' & Hfold & Hlookup).
    exists changes'. split; [exact Hfold|].
    intros p. rewrite Hlookup, Hlookup1.
    unfold pseudonym_uses. cbn [map concat]. rewrite first_use_app.
    destruct (changes !! p); [done|].
    destruct (first_use_zip p _ _ Hlen) as (_ & _ & Hout).
    destruct (decide (p ∈ set_order (list_to_set (ReconstructedTrace.pseudo_ids part))))
      as [Hp|Hp]; [done|].
    rewrite Hout; [done|]. intros Hin. apply Hp, Horder. by apply elem_of_list_to_set.
Qed.

(** X21: On every vehicle trace [get_vehicle_traces] returns,
    [get_pseudonym_changes] does not raise, and whatever the iteration order
    of the sets, it maps exactly the pseudonyms of the trace's parts, each to
    the GPS coordinates recorded with its first use: in the first part that
    has it, at its first index there. *)
Theorem get_pseudonym_changes_first_use (set_order : gset Z → list Z) cams vehicles max_vehicles
    (vehicle_trace : VehicleTrace.t) :
  (∀ (s : gset Z) x, x ∈ set_order s ↔ x ∈ s) →
  vehicle_trace ∈ get_vehicle_traces cams vehicles max_vehicles →
  ∃ changes,
    get_pseudonym_changes set_order vehicle_trace = Some changes
    ∧ ∀ p, changes !! p
           = first_use p (pseudonym_uses (VehicleTrace.reconstructed_traces vehicle_trace)).
Proof.
  intros Horder Hin. unfold get_pseudonym_changes.
  destruct (outer_loop_changes set_order (VehicleTrace.reconstructed_traces vehicle_trace) ∅
              Horder) as (changes & Hfold & Hlookup).
  - unfold get_vehicle_traces in Hin.
    destruct (build_routes_tracks_groups cams vehicles) as (groups & Htracks & _ & _).
    destruct (build_routes cams vehicles) as [static_vehicles tracks]. cbn [snd] in Htracks.
    apply elem_of_matched_vehicles_of in Hin as (original_trace & _ & _ & _ & ->).
    cbn [VehicleTrace.reconstructed_traces].
    apply Forall_forall. intros part Hpart.
    apply elem_of_reconstructed_traces_of in Hpart as (target_trace & Ht & _ & _ & ->).
    cbn [ReconstructedTrace.pseudo_ids ReconstructedTrace.positions].
    rewrite Htracks in Ht. apply list_elem_of_fmap in Ht as ([first others] & -> & _).
    cbn [fst snd].
    destruct (candidate_track_of_fields first others)
      as (_ & _ & _ & Hp & Hlo & Hla & _ & _ & Hts & _).
    unfold VehicleDynamicId.get_positions.
    rewrite Hp, Hlo, Hla, Hts, zip_positions_of_cams. by rewrite !length_map.
  - exists changes. split; [exact Hfold|]. intros p. by rewrite Hlookup, lookup_empty.
Qed.

Lemma get_pseudonym_changes_first_use_witness :
  ∃ vehicle_trace changes,
    vehicle_trace ∈ get_vehicle_traces Examples.lone_stream None None
    ∧ get_pseudonym_changes elements vehicle_trace = Some changes
    ∧ ∀ p, changes !! p
           = first_use p (pseudonym_uses (VehicleTrace.reconstructed_traces vehicle_trace)).
Proof.
  assert (∃ vehicle_trace, get_vehicle_traces Examples.lone_stream None None = [vehicle_trace])
    as [vehicle_trace Htraces] by (vm_compute; eauto).
  assert (vehicle_trace ∈ get_vehicle_traces Examples.lone_stream None None) as Hin
    by (rewrite Htraces; left).
  destruct (get_pseudonym_changes_first_use elements Examples.lone_stream None None
              vehicle_trace) as (changes & Hchanges & Hlookup).
  - intros s x. apply elem_of_elements.
  - exact Hin.
  - exists vehicle_trace, changes. split; [exact Hin|]. split; [exact Hchanges|exact Hlookup].
Defined.
End PseudonymChanges.

(** ** The consumption rates on an example *)

Section ConsumptionRates.
Local Open Scope R_scope.

Lemma consumption_rates_and_characteristics_witness :
  ∃ pseudonym_consumption,
    calculate_pseudonym_consumption Examples.one_pseudonym_each 100
    = Some pseudonym_consumption
    ∧ (calculate_characteristics (map_to_list pseudonym_consumption).*2 = None
       ↔ (distinct_count (map CAM.static_id Examples.one_pseudonym_each) < 2)%nat).
Proof.
  destruct (consumption_rates_and_characteristics Examples.one_pseudonym_each 100)
    as (pseudonym_consumption & Hrates & _ & Hnone); [lra|].
  exists pseudonym_consumption. split; [exact Hrates|exact Hnone].
Defined.
End ConsumptionRates.
